(** * violet.ts: a model of the task runner and its run-time behaviour

    The repository holds two versions of the same runner:
    - [Simpler]: src/index.ts, with the log levels "warn" | "log", the
      registry-level gate [_shouldLog] and the free function [exeCommand];
    - [Richer]: the second source file, with the builder method [error], the
      task-level helpers [_log] / [_warn] / [_error] and the shell wrapper
      [exe] local to [exec].
    Both share [addTask], [_runTask], [_complete], [dep], [run] and
    [parallel]; the definitions below take the version as a parameter and
    branch on it exactly where the two texts differ.

    The run is modelled as the reactions of its promises.  A [World] holds
    the registry, the task objects, the store of [Ctx] objects, the state
    of every [_runTask] invocation and parallel closure, and the events so
    far.  [step] runs one reaction: the code between two suspension
    points of one invocation.  Which invocation reacts next, and what a
    shell command produced, is chosen from outside ([Pick]); the
    statements about runs hold for every such choice, so in particular for
    the order in which Node runs them.  User functions are arbitrary
    transformers of the object store that may suspend any number of
    times; they do not call the registry or a builder while a task
    runs.

    The function called at the end of both files is [entry]: it reads the
    task name from the arguments, looks for the file with
    [findVioletFile], imports it, lets its default export declare the
    tasks ([declare]) and runs the name ([main]); each of these steps can
    fail, and nothing catches the failure. *)

From stdpp Require Import gmap strings list.
From Stdlib Require Import ZArith Lia.

Open Scope string_scope.
Open Scope list_scope.

Inductive Variant := Simpler | Richer.

(** ** Values *)

(** An object identity.  [Ctx] values are JavaScript objects: the runner
    only ever stores, passes and compares references to them. *)
Abbreviation Ref := nat (only parsing).

(** The content of a [Ctx] object ([{ [key: string]: any }]). *)
Abbreviation Obj := (gmap string Z) (only parsing).

(** The object store: position = identity. *)
Abbreviation Heap := (list (gmap string Z)) (only parsing).

(** What a user function hands back: [Ctx | void]. *)
Inductive JsRet :=
| Undefined
| Object (r : Ref).

(** [if (ctx) ...] of the simpler version: every object is truthy. *)
Definition truthy (v : JsRet) : bool :=
  match v with Undefined => false | Object _ => true end.

(** [if (ret !== undefined) ...] of the richer version. *)
Definition defined (v : JsRet) : bool :=
  match v with Undefined => false | Object _ => true end.

(** A user function after it has been called: it has returned ([Ret]),
    thrown or rejected ([Throw]), or is suspended on some promise of its
    own ([Await]): when that one settles it updates the store it finds
    ([upd]) and goes on ([k]). *)
Inductive Script :=
| Ret (v : JsRet)
| Throw
| Await (upd : Heap -> Heap) (k : Heap -> Script).

(** [(ctx: Ctx) => Promise<Ctx | void> | (Ctx | void)]: the part run
    synchronously by the call, and what remains. *)
Abbreviation UserFn := (Ref -> Heap -> Heap * Script) (only parsing).

(** [console.log], [console.warn], [console.error]. *)
Inductive Stream := Out | Warn | Err.

(** The entries of [_jobs].  The closures pushed by [log], [warn] and
    [error] only differ in the console method and the arguments. *)
Inductive Job :=
| JRun (fn : UserFn)
| JParallel (fns : list UserFn)
| JExec (args : list string)
| JConsole (s : Stream) (args : list string).

(** [TaskBuilderImpl]. *)
Record Task := mkTask {
  _name : string;
  _deps : list string;
  _jobs : list Job;
  _ctx : Ref }.

(** What the callback of [child_process.exec] receives. *)
Record ShellResult := mkShell {
  sh_error : option string;   (* error?.message; None for null *)
  sh_stdout : string;
  sh_stderr : string }.

(** ** Promises in flight *)

Inductive Awaited :=
| WTick                      (* the job returned no promise *)
| WFn (s : Script)           (* run: awaiting fn(this._ctx) *)
| WAll (kids : list nat)     (* parallel: awaiting Promise.all(...) *)
| WCmd (cmd : string)        (* exec: awaiting the shell callback *)
| WNever.                    (* exec: callback done, promise left pending *)

(** One invocation of [_runTask] (with the [_complete] it awaits), or one
    closure of a [parallel] group. *)
Inductive Phase :=
| Called (name : string)             (* _runTask(name) invoked *)
| Deps (t : nat) (kids : list nat)   (* awaiting Promise.all(deps...) *)
| Loop (t : nat) (i : nat)           (* for-loop of _complete before job i *)
| Waiting (t : nat) (i : nat) (w : Awaited)  (* awaiting job i *)
| Branch (t : nat) (s : Script)      (* closure of a parallel group *)
| Resolved
| Rejected.

(** What happened, most recent first.  Console output and commands handed
    to the shell are the observable part; the rest records the run. *)
Inductive Event :=
| EvRunTask (a : nat) (name : string)     (* the body of _runTask starts *)
| EvEnter (a : nat) (t : nat) (kids : list nat)
    (* _complete of object t starts; kids: this._deps.map(_runTask) *)
| EvCall (a : nat) (t : nat) (i : nat)    (* job i of object t is called *)
| EvShell (a : nat) (cmd : string)        (* exec(cmd, callback) *)
| EvAssign (a : nat) (t : nat) (r : Ref)  (* this._ctx = ret *)
| EvConsole (a : option nat) (s : Stream) (args : list string)
| EvSettle (a : nat) (ok : bool).         (* the promise resolves / rejects *)

(** [VioletImpl], the task objects it created, the object store and the
    promises of the current run.  [_log_level] exists in the simpler
    version only; the richer one never reads it. *)
Record World := mkWorld {
  _tasks : gmap string nat;
  _log_level : Z;
  objects : list Task;
  heap : Heap;
  acts : list Phase;
  trace : list Event }.

Definition violet : World :=
  {| _tasks := ∅; _log_level := 1; objects := []; heap := [];
     acts := []; trace := [] |}.

(** *** Field updates *)

Definition emit (e : Event) (w : World) : World :=
  {| _tasks := _tasks w; _log_level := _log_level w; objects := objects w;
     heap := heap w; acts := acts w; trace := e :: trace w |}.

Definition set_objects (os : list Task) (w : World) : World :=
  {| _tasks := _tasks w; _log_level := _log_level w; objects := os;
     heap := heap w; acts := acts w; trace := trace w |}.

Definition set_heap (h : Heap) (w : World) : World :=
  {| _tasks := _tasks w; _log_level := _log_level w; objects := objects w;
     heap := h; acts := acts w; trace := trace w |}.

Definition set_acts (ps : list Phase) (w : World) : World :=
  {| _tasks := _tasks w; _log_level := _log_level w; objects := objects w;
     heap := heap w; acts := ps; trace := trace w |}.

Definition set_phase (a : nat) (ph : Phase) (w : World) : World :=
  set_acts (<[a := ph]> (acts w)) w.

Definition spawn (phs : list Phase) (w : World) : World :=
  set_acts (acts w ++ phs) w.

Definition console (a : option nat) (s : Stream) (args : list string)
    (w : World) : World :=
  emit (EvConsole a s args) w.

(** ** The log gate (simpler version) *)

Inductive LogLevel := LvLog | LvWarn.

Definition LogLevelHierarchy (l : LogLevel) : Z :=
  match l with LvWarn => 2 | LvLog => 3 end.

Definition logLevel (level : LogLevel) (w : World) : World :=
  {| _tasks := _tasks w; _log_level := LogLevelHierarchy level;
     objects := objects w; heap := heap w; acts := acts w;
     trace := trace w |}.

Definition _shouldLog (w : World) (msgLevel : LogLevel) : bool :=
  (LogLevelHierarchy msgLevel <=? _log_level w)%Z && (0 <? _log_level w)%Z.

(** [VioletImpl._log] and [VioletImpl._warn]. *)
Definition violet_log (a : option nat) (str : string) (w : World) : World :=
  if _shouldLog w LvLog then console a Out [str] w else w.

Definition violet_warn (a : option nat) (str : string) (w : World) : World :=
  if _shouldLog w LvWarn then console a Warn [str] w else w.

(** ** Task-level helpers (richer version) *)

Definition _log (a : option nat) (name msg : string) (w : World) : World :=
  console a Out ["[" +:+ name +:+ "] LOG:"; msg] w.

Definition _warn (a : option nat) (name msg : string) (w : World) : World :=
  console a Warn ["[" +:+ name +:+ "] WARN:"; msg] w.

Definition _error (a : option nat) (name msg : string) (w : World) : World :=
  console a Err ["[" +:+ name +:+ "] ERROR:"; msg] w.

(** ** The builder *)

Section Runner.

Variable v : Variant.

Definition name_of (t : nat) (w : World) : string :=
  match objects w !! t with Some task => _name task | None => "" end.

(** The zero-argument branch of [dep], [run], [parallel] and [exec]:
    [this._violet._warn(`[${this._name}] ERROR: m() expects an arra of
    function`)] in the simpler version, [this._warn("m() expects an array
    of function")] in the richer one. *)
Definition usage (t : nat) (method : string) (w : World) : World :=
  match v with
  | Simpler =>
      violet_warn None
        ("[" +:+ name_of t w +:+ "] ERROR: " +:+ method
           +:+ "() expects an arra of function") w
  | Richer =>
      _warn None (name_of t w) (method +:+ "() expects an array of function") w
  end.

Definition push_deps (t : nat) (names : list string) (w : World) : World :=
  match objects w !! t with
  | Some task =>
      set_objects (<[t := mkTask (_name task) (_deps task ++ names)
                                 (_jobs task) (_ctx task)]> (objects w)) w
  | None => w
  end.

Definition push_jobs (t : nat) (js : list Job) (w : World) : World :=
  match objects w !! t with
  | Some task =>
      set_objects (<[t := mkTask (_name task) (_deps task)
                                 (_jobs task ++ js) (_ctx task)]> (objects w)) w
  | None => w
  end.

Definition dep (t : nat) (tasks : list string) (w : World) : World :=
  match tasks with
  | [] => usage t "dep" w
  | _ => push_deps t tasks w
  end.

Definition run (t : nat) (fns : list UserFn) (w : World) : World :=
  match fns with
  | [] => usage t "run" w
  | _ => push_jobs t (JRun <$> fns) w
  end.

Definition parallel (t : nat) (fns : list UserFn) (w : World) : World :=
  match fns with
  | [] => usage t "parallel" w
  | _ => push_jobs t [JParallel fns] w
  end.

Definition exec (t : nat) (args : list string) (w : World) : World :=
  match args with
  | [] => usage t "exec" w
  | _ => push_jobs t [JExec args] w
  end.

(** The template literal of the simpler version ends in a blank. *)
Definition tag (t : nat) (sev : string) (w : World) : string :=
  match v with
  | Simpler => "[" +:+ name_of t w +:+ "] " +:+ sev +:+ ": "
  | Richer => "[" +:+ name_of t w +:+ "] " +:+ sev +:+ ":"
  end.

Definition log (t : nat) (args : list string) (w : World) : World :=
  push_jobs t [JConsole Out (tag t "LOG" w :: args)] w.

Definition warn (t : nat) (args : list string) (w : World) : World :=
  push_jobs t [JConsole Warn (tag t "WARN" w :: args)] w.

(** Richer version only; it writes through [console.warn]. *)
Definition error (t : nat) (args : list string) (w : World) : World :=
  push_jobs t [JConsole Warn (("[" +:+ name_of t w +:+ "] ERROR:") :: args)] w.

(** [addTask]: a new [TaskBuilderImpl] with a new empty object for
    [_ctx]; [Map.set] overwrites.  The result is the builder handle. *)
Definition addTask (name : string) (w : World) : nat * World :=
  let t := length (objects w) in
  (t, {| _tasks := <[name := t]> (_tasks w);
         _log_level := _log_level w;
         objects := objects w ++ [mkTask name [] [] (length (heap w))];
         heap := heap w ++ [∅];
         acts := acts w;
         trace := trace w |}).

(** ** Running a shell command *)

(** [args.join(" ")]. *)
Fixpoint join (sep : string) (xs : list string) : string :=
  match xs with
  | [] => ""
  | [x] => x
  | x :: rest => x +:+ sep +:+ join sep rest
  end.

(** A string is truthy when it is not empty. *)
Definition nonempty (s : string) : bool :=
  match s with EmptyString => false | String _ _ => true end.

(** Calling [resolve] or [reject] on a promise that is already settled
    does nothing. *)
Definition settle_once (cell : option bool) (ok : bool) : option bool :=
  match cell with None => Some ok | Some _ => cell end.

(** The callback handed to [child_process.exec]: the lines it writes, in
    order, and how it leaves the promise ([None]: still pending). *)
Definition exeCommand (r : ShellResult)
    : list (Stream * list string) * option bool :=
  match sh_error r with
  | Some msg => ([(Err, ["Error: " +:+ msg])], Some false)
  | None =>
      ((if nonempty (sh_stderr r)
        then [(Err, ["Stderr: " +:+ sh_stderr r])] else []),
       Some true)
  end.

Definition exe (name : string) (r : ShellResult)
    : list (Stream * list string) * option bool :=
  let '(l1, c1) :=
    match sh_error r with
    | Some msg => ([(Err, ["[" +:+ name +:+ "] ERROR:"; msg])],
                   settle_once None false)
    | None => ([], None)
    end in
  let '(l2, c2) :=
    if nonempty (sh_stderr r)
    then (l1 ++ [(Warn, ["[" +:+ name +:+ "] WARN:"; sh_stderr r])],
          settle_once c1 false)
    else (l1, c1) in
  if nonempty (sh_stdout r)
  then (l2 ++ [(Out, ["[" +:+ name +:+ "] LOG:"; sh_stdout r])],
        settle_once c2 true)
  else (l2, c2).

Definition shell_callback (name : string) (r : ShellResult)
    : list (Stream * list string) * option bool :=
  match v with Simpler => exeCommand r | Richer => exe name r end.

Definition write_all (a : nat) (ls : list (Stream * list string))
    (w : World) : World :=
  foldl (fun w l => console (Some a) (fst l) (snd l) w) w ls.

(** ** Running tasks *)

(** The state of [Promise.all(ps)]: it rejects as soon as one member has
    rejected and resolves once all have resolved. *)
Inductive AllState := AllPending | AllResolved | AllRejected.

Definition is_resolved (ps : list Phase) (k : nat) : bool :=
  match ps !! k with Some Resolved => true | _ => false end.

Definition is_rejected (ps : list Phase) (k : nat) : bool :=
  match ps !! k with Some Rejected => true | _ => false end.

Definition promise_all (ps : list Phase) (kids : list nat) : AllState :=
  if existsb (is_rejected ps) kids then AllRejected
  else if forallb (is_resolved ps) kids then AllResolved
  else AllPending.

Definition settle (a : nat) (ok : bool) (w : World) : World :=
  emit (EvSettle a ok) (set_phase a (if ok then Resolved else Rejected) w).

(** [if (ctx) this._ctx = ctx] / [if (ret !== undefined) this._ctx = ret]. *)
Definition replaces (ret : JsRet) : bool :=
  match v with Simpler => truthy ret | Richer => defined ret end.

Definition with_ctx (task : Task) (r : Ref) : Task :=
  mkTask (_name task) (_deps task) (_jobs task) r.

Definition assign (a t : nat) (ret : JsRet) (w : World) : World :=
  match ret with
  | Object r =>
      if replaces ret then
        match objects w !! t with
        | Some task =>
            emit (EvAssign a t r)
              (set_objects (<[t := with_ctx task r]> (objects w)) w)
        | None => w
        end
      else w
  | Undefined => w
  end.

(** [fns.map(async (fn) => ...)]: every function is called, in order, with
    the [_ctx] of that moment; none of the closures assigns before the
    [map] is over. *)
Fixpoint call_all (fns : list UserFn) (ctx : Ref) (h : Heap)
    : Heap * list Script :=
  match fns with
  | [] => (h, [])
  | fn :: rest =>
      let '(h1, s) := fn ctx h in
      let '(h2, ss) := call_all rest ctx h1 in
      (h2, s :: ss)
  end.

(** The last statement of [_complete]. *)
Definition completed (a t : nat) (w : World) : World :=
  match v with
  | Simpler =>
      violet_log (Some a) ("[" +:+ name_of t w +:+ "] LOG: Task completed") w
  | Richer => _log (Some a) (name_of t w) "Task completed" w
  end.

(** [_runTask(name)] up to its first suspension: an unknown name returns
    at once; otherwise [_complete] starts all dependencies, or goes
    straight to the loop when there is none. *)
Definition _runTask (a : nat) (name : string) (w : World) : World :=
  match _tasks w !! name with
  | None => settle a true (emit (EvRunTask a name) w)
  | Some t =>
      match objects w !! t with
      | None => w
      | Some task =>
          match _deps task with
          | [] =>
              emit (EvEnter a t [])
                (set_phase a (Loop t 0) (emit (EvRunTask a name) w))
          | ds =>
              let kids := seq (length (acts w)) (length ds) in
              emit (EvEnter a t kids)
                (set_phase a (Deps t kids)
                   (spawn (Called <$> ds) (emit (EvRunTask a name) w)))
          end
      end
  end.

(** The head of [for (const job of this._jobs) await job()]: past the
    last job the completion line is written and the promise resolves;
    otherwise job [i] is called. *)
Definition call_job (a t i : nat) (w : World) : World :=
  match objects w !! t with
  | None => w
  | Some task =>
      match _jobs task !! i with
      | None => settle a true (completed a t w)
      | Some job =>
          let w := emit (EvCall a t i) w in
          match job with
          | JRun fn =>
              let '(h, s) := fn (_ctx task) (heap w) in
              set_phase a (Waiting t i (WFn s)) (set_heap h w)
          | JParallel fns =>
              let '(h, ss) := call_all fns (_ctx task) (heap w) in
              let kids := seq (length (acts w)) (length ss) in
              set_phase a (Waiting t i (WAll kids))
                (spawn (Branch t <$> ss) (set_heap h w))
          | JExec args =>
              set_phase a (Waiting t i (WCmd (join " " args)))
                (emit (EvShell a (join " " args)) w)
          | JConsole s args =>
              set_phase a (Waiting t i WTick) (console (Some a) s args w)
          end
      end
  end.

(** One more turn of an awaited user function. *)
Definition resume (h : Heap) (s : Script) : Heap * Script :=
  match s with
  | Await upd k => (upd h, k h)
  | _ => (h, s)
  end.

(** What the scheduler provides at each turn: the promise reaction to run
    and, for a shell callback, what the command produced. *)
Record Pick := mkPick { who : nat; shell : ShellResult }.

Definition step (p : Pick) (w : World) : World :=
  let a := who p in
  match acts w !! a with
  | None => w
  | Some ph =>
      match ph with
      | Called name => _runTask a name w
      | Deps t kids =>
          match promise_all (acts w) kids with
          | AllRejected => settle a false w
          | AllResolved => set_phase a (Loop t 0) w
          | AllPending => w
          end
      | Loop t i => call_job a t i w
      | Waiting t i WTick => set_phase a (Loop t (S i)) w
      | Waiting t i (WFn (Ret ret)) =>
          set_phase a (Loop t (S i)) (assign a t ret w)
      | Waiting t i (WFn Throw) => settle a false w
      | Waiting t i (WFn (Await upd k)) =>
          set_phase a (Waiting t i (WFn (k (heap w)))) (set_heap (upd (heap w)) w)
      | Waiting t i (WAll kids) =>
          match promise_all (acts w) kids with
          | AllRejected => settle a false w
          | AllResolved => set_phase a (Loop t (S i)) w
          | AllPending => w
          end
      | Waiting t i (WCmd cmd) =>
          let '(ls, cell) := shell_callback (name_of t w) (shell p) in
          let w := write_all a ls w in
          match cell with
          | Some true => set_phase a (Loop t (S i)) w
          | Some false => settle a false w
          | None => set_phase a (Waiting t i WNever) w
          end
      | Waiting t i WNever => w
      | Branch t (Ret ret) => settle a true (assign a t ret w)
      | Branch t Throw => settle a false w
      | Branch t (Await upd k) =>
          set_phase a (Branch t (k (heap w))) (set_heap (upd (heap w)) w)
      | Resolved | Rejected => w
      end
  end.

Definition run_sched (sched : list Pick) (w : World) : World :=
  foldl (fun w p => step p w) w sched.

(** [await violet._runTask(task)] of the entry point. *)
Definition main (task : string) (w : World) : World :=
  spawn [Called task] w.

End Runner.

(** ** Declaring tasks

    What the default export of a violet.ts file can do with the handle it
    receives: a sequence of calls on the registry and on the builders it
    returned.  [error] is a method of the richer builder only and
    [logLevel] of the simpler registry only: a statement the version at
    hand does not have is skipped. *)
Inductive Stmt :=
| SAddTask (name : string)
| SDep (t : nat) (tasks : list string)
| SRun (t : nat) (fns : list UserFn)
| SParallel (t : nat) (fns : list UserFn)
| SExec (t : nat) (args : list string)
| SLog (t : nat) (args : list string)
| SWarn (t : nat) (args : list string)
| SError (t : nat) (args : list string)
| SLogLevel (level : LogLevel).

Definition declare1 (v : Variant) (w : World) (s : Stmt) : World :=
  match s with
  | SAddTask name => snd (addTask name w)
  | SDep t tasks => dep v t tasks w
  | SRun t fns => run v t fns w
  | SParallel t fns => parallel v t fns w
  | SExec t args => exec v t args w
  | SLog t args => log v t args w
  | SWarn t args => warn v t args w
  | SError t args =>
      match v with Richer => error t args w | Simpler => w end
  | SLogLevel level =>
      match v with Simpler => logLevel level w | Richer => w end
  end.

Definition declare (v : Variant) (prog : list Stmt) : World :=
  foldl (declare1 v) violet prog.

(** ** Reading the trace *)

Definition actor (e : Event) : option nat :=
  match e with
  | EvRunTask a _ | EvEnter a _ _ | EvCall a _ _ | EvShell a _
  | EvAssign a _ _ | EvSettle a _ => Some a
  | EvConsole a _ _ => a
  end.

(** The console lines, oldest first. *)
Definition printed (tr : list Event) : list (Stream * list string) :=
  reverse (omap (fun e => match e with
                      | EvConsole _ s args => Some (s, args)
                      | _ => None
                      end) tr).

(** The commands handed to the shell, oldest first. *)
Definition commands (tr : list Event) : list string :=
  reverse (omap (fun e => match e with EvShell _ c => Some c | _ => None end) tr).

(** The most recent [this._ctx = ret] on object [t]. *)
Fixpoint last_assigned (t : nat) (tr : list Event) : option Ref :=
  match tr with
  | [] => None
  | EvAssign _ t' r :: rest =>
      if decide (t' = t) then Some r else last_assigned t rest
  | _ :: rest => last_assigned t rest
  end.

Definition ctx_of (t : nat) (w : World) : option Ref :=
  _ctx <$> objects w !! t.

(** ** One reaction, case by case *)

Definition lines_events (a : nat) (ls : list (Stream * list string))
    : list Event :=
  reverse ((fun l => EvConsole (Some a) (fst l) (snd l)) <$> ls).

Definition completed_events (v : Variant) (a t : nat) (w : World)
    : list Event :=
  match v with
  | Simpler =>
      if _shouldLog w LvLog
      then [EvConsole (Some a) Out
              ["[" +:+ name_of t w +:+ "] LOG: Task completed"]]
      else []
  | Richer =>
      [EvConsole (Some a) Out
         ["[" +:+ name_of t w +:+ "] LOG:"; "Task completed"]]
  end.

Definition assign_events (a t : nat) (ret : JsRet) (w : World) : list Event :=
  match ret, objects w !! t with
  | Object r, Some _ => [EvAssign a t r]
  | _, _ => []
  end.

Definition assign_objects (t : nat) (ret : JsRet) (w : World) : list Task :=
  match ret, objects w !! t with
  | Object r, Some task => <[t := with_ctx task r]> (objects w)
  | _, _ => objects w
  end.

(** [Move v r a w ph ph' new es os h]: the reaction of promise [a], found
    in phase [ph], leaves it in phase [ph'], creates the promises [new],
    adds the events [es] (most recent first) and leaves the task objects
    [os] and the store [h]. *)
Inductive Move (v : Variant) (r : ShellResult) (a : nat) (w : World)
  : Phase -> Phase -> list Phase -> list Event -> list Task ->
    list (gmap string Z) -> Prop :=
| MvUnknown name :
    _tasks w !! name = None ->
    Move v r a w (Called name) Resolved []
      [EvSettle a true; EvRunTask a name] (objects w) (heap w)
| MvEnter name t task :
    _tasks w !! name = Some t -> objects w !! t = Some task ->
    _deps task = [] ->
    Move v r a w (Called name) (Loop t 0) []
      [EvEnter a t []; EvRunTask a name] (objects w) (heap w)
| MvSpawn name t task :
    _tasks w !! name = Some t -> objects w !! t = Some task ->
    _deps task <> [] ->
    Move v r a w (Called name)
      (Deps t (seq (length (acts w)) (length (_deps task))))
      (Called <$> _deps task)
      [EvEnter a t (seq (length (acts w)) (length (_deps task)));
       EvRunTask a name]
      (objects w) (heap w)
| MvDepsFail t kids :
    promise_all (acts w) kids = AllRejected ->
    Move v r a w (Deps t kids) Rejected [] [EvSettle a false]
      (objects w) (heap w)
| MvDepsDone t kids :
    promise_all (acts w) kids = AllResolved ->
    Move v r a w (Deps t kids) (Loop t 0) [] [] (objects w) (heap w)
| MvDone t i task :
    objects w !! t = Some task -> _jobs task !! i = None ->
    Move v r a w (Loop t i) Resolved []
      (EvSettle a true :: completed_events v a t w) (objects w) (heap w)
| MvRun t i task fn :
    objects w !! t = Some task -> _jobs task !! i = Some (JRun fn) ->
    Move v r a w (Loop t i)
      (Waiting t i (WFn (snd (fn (_ctx task) (heap w))))) []
      [EvCall a t i] (objects w) (fst (fn (_ctx task) (heap w)))
| MvParallel t i task fns :
    objects w !! t = Some task -> _jobs task !! i = Some (JParallel fns) ->
    Move v r a w (Loop t i)
      (Waiting t i (WAll (seq (length (acts w)) (length fns))))
      (Branch t <$> snd (call_all fns (_ctx task) (heap w)))
      [EvCall a t i] (objects w) (fst (call_all fns (_ctx task) (heap w)))
| MvExec t i task args :
    objects w !! t = Some task -> _jobs task !! i = Some (JExec args) ->
    Move v r a w (Loop t i) (Waiting t i (WCmd (join " " args))) []
      [EvShell a (join " " args); EvCall a t i] (objects w) (heap w)
| MvConsole t i task s args :
    objects w !! t = Some task -> _jobs task !! i = Some (JConsole s args) ->
    Move v r a w (Loop t i) (Waiting t i WTick) []
      [EvConsole (Some a) s args; EvCall a t i] (objects w) (heap w)
| MvTick t i :
    Move v r a w (Waiting t i WTick) (Loop t (S i)) [] []
      (objects w) (heap w)
| MvRet t i ret :
    Move v r a w (Waiting t i (WFn (Ret ret))) (Loop t (S i)) []
      (assign_events a t ret w) (assign_objects t ret w) (heap w)
| MvThrow t i :
    Move v r a w (Waiting t i (WFn Throw)) Rejected [] [EvSettle a false]
      (objects w) (heap w)
| MvAwait t i upd k :
    Move v r a w (Waiting t i (WFn (Await upd k)))
      (Waiting t i (WFn (k (heap w)))) [] [] (objects w) (upd (heap w))
| MvAllFail t i kids :
    promise_all (acts w) kids = AllRejected ->
    Move v r a w (Waiting t i (WAll kids)) Rejected [] [EvSettle a false]
      (objects w) (heap w)
| MvAllDone t i kids :
    promise_all (acts w) kids = AllResolved ->
    Move v r a w (Waiting t i (WAll kids)) (Loop t (S i)) [] []
      (objects w) (heap w)
| MvCmdOk t i cmd ls :
    shell_callback v (name_of t w) r = (ls, Some true) ->
    Move v r a w (Waiting t i (WCmd cmd)) (Loop t (S i)) []
      (lines_events a ls) (objects w) (heap w)
| MvCmdFail t i cmd ls :
    shell_callback v (name_of t w) r = (ls, Some false) ->
    Move v r a w (Waiting t i (WCmd cmd)) Rejected []
      (EvSettle a false :: lines_events a ls) (objects w) (heap w)
| MvCmdHang t i cmd ls :
    shell_callback v (name_of t w) r = (ls, None) ->
    Move v r a w (Waiting t i (WCmd cmd)) (Waiting t i WNever) []
      (lines_events a ls) (objects w) (heap w)
| MvBranchRet t ret :
    Move v r a w (Branch t (Ret ret)) Resolved []
      (EvSettle a true :: assign_events a t ret w)
      (assign_objects t ret w) (heap w)
| MvBranchThrow t :
    Move v r a w (Branch t Throw) Rejected [] [EvSettle a false]
      (objects w) (heap w)
| MvBranchAwait t upd k :
    Move v r a w (Branch t (Await upd k)) (Branch t (k (heap w))) [] []
      (objects w) (upd (heap w)).

(** The world after a reaction described by [Move]. *)
Definition moved (a : nat) (w : World) (ph' : Phase) (new : list Phase)
    (es : list Event) (os : list Task) (h : Heap) : World :=
  mkWorld (_tasks w) (_log_level w) os h
    (<[a := ph']> (acts w) ++ new) (es ++ trace w).

(** ** What a run must satisfy *)

(** [ordered P tr]: every event of [tr] satisfies [P] with respect to the
    events that came before it. *)
Fixpoint ordered (P : Event -> list Event -> Prop) (tr : list Event) : Prop :=
  match tr with
  | [] => True
  | e :: past => P e past /\ ordered P past
  end.

(** A job is called only by a promise that has entered [_complete], and
    only once all the dependencies started there have resolved. *)
Definition after_deps (e : Event) (past : list Event) : Prop :=
  forall a t i, e = EvCall a t i ->
    (exists kids, EvEnter a t kids ∈ past) /\
    (forall t' kids k,
        EvEnter a t' kids ∈ past -> k ∈ kids -> EvSettle k true ∈ past).

(** A promise that has settled does nothing any more. *)
Definition after_settle (e : Event) (past : list Event) : Prop :=
  forall a ok, actor e = Some a -> EvSettle a ok ∉ past.

(** [_complete] is entered before the promise does anything else than
    looking up the name. *)
Definition enter_first (e : Event) (past : list Event) : Prop :=
  forall a t kids, e = EvEnter a t kids ->
    forall e', e' ∈ past -> actor e' = Some a -> exists d, e' = EvRunTask a d.

Definition terminal (ok : bool) : Phase := if ok then Resolved else Rejected.

Definition task_of_phase (ph : Phase) : option nat :=
  match ph with
  | Deps t _ | Loop t _ | Waiting t _ _ => Some t
  | _ => None
  end.

(** The world handed to [main]: nothing runs yet and only the builder has
    written to the console. *)
Definition quiet (w : World) : Prop :=
  acts w = [] /\
  forall e, e ∈ trace w -> exists s args, e = EvConsole None s args.

(** What holds of every world [w] reached from [main name w0]. *)
Record Inv (w0 w : World) : Prop := mkInv {
  i_tasks : _tasks w = _tasks w0;
  i_level : _log_level w = _log_level w0;
  i_length : length (objects w) = length (objects w0);
  i_objects : forall t task0,
      objects w0 !! t = Some task0 ->
      objects w !! t =
        Some (with_ctx task0
                (default (_ctx task0) (last_assigned t (trace w))));
  i_bound : forall e b, e ∈ trace w -> actor e = Some b -> b < length (acts w);
  i_settled : forall b ok,
      EvSettle b ok ∈ trace w <-> acts w !! b = Some (terminal ok);
  i_enter : forall b t kids,
      EvEnter b t kids ∈ trace w ->
      acts w !! b = Some (Deps t kids) \/ acts w !! b = Some Rejected \/
      (forall k, k ∈ kids -> EvSettle k true ∈ trace w);
  i_entered : forall b ph t,
      acts w !! b = Some ph -> task_of_phase ph = Some t ->
      exists kids, EvEnter b t kids ∈ trace w;
  i_kids : forall b t kids,
      EvEnter b t kids ∈ trace w ->
      exists name task0,
        EvRunTask b name ∈ trace w /\ _tasks w0 !! name = Some t /\
        objects w0 !! t = Some task0 /\
        length kids = length (_deps task0) /\
        forall j k d, kids !! j = Some k -> _deps task0 !! j = Some d ->
          acts w !! k = Some (Called d) \/ EvRunTask k d ∈ trace w;
  i_fresh : forall b d e,
      acts w !! b = Some (Called d) -> e ∈ trace w -> actor e <> Some b;
  i_name : forall b d d',
      EvRunTask b d ∈ trace w -> EvRunTask b d' ∈ trace w -> d = d';
  i_after_deps : ordered after_deps (trace w);
  i_after_settle : ordered after_settle (trace w);
  i_enter_first : ordered enter_first (trace w) }.

(** Every registered object carries the name it is registered under. *)
Definition named (w : World) : Prop :=
  forall n t, _tasks w !! n = Some t ->
    exists task, objects w !! t = Some task /\ _name task = n.


(** What [exe] writes: the error message, then stderr, then stdout, each
    when present. *)
Definition exe_lines (name : string) (r : ShellResult)
    : list (Stream * list string) :=
  match sh_error r with
  | Some msg => [(Err, ["[" +:+ name +:+ "] ERROR:"; msg])]
  | None => []
  end ++
  (if nonempty (sh_stderr r)
   then [(Warn, ["[" +:+ name +:+ "] WARN:"; sh_stderr r])] else []) ++
  (if nonempty (sh_stdout r)
   then [(Out, ["[" +:+ name +:+ "] LOG:"; sh_stdout r])] else []).

(** ** Rejecting *)

(** Promise [a] rejects in the reaction from [w] to [w']: it is rejected
    afterwards, the rejection is the last thing that happened, after the
    [lines] written in the same reaction, and nothing else has changed. *)
Definition rejects (a : nat) (lines : list Event) (w w' : World) : Prop :=
  acts w' !! a = Some Rejected /\
  trace w' = EvSettle a false :: (lines ++ trace w) /\
  (forall b, b <> a -> acts w' !! b = acts w !! b) /\
  length (acts w') = length (acts w) /\
  (objects w' = objects w) /\ (heap w' = heap w) /\
  (_tasks w' = _tasks w) /\ (_log_level w' = _log_level w).

(** ** A parallel group on its own *)

(** How far the loop of [_complete] has got: strictly past job [n]. *)
Definition beyond (n : nat) (ph : Phase) : Prop :=
  match ph with
  | Loop _ j => n < j
  | Waiting _ j _ => n <= j
  | Resolved | Rejected => True
  | _ => False
  end.

(** An event of a closure of the group: an assignment to the task's
    [_ctx] or the settling of the closure. *)
Definition of_group (t : nat) (kids : list nat) (e : Event) : Prop :=
  exists k, k ∈ kids /\
    ((exists c, e = EvAssign k t c) \/ (exists ok, e = EvSettle k ok)).

(** Promise [a] has called job [i] of task [t], a parallel group with the
    closures [kids], when the trace was [tr0] and [_ctx] was [c0]; since
    then only [a] and the closures have run, and [a] has not gone past the
    end of the group. *)
Definition in_group (a t i : nat) (kids : list nat) (task : Task)
    (tr0 : list Event) (w : World) : Prop :=
  (exists es,
      trace w = es ++ tr0 /\ (forall e, e ∈ es -> of_group t kids e) /\
      objects w !! t =
        Some (with_ctx task (default (_ctx task) (last_assigned t es)))) /\
  (acts w !! a = Some (Waiting t i (WAll kids)) \/
   acts w !! a = Some (Loop t (S i)) /\
   forall k, k ∈ kids -> acts w !! k = Some Resolved) /\
  (forall k, k ∈ kids ->
     acts w !! k = Some Resolved \/ acts w !! k = Some Rejected \/
     exists s, acts w !! k = Some (Branch t s)).

(** ** The order of the jobs of one run *)

(** When a job is called, the jobs the same promise has called before are
    exactly the earlier jobs of the same task. *)
Definition call_order (e : Event) (past : list Event) : Prop :=
  forall a t j, e = EvCall a t j ->
    forall t' j', EvCall a t' j' ∈ past <-> t' = t /\ j' < j.

(** The jobs a promise in a given phase has called so far: those of task
    [t] below [n] ([Some (Some (t, n))]), none ([Some None]); nothing is
    said of a settled promise ([None]). *)
Definition called (ph : Phase) : option (option (nat * nat)) :=
  match ph with
  | Called _ | Deps _ _ | Branch _ _ => Some None
  | Loop t i => Some (Some (t, i))
  | Waiting t i _ => Some (Some (t, S i))
  | Resolved | Rejected => None
  end.

(** More of what holds of every world [w] reached from [main name w0]. *)
Record Inv2 (w0 w : World) : Prop := mkInv2 {
  j_calls : forall a ph,
      acts w !! a = Some ph ->
      match called ph with
      | Some None => forall t j, EvCall a t j ∉ trace w
      | Some (Some (t, n)) =>
          forall t' j, EvCall a t' j ∈ trace w <-> t' = t /\ j < n
      | None => True
      end;
  j_bound : forall a t j,
      EvCall a t j ∈ trace w ->
      exists task0, objects w0 !! t = Some task0 /\ j < length (_jobs task0);
  j_silent : forall a t s e,
      acts w !! a = Some (Branch t s) -> e ∈ trace w -> actor e <> Some a;
  j_done : forall a t kids task0 j,
      acts w !! a = Some Resolved -> EvEnter a t kids ∈ trace w ->
      objects w0 !! t = Some task0 -> j < length (_jobs task0) ->
      EvCall a t j ∈ trace w;
  j_run : forall a d,
      EvRunTask a d ∈ trace w ->
      match _tasks w0 !! d with
      | None =>
          EvSettle a true ∈ trace w /\
          forall t kids, EvEnter a t kids ∉ trace w
      | Some t => exists kids, EvEnter a t kids ∈ trace w
      end;
  j_order : ordered call_order (trace w) }.

(** ** What a declaration builds *)

(** The tag of a console job, for a task of a given name. *)
Definition tag_of (v : Variant) (name sev : string) : string :=
  match v with
  | Simpler => "[" +:+ name +:+ "] " +:+ sev +:+ ": "
  | Richer => "[" +:+ name +:+ "] " +:+ sev +:+ ":"
  end.

(** What one statement adds to the dependency list of builder [t]. *)
Definition stmt_deps (t : nat) (s : Stmt) : list string :=
  match s with
  | SDep t' ds => if decide (t' = t) then ds else []
  | _ => []
  end.

(** What one statement adds to the job list of builder [t], a task called
    [name]. *)
Definition stmt_jobs (v : Variant) (name : string) (t : nat) (s : Stmt)
    : list Job :=
  match s with
  | SRun t' fns => if decide (t' = t) then JRun <$> fns else []
  | SParallel t' fns =>
      if decide (t' = t)
      then match fns with [] => [] | _ => [JParallel fns] end else []
  | SExec t' args =>
      if decide (t' = t)
      then match args with [] => [] | _ => [JExec args] end else []
  | SLog t' args =>
      if decide (t' = t)
      then [JConsole Out (tag_of v name "LOG" :: args)] else []
  | SWarn t' args =>
      if decide (t' = t)
      then [JConsole Warn (tag_of v name "WARN" :: args)] else []
  | SError t' args =>
      if decide (t' = t)
      then match v with
           | Richer => [JConsole Warn (("[" +:+ name +:+ "] ERROR:") :: args)]
           | Simpler => []
           end
      else []
  | _ => []
  end.

(** What a declaration leaves: no promise, no command handed to the
    shell, nothing printed but warnings of the builder, and one empty
    object per task in the store, the one of task [t] being object [t]. *)
Definition declared (w : World) : Prop :=
  acts w = [] /\
  (forall e, e ∈ trace w -> exists args, e = EvConsole None Warn args) /\
  length (heap w) = length (objects w) /\
  (forall c o, heap w !! c = Some o -> o = ∅) /\
  (forall t task, objects w !! t = Some task -> _ctx task = t).

(** ** Straight-line tasks *)

(** What a list of console jobs and of [run] jobs whose functions return
    or throw without suspending computes, one job after the other, from a
    context and a store: whether it gets to the end, the final context and
    store and the lines printed.  [None]: some job is not of this kind. *)
Fixpoint straight (js : list Job) (c : nat) (h : list (gmap string Z))
    : option (bool * nat * list (gmap string Z) * list (Stream * list string)) :=
  match js with
  | [] => Some (true, c, h, [])
  | JConsole s args :: rest =>
      match straight rest c h with
      | Some (ok, c', h', out) => Some (ok, c', h', (s, args) :: out)
      | None => None
      end
  | JRun fn :: rest =>
      match snd (fn c h) with
      | Ret (Object c') => straight rest c' (fst (fn c h))
      | Ret Undefined => straight rest c (fst (fn c h))
      | Throw => Some (false, c, fst (fn c h), [])
      | Await _ _ => None
      end
  | _ => None
  end.

(** ** The end of a run *)

(** When the run of a task resolves, the last thing it has done is to
    write the completion line, as far as the log gate lets it. *)
Definition completes (v : Variant) (w0 : World) (e : Event)
    (past : list Event) : Prop :=
  forall a t kids, e = EvSettle a true -> EvEnter a t kids ∈ past ->
    exists l, past = completed_events v a t w0 ++ l.

(** ** The threshold a declaration leaves *)

(** The arguments of the [logLevel] calls of a declaration, in order. *)
Definition levels (prog : list Stmt) : list LogLevel :=
  omap (fun s => match s with SLogLevel l => Some l | _ => None end) prog.

(** ** The entry point *)

(** [Canonicalize] of a regular expression with the flag [i] and without
    the flag [u]: the upper case of the character.  File names are byte
    strings here; a character outside ASCII is never turned into an
    ASCII one. *)
Definition Canonicalize (c : Ascii.ascii) : Ascii.ascii :=
  let n := Ascii.nat_of_ascii c in
  if ((97 <=? n) && (n <=? 122))%nat then Ascii.ascii_of_nat (n - 32) else c.

(** A pattern of literal characters between [^] and [$], flag [i]. *)
Fixpoint test (pattern f : string) : bool :=
  match pattern, f with
  | EmptyString, EmptyString => true
  | String p pattern, String c f =>
      Ascii.eqb (Canonicalize p) (Canonicalize c) && test pattern f
  | _, _ => false
  end.

(** [findVioletFile]: [files] is what [readdir(process.cwd())] gave, in
    its order; the result is the entry chosen (the source returns its
    absolute path) or the message of the error thrown. *)
Definition findVioletFile (files : list string) : string + string :=
  match find (test "violet.ts") files with
  | Some target => inl target
  | None => inr "No violet.ts or Violet.ts file found"
  end.

(** What [import(file)] gives: the promise rejects (the file cannot be
    read, compiled or evaluated), or the module is there and its default
    export is missing ([undefined] or [null], which [run?.(violet)]
    skips), is something that cannot be called, or is a function.  Of a
    function we keep the calls it makes on the handle it is given and
    whether it then returns, or throws or rejects. *)
Inductive Imported :=
| ImportRejects
| NoDefault
| NotCallable
| Default (prog : list Stmt) (returns : bool).

(** Why the promise of the entry point rejects. *)
Inductive Failure :=
| ReaddirFailed              (* process.cwd() or readdir() *)
| NotFound (msg : string)    (* the error thrown by findVioletFile *)
| ImportFailed               (* import() *)
| CallFailed                 (* run is not a function *)
| ExportFailed.              (* run(violet) throws or rejects *)

(** How the program ends up: nothing was done, the promise of the entry
    point rejected (nothing catches it), or the run of a task started.
    The world is the one reached at that point. *)
Inductive Exit :=
| Idle
| Uncaught (e : Failure) (w : World)
| Running (w : World).

(** The function called at the end of the file.  [argv] is
    [process.argv]; [readdir] is what [readdir(process.cwd())] gives,
    [None] when it fails; [import] is what importing a file gives. *)
Definition entry (v : Variant) (argv : list string)
    (readdir : option (list string)) (import : string -> Imported) : Exit :=
  match argv !! 2 with
  | None => Idle
  | Some task =>
      if nonempty task then
        match readdir with
        | None => Uncaught ReaddirFailed violet
        | Some files =>
            match findVioletFile files with
            | inr msg => Uncaught (NotFound msg) violet
            | inl file =>
                match import file with
                | ImportRejects => Uncaught ImportFailed violet
                | NoDefault => Running (main task violet)
                | NotCallable => Uncaught CallFailed violet
                | Default prog true => Running (main task (declare v prog))
                | Default prog false => Uncaught ExportFailed (declare v prog)
                end
            end
        end
      else Idle
  end.

(** The lower case of an ASCII letter, and of a string. *)
Definition lower (c : Ascii.ascii) : Ascii.ascii :=
  let n := Ascii.nat_of_ascii c in
  if ((65 <=? n) && (n <=? 90))%nat then Ascii.ascii_of_nat (n + 32) else c.

Fixpoint lowercase (s : string) : string :=
  match s with
  | EmptyString => EmptyString
  | String c s => String (lower c) (lowercase s)
  end.

(** ** Scenarios *)

Definition pk (a : nat) : Pick := mkPick a (mkShell None "" "").

(** [ctx => ({ n: (ctx.n ?? 0) + 1 })]. *)
Definition bump (ctx : nat) (h : list (gmap string Z))
    : list (gmap string Z) * Script :=
  (h ++ [{[ "n" := (1 + default 0 (h !! ctx ≫= (.!! "n")))%Z ]}],
   Ret (Object (length h))).

(** Task [X] counts its executions in its context; task [T] names it
    twice as a dependency. *)
Definition twice : list Stmt :=
  [SAddTask "X"; SRun 0 [bump]; SAddTask "T"; SDep 1 ["X"; "X"]].

(** The order in which Node runs [twice]: [_runTask("T")] calls both
    [_runTask("X")] inside [_deps.map], and each calls its function,
    before anything is awaited; then the two executions go on in turn. *)
Definition twice_sched : list Pick :=
  [pk 0; pk 1; pk 1; pk 2; pk 2; pk 1; pk 1; pk 2; pk 2; pk 0; pk 0].




(** [answer z]: waits for something, then returns a new object [{n: z}]. *)
Definition answer (z : Z) (ctx : nat) (h : list (gmap string Z))
    : list (gmap string Z) * Script :=
  (h, Await (fun h' => h' ++ [{[ "n" := z ]}])
            (fun h' => Ret (Object (length h')))).

Definition race : list Stmt :=
  [SAddTask "P"; SParallel 0 [answer 1; answer 2]].

Definition first_then_second : list Pick :=
  [pk 0; pk 0; pk 1; pk 1; pk 2; pk 2; pk 0; pk 0].

Definition second_then_first : list Pick :=
  [pk 0; pk 0; pk 2; pk 2; pk 1; pk 1; pk 0; pk 0].

(** [ctx => ({ flag: true })]. *)
Definition flag (ctx : nat) (h : list (gmap string Z))
    : list (gmap string Z) * Script :=
  (h ++ [{[ "flag" := 1%Z ]}], Ret (Object (length h))).

(** Task [A] logs a line; task [B] depends on it and sets a flag. *)
Definition chain : list Stmt :=
  [SAddTask "A"; SLog 0 ["x"]; SAddTask "B"; SDep 1 ["A"]; SRun 1 [flag]].

Definition chain_sched : list Pick :=
  [pk 0; pk 1; pk 1; pk 1; pk 1; pk 0; pk 0; pk 0; pk 0].

(** A command that exits with a non-zero status, then a line. *)
Definition failing : list Stmt :=
  [SAddTask "F"; SExec 0 ["false"]; SLog 0 ["after"]].

(** The [message] of the error [exec] reports for [false]: the command,
    then a line feed, then what it wrote to its error output (nothing). *)
Definition exit1_message : string :=
  "Command failed: false" +:+ String (Ascii.ascii_of_nat 10) "".

Definition exit1 : ShellResult := mkShell (Some exit1_message) "" "".

Definition failing_sched : list Pick :=
  [pk 0; pk 0; mkPick 0 exit1; pk 0; pk 0].



(** One line, then a command. *)
Definition hello : list Stmt :=
  [SAddTask "A"; SLog 0 ["x"]; SExec 0 ["echo"; "hi"]].

Definition hello_sched : list Pick :=
  [pk 0; pk 0; pk 0; pk 0; mkPick 0 (mkShell None "hi" ""); pk 0].

(** A command that succeeds and writes nothing. *)
Definition silent : list Stmt := [SAddTask "S"; SExec 0 ["true"]].

(** One line, then a function that counts. *)
Definition counted : list Stmt :=
  [SAddTask "a"; SLog 0 ["x"]; SRun 0 [bump]].

(** * Properties *)

(** On what a user function may return, the two tests agree. *)
Lemma truthy_defined ret : truthy ret = defined ret.
Proof. by destruct ret. Qed.

Lemma call_all_length fns ctx h : length (snd (call_all fns ctx h)) = length fns.
Proof.
  revert h. induction fns as [|fn fns IH]; intros h; simpl; [done|].
  destruct (fn ctx h) as [h1 s]. specialize (IH h1).
  destruct (call_all fns ctx h1) as [h2 ss]. simpl in *. by rewrite IH.
Qed.

Lemma write_all_eq a ls w :
  write_all a ls w =
  mkWorld (_tasks w) (_log_level w) (objects w) (heap w) (acts w)
    (lines_events a ls ++ trace w).
Proof.
  unfold write_all, lines_events. revert w.
  induction ls as [|l ls IH]; intros w; simpl.
  - by destruct w.
  - rewrite IH, reverse_cons. simpl. by rewrite <- app_assoc.
Qed.

Lemma assign_eq v a t ret w :
  assign v a t ret w =
  mkWorld (_tasks w) (_log_level w) (assign_objects t ret w) (heap w) (acts w)
    (assign_events a t ret w ++ trace w).
Proof.
  unfold assign, assign_events, assign_objects, replaces.
  destruct ret as [|r]; [by destruct w|].
  destruct v; simpl; destruct (objects w !! t); try done; by destruct w.
Qed.

Lemma completed_eq v a t w :
  completed v a t w =
  mkWorld (_tasks w) (_log_level w) (objects w) (heap w) (acts w)
    (completed_events v a t w ++ trace w).
Proof.
  unfold completed, completed_events, violet_log, _log, console, emit.
  destruct v; [destruct (_shouldLog w LvLog)|]; by destruct w.
Qed.

Lemma step_cases v p w :
  step v p w = w ∨
  ∃ ph ph' new es os h,
    acts w !! who p = Some ph ∧
    Move v (shell p) (who p) w ph ph' new es os h ∧
    step v p w = moved (who p) w ph' new es os h.
Proof.
  unfold step.
  destruct (acts w !! who p) as [ph|] eqn:Ea; [|by left].
  assert (Hlt : who p < length (acts w)) by (by eapply lookup_lt_Some).
  destruct ph as [name|t kids|t i|t i [|s|kids|cmd|]|t s| |].
  - unfold _runTask.
    destruct (_tasks w !! name) as [t|] eqn:Et.
    + destruct (objects w !! t) as [task|] eqn:Eo; [|by left].
      destruct (_deps task) as [|d ds] eqn:Ed.
      * right. do 6 eexists. split; [done|]. split; [by eapply MvEnter|].
        unfold moved. simpl. by rewrite app_nil_r.
      * right. do 6 eexists. split; [done|]. split.
        { eapply MvSpawn; eauto. by rewrite Ed. }
        unfold moved, emit, set_phase, spawn, set_acts. rewrite Ed. simpl. f_equal. 
        by rewrite insert_app_l.
    + right. do 6 eexists. split; [done|]. split; [by eapply MvUnknown|].
      unfold moved. simpl. by rewrite app_nil_r.
  - destruct (promise_all (acts w) kids) eqn:Ep; [by left| |].
    + right. do 6 eexists. split; [done|]. split; [by eapply MvDepsDone|].
      unfold moved. simpl. by rewrite app_nil_r.
    + right. do 6 eexists. split; [done|]. split; [by eapply MvDepsFail|].
      unfold moved. simpl. by rewrite app_nil_r.
  - unfold call_job.
    destruct (objects w !! t) as [task|] eqn:Eo; [|by left].
    destruct (_jobs task !! i) as [job|] eqn:Ej.
    + destruct job as [fn|fns|args|s args].
      * right. do 6 eexists. split; [done|]. split; [by eapply MvRun|].
        simpl. destruct (fn (_ctx task) (heap w)) as [h s].
        unfold moved. simpl. by rewrite app_nil_r.
      * right. do 6 eexists. split; [done|]. split; [by eapply MvParallel|].
        simpl. pose proof (call_all_length fns (_ctx task) (heap w)) as Hl.
        destruct (call_all fns (_ctx task) (heap w)) as [h ss].
        unfold moved, emit, set_phase, spawn, set_acts, set_heap. simpl in *.
        rewrite Hl. f_equal. by rewrite insert_app_l.
      * right. do 6 eexists. split; [done|]. split; [by eapply MvExec|].
        unfold moved. simpl. by rewrite app_nil_r.
      * right. do 6 eexists. split; [done|]. split; [by eapply MvConsole|].
        unfold moved. simpl. by rewrite app_nil_r.
    + right. do 6 eexists. split; [done|]. split; [by eapply MvDone|].
      rewrite completed_eq. unfold moved. simpl. by rewrite app_nil_r.
  - right. do 6 eexists. split; [done|]. split; [by eapply MvTick|].
    unfold moved. simpl. by rewrite app_nil_r.
  - destruct s as [ret| |upd k].
    + right. do 6 eexists. split; [done|]. split; [by eapply MvRet|].
      rewrite assign_eq. unfold moved. simpl. by rewrite app_nil_r.
    + right. do 6 eexists. split; [done|]. split; [by eapply MvThrow|].
      unfold moved. simpl. by rewrite app_nil_r.
    + right. do 6 eexists. split; [done|]. split; [by eapply MvAwait|].
      unfold moved. simpl. by rewrite app_nil_r.
  - destruct (promise_all (acts w) kids) eqn:Ep; [by left| |].
    + right. do 6 eexists. split; [done|]. split; [by eapply MvAllDone|].
      unfold moved. simpl. by rewrite app_nil_r.
    + right. do 6 eexists. split; [done|]. split; [by eapply MvAllFail|].
      unfold moved. simpl. by rewrite app_nil_r.
  - destruct (shell_callback v (name_of t w) (shell p)) as [ls [[|]|]] eqn:Es.
    + right. do 6 eexists. split; [done|]. split; [by eapply MvCmdOk|].
      rewrite write_all_eq. unfold moved. simpl. by rewrite app_nil_r.
    + right. do 6 eexists. split; [done|]. split; [by eapply MvCmdFail|].
      rewrite write_all_eq. unfold moved. simpl. by rewrite app_nil_r.
    + right. do 6 eexists. split; [done|]. split; [by eapply MvCmdHang|].
      rewrite write_all_eq. unfold moved. simpl. by rewrite app_nil_r.
  - by left.
  - destruct s as [ret| |upd k].
    + right. do 6 eexists. split; [done|]. split; [by eapply MvBranchRet|].
      rewrite assign_eq. unfold moved. simpl. by rewrite app_nil_r.
    + right. do 6 eexists. split; [done|]. split; [by eapply MvBranchThrow|].
      unfold moved. simpl. by rewrite app_nil_r.
    + right. do 6 eexists. split; [done|]. split; [by eapply MvBranchAwait|].
      unfold moved. simpl. by rewrite app_nil_r.
  - by left.
  - by left.
Qed.
Lemma lines_events_console a ls e :
  e ∈ lines_events a ls -> exists s args, e = EvConsole (Some a) s args.
Proof.
  unfold lines_events. rewrite elem_of_reverse, list_elem_of_fmap.
  intros (l&->&_). eauto.
Qed.

Lemma completed_events_console v a t w e :
  e ∈ completed_events v a t w -> exists s args, e = EvConsole (Some a) s args.
Proof.
  unfold completed_events.
  destruct v; [destruct (_shouldLog w LvLog)|]; intros He;
    try (by apply elem_of_nil in He);
    apply list_elem_of_singleton in He as ->; eauto.
Qed.

Lemma assign_events_assign a t ret w e :
  e ∈ assign_events a t ret w ->
  exists r0 task, e = EvAssign a t r0 /\ ret = Object r0 /\ objects w !! t = Some task.
Proof.
  unfold assign_events. destruct ret as [|r0]; [by intros ?%elem_of_nil|].
  destruct (objects w !! t) eqn:E; [|by intros ?%elem_of_nil].
  intros ->%list_elem_of_singleton. eauto.
Qed.

Ltac split_events :=
  repeat match goal with
    | H : _ ∈ _ :: _ |- _ => apply elem_of_cons in H as [?|H]; [simplify_eq|]
    | H : _ ∈ [] |- _ => by apply elem_of_nil in H
    | H : _ ∈ lines_events _ _ |- _ =>
        apply lines_events_console in H as (?&?&?); simplify_eq
    | H : _ ∈ completed_events _ _ _ _ |- _ =>
        apply completed_events_console in H as (?&?&?); simplify_eq
    | H : _ ∈ assign_events _ _ _ _ |- _ =>
        apply assign_events_assign in H as (?&?&?&?&?); simplify_eq
    end.

Section MoveFacts.
Context {v : Variant} {r : ShellResult} {a : nat} {w : World}
  {ph ph' : Phase} {new : list Phase} {es : list Event} {os : list Task}
  {h : list (gmap string Z)}.
Hypothesis HM : Move v r a w ph ph' new es os h.

(** Every event of a reaction is of one of these kinds. *)
Lemma move_events e :
  e ∈ es ->
  (exists s args, e = EvConsole (Some a) s args) \/
  (exists t r0, e = EvAssign a t r0) \/
  (exists ok, e = EvSettle a ok /\ ph' = terminal ok) \/
  (exists t i, e = EvCall a t i /\ ph = Loop t i) \/
  (exists cmd, e = EvShell a cmd) \/
  (exists name, e = EvRunTask a name /\ ph = Called name) \/
  (exists t kids, e = EvEnter a t kids).
Proof.
  destruct HM; intros He; split_events;
    try (left; by eauto);
    try (right; left; by eauto);
    try (right; right; left; by exists true);
    try (right; right; left; by exists false);
    try (right; right; right; left; by eauto);
    try (right; right; right; right; left; by eauto);
    try (right; right; right; right; right; left; by eauto);
    try (right; right; right; right; right; right; by eauto).
Qed.

Lemma move_actor e : e ∈ es -> actor e = Some a.
Proof.
  intros He. destruct (move_events e He)
    as [(?&?&->)|[(?&?&->)|[(?&->&_)|[(?&?&->&_)|[(?&->)|[(?&->&_)|(?&?&->)]]]]]];
    done.
Qed.

Lemma move_live : ph <> Resolved /\ ph <> Rejected.
Proof. by destruct HM. Qed.

Lemma move_new p :
  p ∈ new -> (exists d, p = Called d) \/ (exists t s, p = Branch t s).
Proof.
  destruct HM; try (by intros ?%elem_of_nil);
    rewrite list_elem_of_fmap; intros (?&->&_); eauto.
Qed.

(** A reaction settles its promise exactly when it leaves it in a final
    phase, and that is the last thing it does. *)
Lemma move_settle ok : EvSettle a ok ∈ es <-> ph' = terminal ok.
Proof.
  split.
  - intros He. destruct (move_events _ He)
      as [(?&?&?)|[(?&?&?)|[(?&?&?)|[(?&?&?&_)|[(?&?)|[(?&?&_)|(?&?&?)]]]]]];
      try done. by simplify_eq.
  - destruct HM; destruct ok; try done; intros _; set_solver.
Qed.

Lemma move_settle_last :
  exists es0, (es = es0 \/ exists ok, es = EvSettle a ok :: es0) /\
    forall b ok, EvSettle b ok ∉ es0.
Proof.
  destruct HM;
    try (eexists; split; [by left|]; intros b ok He; by split_events);
    eexists; (split; [right; by eexists|]); intros b ok He; by split_events.
Qed.

Lemma move_call l1 b t i l2 :
  es = l1 ++ EvCall b t i :: l2 -> l2 = [] /\ b = a /\ ph = Loop t i.
Proof.
  intros E.
  assert (He : EvCall b t i ∈ es) by (rewrite E; set_solver).
  destruct HM; split_events; try done.
  all: destruct l1 as [|? [|? [|? ?]]]; simpl in E; by simplify_eq.
Qed.

Lemma move_enter b t kids :
  EvEnter b t kids ∈ es ->
  b = a /\ (ph' = Deps t kids \/ kids = []) /\
  exists name task,
    ph = Called name /\ _tasks w !! name = Some t /\
    objects w !! t = Some task /\
    kids = seq (length (acts w)) (length (_deps task)) /\
    new = Called <$> _deps task.
Proof.
  destruct HM; intros He; split_events; try done; simplify_eq.
  - split; [done|]. split; [by right|]. do 2 eexists.
    repeat split; eauto. all: by rewrite H1.
  - split; [done|]. split; [by left|]. do 2 eexists. repeat split; eauto.
Qed.

Lemma move_enter_past l1 b t kids l2 :
  es = l1 ++ EvEnter b t kids :: l2 ->
  exists name, ph = Called name /\ l2 = [EvRunTask a name].
Proof.
  intros E.
  assert (He : EvEnter b t kids ∈ es).
  { rewrite E, elem_of_app, elem_of_cons. tauto. }
  destruct HM; split_events; try done.
  all: destruct l1 as [|? [|? [|? ?]]]; simpl in E; simplify_eq.
  all: by eexists.
Qed.

Lemma move_not_called d : ph' <> Called d.
Proof. by destruct HM. Qed.

Lemma move_runtask_inv b name : EvRunTask b name ∈ es -> ph = Called name.
Proof. destruct HM; intros He; split_events; done. Qed.

Lemma move_runtask name : ph = Called name -> EvRunTask a name ∈ es.
Proof. destruct HM; intros ?; simplify_eq; set_solver. Qed.

Lemma move_task t :
  task_of_phase ph' = Some t ->
  task_of_phase ph = Some t \/ exists kids, EvEnter a t kids ∈ es.
Proof.
  destruct HM; simpl; intros ?; simplify_eq; try (by left);
    right; eexists; by left.
Qed.

Lemma promise_all_resolved ps kids k :
  promise_all ps kids = AllResolved -> k ∈ kids -> ps !! k = Some Resolved.
Proof.
  unfold promise_all. destruct (existsb _ _); [done|].
  destruct (forallb _ _) eqn:E; [|done]. intros _ Hk.
  rewrite forallb_forall in E. apply list_elem_of_In, E in Hk.
  unfold is_resolved in Hk. by destruct (ps !! k) as [[]|].
Qed.

Lemma promise_all_rejected ps kids :
  promise_all ps kids = AllRejected <->
  exists k, k ∈ kids /\ ps !! k = Some Rejected.
Proof.
  unfold promise_all. destruct (existsb _ _) eqn:E.
  - split; [intros _|done]. apply existsb_exists in E as (k&Hk&E).
    exists k. split; [by apply list_elem_of_In|].
    unfold is_rejected in E. by destruct (ps !! k) as [[]|].
  - split; [by destruct (forallb _ _)|]. intros (k&Hk&E').
    assert (existsb (is_rejected ps) kids = true); [|congruence].
    apply existsb_exists. exists k. split; [by apply list_elem_of_In|].
    unfold is_rejected. by rewrite E'.
Qed.

Lemma move_deps t kids :
  ph = Deps t kids ->
  ph' = Rejected \/ (forall k, k ∈ kids -> acts w !! k = Some Resolved).
Proof.
  destruct HM; intros ?; simplify_eq; [by left|].
  right. intros k. by apply promise_all_resolved.
Qed.

Lemma with_ctx_same task : with_ctx task (_ctx task) = task.
Proof. by destruct task. Qed.

Lemma move_length : length os = length (objects w).
Proof.
  destruct HM; try done; unfold assign_objects;
    destruct ret; try done; destruct (objects w !! t); try done;
    by rewrite length_insert.
Qed.

Lemma move_objects t task :
  objects w !! t = Some task ->
  os !! t = Some (with_ctx task (default (_ctx task) (last_assigned t es))).
Proof.
  intros Ho.
  assert (Hc : forall t0, last_assigned t (completed_events v a t0 w) = None).
  { intros t0. unfold completed_events.
    by destruct v; [destruct (_shouldLog w LvLog)|]. }
  assert (Hl : forall ls, last_assigned t (lines_events a ls) = None).
  { intros ls. unfold lines_events. induction ls as [|l ls IH] using rev_ind;
      [done|]. by rewrite fmap_app, reverse_app. }
  destruct HM; simpl; rewrite ?Hc, ?Hl; simpl; rewrite ?with_ctx_same; try done.
  all: unfold assign_objects, assign_events; destruct ret as [|r0]; simpl;
    rewrite ?with_ctx_same; try done.
  all: destruct (objects w !! t0) as [task0|] eqn:E0; simpl;
    rewrite ?with_ctx_same; try done.
  all: case_decide; simplify_eq.
  all: try (by rewrite list_lookup_insert_eq by (by eapply lookup_lt_Some)).
  all: by rewrite list_lookup_insert_ne, ?with_ctx_same.
Qed.

End MoveFacts.
(** ** The invariant *)

Lemma ordered_app_intro (P : Event -> list Event -> Prop) es tr :
  ordered P tr ->
  (forall l1 e l2, es = l1 ++ e :: l2 -> P e (l2 ++ tr)) ->
  ordered P (es ++ tr).
Proof.
  intros Htr. induction es as [|e es IH]; intros Hes; simpl; [done|].
  split; [by apply (Hes []) |].
  apply IH. intros l1 e' l2 ->. by apply (Hes (e :: l1)).
Qed.

Lemma ordered_split (P : Event -> list Event -> Prop) tr :
  ordered P tr <-> forall l1 e l2, tr = l1 ++ e :: l2 -> P e l2.
Proof.
  split.
  - intros Ho l1. revert tr Ho.
    induction l1 as [|x l1 IH]; intros tr Ho e l2 ->; simpl in Ho.
    + tauto.
    + destruct Ho as [_ Ho]. by eapply IH.
  - intros H. rewrite <- (app_nil_r tr). apply ordered_app_intro; [done|].
    intros l1 e l2 ->. rewrite app_nil_r. by eapply H.
Qed.

Lemma last_assigned_app t es tr :
  last_assigned t (es ++ tr) =
  match last_assigned t es with
  | Some r => Some r
  | None => last_assigned t tr
  end.
Proof.
  induction es as [|e es IH]; simpl; [done|].
  destruct e; try done. by case_decide.
Qed.

Lemma moved_lookup a ph' new (ps : list Phase) b p :
  a < length ps ->
  (<[a := ph']> ps ++ new) !! b = Some p ->
  (b = a /\ p = ph') \/ (b <> a /\ ps !! b = Some p) \/
  (p ∈ new /\ length ps <= b).
Proof.
  intros Ha Hb. destruct (decide (b < length ps)) as [Hlt|Hge].
  - rewrite lookup_app_l in Hb by (by rewrite length_insert).
    destruct (decide (b = a)) as [->|Hne].
    + rewrite list_lookup_insert_eq in Hb by done. left. by simplify_eq.
    + rewrite list_lookup_insert_ne in Hb by done. right; left. done.
  - right; right. rewrite lookup_app_r in Hb by (rewrite length_insert; lia).
    split; [|lia]. by eapply list_elem_of_lookup_2.
Qed.

Lemma moved_lookup_ne a ph' new (ps : list Phase) b p :
  b <> a -> ps !! b = Some p -> (<[a := ph']> ps ++ new) !! b = Some p.
Proof.
  intros Hne Hb. rewrite lookup_app_l
    by (rewrite length_insert; by eapply lookup_lt_Some).
  by rewrite list_lookup_insert_ne.
Qed.

Lemma moved_lookup_eq a ph' new (ps : list Phase) :
  a < length ps -> (<[a := ph']> ps ++ new) !! a = Some ph'.
Proof.
  intros Ha. rewrite lookup_app_l by (by rewrite length_insert).
  by apply list_lookup_insert_eq.
Qed.

Lemma inv_origin w0 w t task :
  Inv w0 w -> objects w !! t = Some task ->
  exists task0, objects w0 !! t = Some task0 /\ _deps task = _deps task0 /\
    _jobs task = _jobs task0 /\ _name task = _name task0.
Proof.
  intros I Ho.
  assert (is_Some (objects w0 !! t)) as [task0 E0].
  { apply lookup_lt_is_Some. rewrite <- (i_length _ _ I).
    by eapply lookup_lt_Some. }
  exists task0. split; [done|].
  rewrite (i_objects _ _ I _ _ E0) in Ho. by simplify_eq.
Qed.

Lemma inv_moved v r w0 w a ph ph' new es os h :
  Inv w0 w -> acts w !! a = Some ph ->
  Move v r a w ph ph' new es os h ->
  Inv w0 (moved a w ph' new es os h).
Proof.
  intros I Ha HM.
  assert (Hlt : a < length (acts w)) by (by eapply lookup_lt_Some).
  destruct (move_live HM) as [Hl1 Hl2].
  assert (Hunsettled : forall ok, EvSettle a ok ∉ trace w).
  { intros ok He. apply (i_settled _ _ I) in He. rewrite Ha in He.
    destruct ok; by simplify_eq. }
  constructor; simpl.
  - apply I.
  - apply I.
  - rewrite (move_length HM). apply I.
  - intros t task0 E0.
    rewrite (move_objects HM _ _ (i_objects _ _ I _ _ E0)).
    rewrite last_assigned_app. simpl.
    by destruct (last_assigned t es).
  - intros e b He Hb. rewrite length_app, length_insert.
    apply elem_of_app in He as [He|He].
    + rewrite (move_actor HM _ He) in Hb. simplify_eq. lia.
    + pose proof (i_bound _ _ I _ _ He Hb). lia.
  - intros b ok. rewrite elem_of_app. split.
    + intros [He|He].
      * pose proof (move_actor HM _ He) as Hb. simpl in Hb. simplify_eq.
        apply (move_settle HM) in He. subst ph'. by apply moved_lookup_eq.
      * pose proof He as Hb. apply (i_settled _ _ I) in Hb.
        apply moved_lookup_ne; [|done]. intros ->. by eapply Hunsettled.
    + intros Hb.
      destruct (moved_lookup _ _ _ _ _ _ Hlt Hb)
        as [[-> Hp]|[[Hne Hb']|[Hn _]]].
      * left. by apply (move_settle HM).
      * right. by apply (i_settled _ _ I).
      * apply (move_new HM) in Hn as [(?&?)|(?&?&?)]; destruct ok; done.
  - intros b t kids. rewrite elem_of_app. intros [He|He].
    + apply (move_enter HM) in He as (->&[->| ->]&_).
      * left. by apply moved_lookup_eq.
      * right; right. by intros k ?%elem_of_nil.
    + destruct (i_enter _ _ I _ _ _ He) as [Hb|[Hb|Hb]].
      * destruct (decide (b = a)) as [->|Hne].
        -- rewrite Ha in Hb. simplify_eq.
           destruct (move_deps HM _ _ eq_refl) as [->|Hk].
           ++ right; left. by apply moved_lookup_eq.
           ++ right; right. intros k Hin. apply elem_of_app. right.
              apply (i_settled _ _ I). by apply Hk.
        -- left. by apply moved_lookup_ne.
      * right; left. apply moved_lookup_ne; [|done]. intros ->.
        rewrite Ha in Hb. by simplify_eq.
      * right; right. intros k Hin. apply elem_of_app. right. by apply Hb.
  - intros b p t Hb Ht.
    destruct (moved_lookup _ _ _ _ _ _ Hlt Hb)
      as [[-> ->]|[[Hne Hb']|[Hn _]]].
    + destruct (move_task HM _ Ht) as [Ht'|[kids He]].
      * destruct (i_entered _ _ I _ _ _ Ha Ht') as [kids He].
        exists kids. apply elem_of_app. by right.
      * exists kids. apply elem_of_app. by left.
    + destruct (i_entered _ _ I _ _ _ Hb' Ht) as [kids He].
      exists kids. apply elem_of_app. by right.
    + apply (move_new HM) in Hn as [(?&->)|(?&?&->)]; done.
  - intros b t kids. rewrite elem_of_app. intros [He|He].
    + apply (move_enter HM) in He
        as (->&_&name&task&->&Hn&Ho&->&->).
      destruct (inv_origin _ _ _ _ I Ho) as (task0&E0&Ed&_).
      exists name, task0. rewrite Ed in *. split.
      { apply elem_of_app. left. by apply (move_runtask HM). }
      split; [by rewrite <- (i_tasks _ _ I)|]. split; [done|].
      split; [by rewrite length_seq|].
      intros j k d Hk Hd. apply lookup_seq in Hk as [-> Hj]. left.
      rewrite lookup_app_r by (rewrite length_insert; lia).
      rewrite length_insert.
      replace (length (acts w) + j - length (acts w)) with j by lia.
      by rewrite list_lookup_fmap, Hd.
    + destruct (i_kids _ _ I _ _ _ He) as (name&task0&Hr&Hn&E0&Hlen&Hk).
      exists name, task0. split; [apply elem_of_app; by right|].
      repeat (split; [done|]). intros j k d Hj Hd.
      destruct (Hk j k d Hj Hd) as [Hc|Hc].
      * destruct (decide (k = a)) as [->|Hne].
        -- right. apply elem_of_app. left. rewrite Ha in Hc. simplify_eq.
           by apply (move_runtask HM).
        -- left. by apply moved_lookup_ne.
      * right. apply elem_of_app. by right.
  - intros b d e Hb He Hact.
    destruct (moved_lookup _ _ _ _ _ _ Hlt Hb)
      as [[-> Hp]|[[Hne Hb']|[Hn Hge]]].
    + by eapply (move_not_called HM).
    + apply elem_of_app in He as [He|He].
      * rewrite (move_actor HM _ He) in Hact. by simplify_eq.
      * by eapply (i_fresh _ _ I).
    + apply elem_of_app in He as [He|He].
      * rewrite (move_actor HM _ He) in Hact. simplify_eq. lia.
      * pose proof (i_bound _ _ I _ _ He Hact). lia.
  - intros b d d'. rewrite !elem_of_app. intros [H1|H1] [H2|H2].
    + apply (move_runtask_inv HM) in H1, H2. congruence.
    + pose proof (move_actor HM _ H1) as Hb. simpl in Hb. simplify_eq.
      apply (move_runtask_inv HM) in H1. rewrite H1 in Ha.
      by destruct (i_fresh _ _ I _ _ _ Ha H2).
    + pose proof (move_actor HM _ H2) as Hb. simpl in Hb. simplify_eq.
      apply (move_runtask_inv HM) in H2. rewrite H2 in Ha.
      by destruct (i_fresh _ _ I _ _ _ Ha H1).
    + by eapply (i_name _ _ I).
  - apply ordered_app_intro; [apply I|].
    intros l1 e l2 E b t i ->.
    apply (move_call HM) in E as (->&->&->). simpl. split.
    + by eapply (i_entered _ _ I).
    + intros t' kids k He Hin.
      destruct (i_enter _ _ I _ _ _ He) as [Hb|[Hb|Hb]];
        [rewrite Ha in Hb; by simplify_eq..|by apply Hb].
  - apply ordered_app_intro; [apply I|].
    intros l1 e l2 E b ok Hb He.
    assert (Hin : e ∈ es).
    { rewrite E, elem_of_app, elem_of_cons. tauto. }
    rewrite (move_actor HM _ Hin) in Hb. injection Hb as ->.
    apply elem_of_app in He as [He|He]; [|by eapply Hunsettled].
    destruct (move_settle_last HM) as (es0&[E0|[ok' E0]]&Hfree).
    + eapply (Hfree b ok). rewrite <- E0, E, elem_of_app, elem_of_cons. tauto.
    + rewrite E in E0. destruct l1 as [|x l1]; simpl in E0; simplify_eq.
      * by eapply Hfree.
      * eapply (Hfree b ok). rewrite elem_of_app, elem_of_cons. tauto.
  - apply ordered_app_intro; [apply I|].
    intros l1 e l2 E b t kids -> e' He' Hact.
    assert (Hin : EvEnter b t kids ∈ es).
    { rewrite E, elem_of_app, elem_of_cons. tauto. }
    pose proof (move_actor HM _ Hin) as Hb. simpl in Hb.
    injection Hb as ->.
    apply (move_enter_past HM) in E as (name&Hph&->).
    apply elem_of_app in He' as [He'|He'].
    + apply list_elem_of_singleton in He' as ->. by exists name.
    + rewrite Hph in Ha. by destruct (i_fresh _ _ I _ _ _ Ha He').
Qed.

Lemma inv_step v w0 w p : Inv w0 w -> Inv w0 (step v p w).
Proof.
  intros I. destruct (step_cases v p w)
    as [->|(ph&ph'&new&es&os&h&Ha&HM&->)]; [done|].
  by eapply inv_moved.
Qed.

Lemma inv_run v w0 w sched : Inv w0 w -> Inv w0 (run_sched v sched w).
Proof.
  revert w. induction sched as [|p sched IH]; intros w I; simpl; [done|].
  apply IH. by apply inv_step.
Qed.

Lemma quiet_ordered (P : Event -> list Event -> Prop) tr :
  (forall e past, (exists s args, e = EvConsole None s args) -> P e past) ->
  (forall e, e ∈ tr -> exists s args, e = EvConsole None s args) ->
  ordered P tr.
Proof.
  intros HP. induction tr as [|e tr IH]; intros Hq; simpl; [done|].
  split.
  - apply HP, Hq. by left.
  - apply IH. intros e' He'. apply Hq. by right.
Qed.

Lemma quiet_last_assigned t tr :
  (forall e, e ∈ tr -> exists s args, e = EvConsole None s args) ->
  last_assigned t tr = None.
Proof.
  induction tr as [|e tr IH]; intros Hq; simpl; [done|].
  destruct (Hq e) as (s&args&->); [by left|].
  apply IH. intros e' He'. apply Hq. by right.
Qed.

Lemma inv_main name w0 : quiet w0 -> Inv w0 (main name w0).
Proof.
  intros [Ha Hq]. unfold main, spawn, set_acts.
  constructor; simpl; try done.
  - intros t task0 E0. rewrite quiet_last_assigned by done.
    simpl. by rewrite with_ctx_same.
  - intros e b He Hb. destruct (Hq e He) as (s&args&->). done.
  - intros b ok. split.
    + intros He. by destruct (Hq _ He) as (s&args&?).
    + rewrite Ha. simpl. destruct b as [|b]; destruct ok; simpl; by intros ?.
  - intros b t kids He. by destruct (Hq _ He) as (s&args&?).
  - rewrite Ha. intros [|b] ph t Hb Ht; simpl in Hb; by simplify_eq.
  - intros b t kids He. by destruct (Hq _ He) as (s&args&?).
  - rewrite Ha. intros [|b] d e Hb He; simpl in Hb; [|done].
    by destruct (Hq e He) as (s&args&->).
  - intros b d d' He. by destruct (Hq _ He) as (s&args&?).
  - apply quiet_ordered; [|done].
    intros e past (s&args&->) a t i ?. done.
  - apply quiet_ordered; [|done].
    intros e past (s&args&->) a ok ?. done.
  - apply quiet_ordered; [|done].
    intros e past (s&args&->) a t kids ?. done.
Qed.

(** The worlds built by a declaration are quiet. *)
Lemma quiet_emit_console s args w :
  quiet w -> quiet (console None s args w).
Proof.
  intros [Ha Hq]. split; [done|]. simpl. intros e [->|He]%elem_of_cons; eauto.
Qed.

Lemma quiet_usage v t m w : quiet w -> quiet (usage v t m w).
Proof.
  intros Hq. unfold usage, violet_warn, _warn.
  destruct v; [destruct (_shouldLog w LvWarn)|]; try done;
    by apply quiet_emit_console.
Qed.

Lemma quiet_push_jobs t js w : quiet w -> quiet (push_jobs t js w).
Proof. unfold push_jobs. by destruct (objects w !! t). Qed.

Lemma quiet_push_deps t ds w : quiet w -> quiet (push_deps t ds w).
Proof. unfold push_deps. by destruct (objects w !! t). Qed.

Lemma quiet_declare1 v w s : quiet w -> quiet (declare1 v w s).
Proof.
  intros Hq. destruct s as [name|t [|]|t [|]|t [|]|t [|]|t args|t args|t args|l];
    simpl; unfold log, warn, error; try destruct v;
    auto using quiet_usage, quiet_push_jobs, quiet_push_deps.
Qed.

Lemma quiet_declare v prog : quiet (declare v prog).
Proof.
  unfold declare. induction prog as [|s prog IH] using rev_ind.
  - split; [done|]. by intros e ?%elem_of_nil.
  - rewrite foldl_app. simpl. by apply quiet_declare1.
Qed.

Lemma inv_reach v prog name sched :
  Inv (declare v prog) (run_sched v sched (main name (declare v prog))).
Proof. apply inv_run, inv_main, quiet_declare. Qed.

(** ** The calls of a run *)

Lemma enter_unique w0 w a t kids t' kids' :
  Inv w0 w -> EvEnter a t kids ∈ trace w -> EvEnter a t' kids' ∈ trace w ->
  t = t' /\ kids = kids'.
Proof.
  intros I H1 H2.
  pose proof (i_enter_first _ _ I) as Ho. rewrite ordered_split in Ho.
  apply list_elem_of_split in H1 as (l1&l2&E). rewrite E in H2.
  apply elem_of_app in H2 as [H2|H2].
  - apply list_elem_of_split in H2 as (l1a&l1b&->).
    rewrite <- app_assoc in E. simpl in E.
    destruct (Ho _ _ _ E a t' kids' eq_refl (EvEnter a t kids)) as [d ?];
      [|done|done].
    rewrite elem_of_app, elem_of_cons. tauto.
  - apply elem_of_cons in H2 as [H2|H2]; [by simplify_eq|].
    by destruct (Ho _ _ _ E a t kids eq_refl _ H2 eq_refl) as [d ?].
Qed.

Lemma move_calls v r a w ph ph' new es os h :
  Move v r a w ph ph' new es os h ->
  (exists t j w' task,
      ph = Loop t j /\ ph' = Waiting t j w' /\
      objects w !! t = Some task /\ is_Some (_jobs task !! j) /\
      forall b t' j', EvCall b t' j' ∈ es <-> b = a /\ t' = t /\ j' = j) \/
  ((forall b t j, EvCall b t j ∉ es) /\
   (called ph' = called ph \/ called ph' = None \/
    (called ph = Some None /\ exists t, called ph' = Some (Some (t, 0))) \/
    (exists t i w', ph = Waiting t i w' /\ ph' = Loop t (S i)))).
Proof.
  intros HM.
  destruct HM;
    try (right; split; [intros b0 t0 j0 He; by split_events|]; simpl;
         eauto 10; fail).
  all: left; do 4 eexists; (split; [done|]); (split; [done|]);
    (split; [done|]); (split; [by eexists|]);
    intros b0 t0 j0; split;
    [intros He; split_events; by simplify_eq
    |intros (->&->&->); rewrite !elem_of_cons; tauto].
Qed.

Lemma inv2_moved v r w0 w a ph ph' new es os h :
  Inv w0 w -> Inv2 w0 w -> acts w !! a = Some ph ->
  Move v r a w ph ph' new es os h ->
  Inv2 w0 (moved a w ph' new es os h).
Proof.
  intros I J Ha HM.
  assert (Hlt : a < length (acts w)) by (by eapply lookup_lt_Some).
  assert (Hcall : forall b t j, EvCall b t j ∈ es ->
            b = a /\ ph = Loop t j /\ (exists w', ph' = Waiting t j w') /\
            exists task0, objects w0 !! t = Some task0 /\
                          j < length (_jobs task0)).
  { intros b t j He.
    destruct (move_calls _ _ _ _ _ _ _ _ _ _ HM)
      as [(t0&j0&w'&task&->&->&Ho&Hj&Hes)|[Hno _]];
      [|by destruct (Hno b t j)].
    apply Hes in He as (->&->&->).
    split; [done|]. split; [done|]. split; [by eexists|].
    destruct (inv_origin _ _ _ _ I Ho) as (task0&E0&_&Ej&_).
    exists task0. split; [done|]. rewrite <- Ej.
    destruct Hj as [job Hj]. by eapply lookup_lt_Some. }
  assert (Hother : forall b t j, b <> a ->
            (EvCall b t j ∈ es ++ trace w <-> EvCall b t j ∈ trace w)).
  { intros b t j Hne. rewrite elem_of_app. split; [|tauto].
    intros [He|He]; [|done]. by destruct (Hcall _ _ _ He) as (->&_). }
  constructor; simpl.
  - (* j_calls *)
    intros b p Hb.
    destruct (moved_lookup _ _ _ _ _ _ Hlt Hb)
      as [[-> ->]|[[Hne Hb']|[Hn Hge]]].
    + pose proof (j_calls _ _ J _ _ Ha) as Hc.
      destruct (move_calls _ _ _ _ _ _ _ _ _ _ HM)
        as [(t&j&w'&task&->&->&_&_&Hes)|[Hno' Hcases]].
      * simpl in *. intros t' j'. rewrite elem_of_app, Hc, Hes. split.
        -- intros [(_&->&->)|[-> ?]]; (split; [done|lia]).
        -- intros [-> Hj']. destruct (decide (j' = j)) as [->|?];
             [by left|right; split; [done|lia]].
      * assert (Hsame : forall t j,
                  EvCall a t j ∈ es ++ trace w <-> EvCall a t j ∈ trace w).
        { intros t j. rewrite elem_of_app. split; [|tauto].
          intros [He|He]; [by destruct (Hno' a t j)|done]. }
        destruct Hcases as [E|[E|[[E (t&E')]|(t&i&w'&->&->)]]].
        -- rewrite E. destruct (called ph) as [[[t n]|]|]; [| |done];
             intros; rewrite Hsame; apply Hc.
        -- by rewrite E.
        -- rewrite E'. rewrite E in Hc. intros t' j. rewrite Hsame.
           split; [intros ?; by destruct (Hc t' j)|intros [_ ?]; lia].
        -- simpl in *. intros t' j. by rewrite Hsame.
    + pose proof (j_calls _ _ J _ _ Hb') as Hc.
      destruct (called p) as [[[t n]|]|]; [| |done];
        intros; rewrite Hother by done; apply Hc.
    + assert (Hnone : forall t j, EvCall b t j ∉ es ++ trace w).
      { intros t j. rewrite elem_of_app. intros [He|He].
        - destruct (Hcall _ _ _ He) as (->&_). lia.
        - pose proof (i_bound _ _ I _ _ He eq_refl). lia. }
      by apply (move_new HM) in Hn as [(?&->)|(?&?&->)].
  - (* j_bound *)
    intros b t j [He|He]%elem_of_app.
    + by destruct (Hcall _ _ _ He) as (_&_&_&?).
    + by eapply (j_bound _ _ J).
  - (* j_silent *)
    intros b t s e Hb He Hact.
    destruct (moved_lookup _ _ _ _ _ _ Hlt Hb)
      as [[-> Hp]|[[Hne Hb']|[Hn Hge]]].
    + apply elem_of_app in He as [He|He].
      * inversion HM; subst; try done. by apply elem_of_nil in He.
      * inversion HM; subst; try done. by eapply (j_silent _ _ J).
    + apply elem_of_app in He as [He|He].
      * rewrite (move_actor HM _ He) in Hact. by simplify_eq.
      * by eapply (j_silent _ _ J).
    + apply elem_of_app in He as [He|He].
      * rewrite (move_actor HM _ He) in Hact. simplify_eq. lia.
      * pose proof (i_bound _ _ I _ _ He Hact). lia.
  - (* j_done *)
    intros b t kids task0 j Hb He E0 Hj.
    assert (Hold : forall e, e ∈ es ++ trace w -> actor e = Some b ->
              b <> a -> e ∈ trace w).
    { intros e [Hin|Hin]%elem_of_app Hact Hne; [|done].
      rewrite (move_actor HM _ Hin) in Hact. by simplify_eq. }
    destruct (moved_lookup _ _ _ _ _ _ Hlt Hb)
      as [[-> Hp]|[[Hne Hb']|[Hn Hge]]].
    + apply elem_of_app. right.
      assert (He' : EvEnter a t kids ∈ trace w).
      { apply elem_of_app in He as [He|He]; [|done]. exfalso.
        pose proof He as He0.
        apply (move_enter HM) in He as (_&[E|E]&name&task&Hph&_).
        - rewrite E in Hp. done.
        - subst ph. inversion HM; subst; try done. by split_events. }
      inversion HM; subst; try done.
      * by destruct (i_fresh _ _ I _ _ _ Ha He').
      * destruct (i_entered _ _ I _ _ t0 Ha eq_refl) as [kids' He0].
        destruct (enter_unique _ _ _ _ _ _ _ I He' He0) as [-> _].
        apply (j_calls _ _ J _ _ Ha). split; [done|].
        match goal with
        | Ho : objects w !! _ = Some ?tk, Hn : _jobs ?tk !! _ = None |- _ =>
            destruct (inv_origin _ _ _ _ I Ho) as (task0'&E0'&_&Ej&_);
            rewrite E0 in E0'; simplify_eq;
            apply lookup_ge_None in Hn; rewrite Ej in Hn; lia
        end.
      * by destruct (j_silent _ _ J _ _ _ _ Ha He').
    + apply elem_of_app. right. eapply (j_done _ _ J); eauto.
    + by apply (move_new HM) in Hn as [(?&?)|(?&?&?)].
  - (* j_run *)
    intros b d [He|He]%elem_of_app.
    + pose proof (move_actor HM _ He) as Hact. simpl in Hact.
      injection Hact as ->.
      pose proof (move_runtask_inv HM _ _ He) as Hph. subst ph.
      rewrite <- (i_tasks _ _ I).
      inversion HM; subst;
        match goal with Ht : _tasks w !! _ = _ |- _ => rewrite Ht end.
      * split; [apply elem_of_app; left; by left|].
        intros t kids [Hin|Hin]%elem_of_app.
        -- by split_events.
        -- by destruct (i_fresh _ _ I _ _ _ Ha Hin).
      * eexists. apply elem_of_app. left. by left.
      * eexists. apply elem_of_app. left. by left.
    + pose proof (j_run _ _ J _ _ He) as Hr.
      destruct (_tasks w0 !! d) as [t|].
      * destruct Hr as [kids Hk]. exists kids. apply elem_of_app. by right.
      * destruct Hr as [Hs Hno]. split; [apply elem_of_app; by right|].
        intros t kids [Hin|Hin]%elem_of_app; [|by eapply Hno].
        apply (move_enter HM) in Hin as (->&_&name&task&Hph&_).
        rewrite Hph in Ha. by destruct (i_fresh _ _ I _ _ _ Ha He).
  - (* j_order *)
    apply ordered_app_intro; [apply J|].
    intros l1 e l2 E b t j -> t' j'.
    apply (move_call HM) in E as (->&->&->). simpl.
    apply (j_calls _ _ J _ _ Ha).
Qed.

Lemma inv2_main name w0 : quiet w0 -> Inv2 w0 (main name w0).
Proof.
  intros [Ha Hq]. unfold main, spawn, set_acts.
  assert (Hnone : forall e, e ∈ trace w0 -> actor e = None).
  { intros e He. by destruct (Hq e He) as (s&args&->). }
  constructor; simpl.
  - rewrite Ha. intros [|b] ph Hb; simpl in Hb; [|done]. simplify_eq.
    simpl. intros t j He. by apply Hnone in He.
  - intros a t j He. by apply Hnone in He.
  - intros a t s e _ He Hact. apply Hnone in He. congruence.
  - intros a t kids task0 j _ He. by apply Hnone in He.
  - intros a d He. by apply Hnone in He.
  - apply quiet_ordered; [|done].
    intros e past (s&args&->) a t j ?. done.
Qed.

Lemma inv2_run v w0 w sched :
  Inv w0 w -> Inv2 w0 w -> Inv2 w0 (run_sched v sched w).
Proof.
  revert w. induction sched as [|p sched IH]; intros w I J; simpl; [done|].
  apply IH; [by apply inv_step|].
  destruct (step_cases v p w)
    as [->|(ph&ph'&new&es&os&h&Ha&HM&->)]; [done|].
  by eapply inv2_moved.
Qed.

Lemma inv2_reach v prog name sched :
  Inv2 (declare v prog) (run_sched v sched (main name (declare v prog))).
Proof.
  apply inv2_run; [apply inv_main|apply inv2_main]; apply quiet_declare.
Qed.

(** ** Dependencies *)

Lemma promise_all_all ps kids :
  (forall k, k ∈ kids -> ps !! k = Some Resolved) ->
  promise_all ps kids = AllResolved.
Proof.
  intros H. unfold promise_all.
  destruct (existsb _ _) eqn:E.
  - apply existsb_exists in E as (k&Hk&E). apply list_elem_of_In, H in Hk.
    unfold is_rejected in E. by rewrite Hk in E.
  - assert (forallb (is_resolved ps) kids = true) as ->; [|done].
    apply forallb_forall. intros k Hk%list_elem_of_In%H.
    unfold is_resolved. by rewrite Hk.
Qed.

Lemma step_spawn v a r w d t task :
  acts w !! a = Some (Called d) -> _tasks w !! d = Some t ->
  objects w !! t = Some task -> _deps task <> [] ->
  step v (mkPick a r) w =
  moved a w (Deps t (seq (length (acts w)) (length (_deps task))))
    (Called <$> _deps task)
    [EvEnter a t (seq (length (acts w)) (length (_deps task)));
     EvRunTask a d] (objects w) (heap w).
Proof.
  intros Ha Ht Ho Hd. unfold step, _runTask. simpl. rewrite Ha, Ht, Ho.
  destruct (_deps task) as [|d0 ds] eqn:E; [done|].
  unfold moved, emit, set_phase, spawn, set_acts. simpl. f_equal.
  rewrite insert_app_l; [done|]. by eapply lookup_lt_Some.
Qed.

Lemma step_join v a r w t kids :
  acts w !! a = Some (Deps t kids) ->
  (forall k, k ∈ kids -> acts w !! k = Some Resolved) ->
  step v (mkPick a r) w = set_phase a (Loop t 0) w.
Proof.
  intros Ha Hk. unfold step. simpl. rewrite Ha.
  by rewrite promise_all_all.
Qed.

Lemma step_other v p w b ph :
  acts w !! b = Some ph -> who p <> b -> acts (step v p w) !! b = Some ph.
Proof.
  intros Hb Hne. destruct (step_cases v p w)
    as [->|(ph0&ph'&new&es&os&h&Ha&HM&->)]; [done|].
  simpl. by apply moved_lookup_ne.
Qed.

Lemma step_wait v p w a t kids ph' :
  acts w !! a = Some (Deps t kids) ->
  acts (step v p w) !! a = Some ph' -> ph' <> Deps t kids ->
  who p = a /\
  (ph' = Rejected \/
   ph' = Loop t 0 /\ forall k, k ∈ kids -> acts w !! k = Some Resolved).
Proof.
  intros Ha Ha' Hne.
  destruct (decide (who p = a)) as [E|E].
  - split; [done|]. revert Ha'. unfold step. rewrite E, Ha.
    destruct (promise_all (acts w) kids) eqn:Ep.
    + rewrite Ha. intros ?; by simplify_eq.
    + unfold set_phase. simpl. rewrite list_lookup_insert_eq
        by (by eapply lookup_lt_Some).
      intros ?; simplify_eq. right. split; [done|].
      intros k. by apply promise_all_resolved.
    + unfold settle, set_phase. simpl. rewrite list_lookup_insert_eq
        by (by eapply lookup_lt_Some).
      intros ?; simplify_eq. by left.
  - rewrite (step_other _ _ _ _ _ Ha E) in Ha'. by simplify_eq.
Qed.

(** C1.  Running a task with dependencies first starts every one of them
    at once (each started promise is itself a pending [_runTask], handled
    by the same rule), waits on [Promise.all] of them, and calls none of
    the task's own jobs before every dependency has resolved. *)
Theorem C1_dependencies_complete_first v prog name sched :
  let w0 := declare v prog in
  let w := run_sched v sched (main name w0) in
  (* one reaction starts all the dependencies *)
  (forall w' a r d t task,
      acts w' !! a = Some (Called d) -> _tasks w' !! d = Some t ->
      objects w' !! t = Some task -> _deps task <> [] ->
      step v (mkPick a r) w' =
      moved a w' (Deps t (seq (length (acts w')) (length (_deps task))))
        (Called <$> _deps task)
        [EvEnter a t (seq (length (acts w')) (length (_deps task)));
         EvRunTask a d] (objects w') (heap w')) /\
  (* the task stays there until all have settled; it goes on to its jobs
     only when all of them have resolved, and does so then *)
  (forall w' p a t kids ph',
      acts w' !! a = Some (Deps t kids) ->
      acts (step v p w') !! a = Some ph' -> ph' <> Deps t kids ->
      who p = a /\
      (ph' = Rejected \/
       ph' = Loop t 0 /\ forall k, k ∈ kids -> acts w' !! k = Some Resolved)) /\
  (forall w' a r t kids,
      acts w' !! a = Some (Deps t kids) ->
      (forall k, k ∈ kids -> acts w' !! k = Some Resolved) ->
      step v (mkPick a r) w' = set_phase a (Loop t 0) w') /\
  (* in every run: a job is called after its task was entered and after
     every dependency started there has resolved *)
  (forall l1 a t i l2,
      trace w = l1 ++ EvCall a t i :: l2 ->
      (exists kids, EvEnter a t kids ∈ l2) /\
      forall t' kids k,
        EvEnter a t' kids ∈ l2 -> k ∈ kids -> EvSettle k true ∈ l2) /\
  (* the promises started on entering are those of the declared
     dependencies, one for each, in order *)
  (forall a t kids,
      EvEnter a t kids ∈ trace w ->
      exists d task0,
        EvRunTask a d ∈ trace w /\ _tasks w0 !! d = Some t /\
        objects w0 !! t = Some task0 /\
        length kids = length (_deps task0) /\
        forall j k dn, kids !! j = Some k -> _deps task0 !! j = Some dn ->
          acts w !! k = Some (Called dn) \/ EvRunTask k dn ∈ trace w).
Proof.
  intros w0 w. pose proof (inv_reach v prog name sched) as I.
  fold w0 in I. fold w in I.
  split; [intros; by apply step_spawn|].
  split; [intros; by eapply step_wait|].
  split; [intros; by eapply step_join|].
  split.
  - intros l1 a t i l2 E.
    pose proof (i_after_deps _ _ I) as Ho.
    rewrite ordered_split in Ho. by apply (Ho _ _ _ E a t i).
  - apply I.
Qed.

(** ** Failure *)

Lemma step_throw v a r w t i :
  acts w !! a = Some (Waiting t i (WFn Throw)) ->
  step v (mkPick a r) w = settle a false w.
Proof. intros Ha. unfold step. simpl. by rewrite Ha. Qed.

Lemma step_branch_throw v a r w t :
  acts w !! a = Some (Branch t Throw) ->
  step v (mkPick a r) w = settle a false w.
Proof. intros Ha. unfold step. simpl. by rewrite Ha. Qed.

Lemma step_all_fail v a r w t i kids k :
  acts w !! a = Some (Waiting t i (WAll kids)) ->
  k ∈ kids -> acts w !! k = Some Rejected ->
  step v (mkPick a r) w = settle a false w.
Proof.
  intros Ha Hk Hr. unfold step. simpl. rewrite Ha.
  assert (promise_all (acts w) kids = AllRejected) as ->; [|done].
  apply promise_all_rejected. eauto.
Qed.

Lemma step_deps_fail v a r w t kids k :
  acts w !! a = Some (Deps t kids) ->
  k ∈ kids -> acts w !! k = Some Rejected ->
  step v (mkPick a r) w = settle a false w.
Proof.
  intros Ha Hk Hr. unfold step. simpl. rewrite Ha.
  assert (promise_all (acts w) kids = AllRejected) as ->; [|done].
  apply promise_all_rejected. eauto.
Qed.

Lemma step_cmd_fail v a r w t i cmd :
  acts w !! a = Some (Waiting t i (WCmd cmd)) ->
  snd (shell_callback v (name_of t w) r) = Some false ->
  step v (mkPick a r) w =
  settle a false (write_all a (fst (shell_callback v (name_of t w) r)) w).
Proof.
  intros Ha Hs. unfold step. simpl. rewrite Ha.
  destruct (shell_callback v (name_of t w) r) as [ls cell].
  simpl in *. by subst cell.
Qed.

Lemma shell_error_fails v name r msg :
  sh_error r = Some msg -> snd (shell_callback v name r) = Some false.
Proof.
  intros E. unfold shell_callback, exeCommand, exe. rewrite E.
  destruct v; [done|].
  by destruct (nonempty (sh_stderr r)), (nonempty (sh_stdout r)).
Qed.

Lemma step_settled v p w a ok :
  acts w !! a = Some (terminal ok) ->
  acts (step v p w) !! a = Some (terminal ok).
Proof.
  intros Ha. destruct (decide (who p = a)) as [<-|Hne].
  - unfold step. rewrite Ha. by destruct ok.
  - by apply step_other.
Qed.

(** A promise that has settled stays as it is and does nothing more. *)
Lemma settled_stays v sched w a ok :
  acts w !! a = Some (terminal ok) ->
  acts (run_sched v sched w) !! a = Some (terminal ok).
Proof.
  revert w. induction sched as [|p sched IH]; intros w Ha; simpl; [done|].
  by apply IH, step_settled.
Qed.

Lemma settled_quiet v sched w a ok e :
  acts w !! a = Some (terminal ok) ->
  e ∈ trace (run_sched v sched w) -> actor e = Some a -> e ∈ trace w.
Proof.
  revert w. induction sched as [|p sched IH]; intros w Ha He Hact;
    simpl in He; [done|].
  apply IH in He; [|by apply step_settled|done].
  destruct (step_cases v p w)
    as [Es|(ph&ph'&new&es&os&h&Hp&HM&Es)]; rewrite Es in He; [done|].
  simpl in He. apply elem_of_app in He as [He|He]; [|done].
  rewrite (move_actor HM _ He) in Hact. injection Hact as Hact.
  rewrite Hact, Ha in Hp. injection Hp as <-.
  destruct (move_live HM). by destruct ok.
Qed.

Lemma settle_exclusive w0 w k :
  Inv w0 w -> EvSettle k true ∈ trace w -> EvSettle k false ∈ trace w -> False.
Proof.
  intros I H1 H2.
  apply (i_settled _ _ I) in H1. apply (i_settled _ _ I) in H2.
  rewrite H1 in H2. done.
Qed.

(** A task one of whose dependencies has rejected calls none of its jobs
    and never resolves. *)
Lemma failed_dependency w0 w a t kids k :
  Inv w0 w -> EvEnter a t kids ∈ trace w -> k ∈ kids ->
  EvSettle k false ∈ trace w ->
  (forall t' i, EvCall a t' i ∉ trace w) /\
  (acts w !! a = Some (Deps t kids) \/ acts w !! a = Some Rejected).
Proof.
  intros I He Hk Hf. split.
  - intros t' i Hc.
    apply list_elem_of_split in Hc as (l1&l2&E).
    pose proof (i_after_deps _ _ I) as Ho. rewrite ordered_split in Ho.
    destruct (Ho _ _ _ E a t' i eq_refl) as [_ Hs].
    assert (Hin : EvEnter a t kids ∈ l2).
    { rewrite E in He. apply elem_of_app in He as [He|He].
      - apply list_elem_of_split in He as (l1a&l1b&->).
        rewrite <- app_assoc in E. simpl in E.
        pose proof (i_enter_first _ _ I) as Hf1.
        rewrite ordered_split in Hf1.
        destruct (Hf1 _ _ _ E a t kids eq_refl (EvCall a t' i)) as [d ?];
          [|done|done].
        rewrite elem_of_app, elem_of_cons. tauto.
      - by apply elem_of_cons in He as [?|He]. }
    eapply (settle_exclusive _ _ k I); [|done].
    rewrite E, elem_of_app, elem_of_cons. right; right. by eapply Hs.
  - destruct (i_enter _ _ I _ _ _ He) as [?|[?|Hs]]; [by left|by right|].
    destruct (settle_exclusive _ _ k I); [by apply Hs|done].
Qed.

Lemma settle_rejects a w :
  a < length (acts w) -> rejects a [] w (settle a false w).
Proof.
  intros Hlt. unfold rejects, settle, set_phase, set_acts, emit. simpl.
  split; [by apply list_lookup_insert_eq|]. split; [done|].
  split; [intros b Hne; by apply list_lookup_insert_ne|].
  by rewrite length_insert.
Qed.

Lemma settle_lines_rejects a ls w :
  a < length (acts w) ->
  rejects a (lines_events a ls) w (settle a false (write_all a ls w)).
Proof.
  intros Hlt. rewrite write_all_eq.
  unfold rejects, settle, set_phase, set_acts, emit. simpl.
  split; [by apply list_lookup_insert_eq|]. split; [done|].
  split; [intros b Hne; by apply list_lookup_insert_ne|].
  by rewrite length_insert.
Qed.

(** C3.  When a [run], [parallel] or [exec] action of a task fails, the
    promise of that task's run rejects in the same reaction: it is
    rejected afterwards and nothing else has changed.  From then on,
    whatever is scheduled, it stays rejected, never resolves, calls no
    job and writes nothing (in particular not the completion line);
    whoever awaits it (a task that named it as a dependency) rejects in
    turn at its next reaction, without having called any of its own
    jobs.  No job is ever called a second time. *)
Theorem C3_failure_propagates v prog name sched :
  let w := run_sched v sched (main name (declare v prog)) in
  (* the failing action rejects the run *)
  (forall w' a r t i,
      acts w' !! a = Some (Waiting t i (WFn Throw)) ->
      step v (mkPick a r) w' = settle a false w' /\
      rejects a [] w' (step v (mkPick a r) w')) /\
  (forall w' a r t,
      acts w' !! a = Some (Branch t Throw) ->
      step v (mkPick a r) w' = settle a false w' /\
      rejects a [] w' (step v (mkPick a r) w')) /\
  (forall w' a r t i kids k,
      acts w' !! a = Some (Waiting t i (WAll kids)) ->
      k ∈ kids -> acts w' !! k = Some Rejected ->
      step v (mkPick a r) w' = settle a false w' /\
      rejects a [] w' (step v (mkPick a r) w')) /\
  (forall w' a r t i cmd,
      acts w' !! a = Some (Waiting t i (WCmd cmd)) ->
      snd (shell_callback v (name_of t w') r) = Some false ->
      step v (mkPick a r) w' =
      settle a false
        (write_all a (fst (shell_callback v (name_of t w') r)) w') /\
      rejects a (lines_events a (fst (shell_callback v (name_of t w') r)))
        w' (step v (mkPick a r) w')) /\
  (forall nm r msg,
      sh_error r = Some msg -> snd (shell_callback v nm r) = Some false) /\
  (* nothing of that run happens afterwards *)
  (forall w' a sched',
      acts w' !! a = Some Rejected ->
      acts (run_sched v sched' w') !! a = Some Rejected /\
      forall e, e ∈ trace (run_sched v sched' w') -> actor e = Some a ->
                e ∈ trace w') /\
  (forall a, EvSettle a false ∈ trace w <-> acts w !! a = Some Rejected) /\
  (forall a, EvSettle a false ∈ trace w -> EvSettle a true ∉ trace w) /\
  (forall l1 e l2 a,
      trace w = l1 ++ e :: l2 -> EvSettle a false ∈ l2 -> actor e <> Some a) /\
  (forall w' p a,
      acts w' !! a = Some Rejected -> acts (step v p w') !! a = Some Rejected) /\
  (* the failure reaches the task that awaits it *)
  (forall w' a r t kids k,
      acts w' !! a = Some (Deps t kids) ->
      k ∈ kids -> acts w' !! k = Some Rejected ->
      step v (mkPick a r) w' = settle a false w' /\
      rejects a [] w' (step v (mkPick a r) w')) /\
  (forall a t kids k,
      EvEnter a t kids ∈ trace w -> k ∈ kids -> EvSettle k false ∈ trace w ->
      (forall t' i, EvCall a t' i ∉ trace w) /\
      (acts w !! a = Some (Deps t kids) \/ acts w !! a = Some Rejected)) /\
  (* no retry *)
  (forall l1 a t i l2,
      trace w = l1 ++ EvCall a t i :: l2 ->
      (EvCall a t i ∉ l1) /\ (EvCall a t i ∉ l2)).
Proof.
  intros w. pose proof (inv_reach v prog name sched) as I. fold w in I.
  pose proof (inv2_reach v prog name sched) as J. fold w in J.
  assert (Hlt : forall (w' : World) a ph,
            acts w' !! a = Some ph -> a < length (acts w')).
  { intros w' a ph Ha. by eapply lookup_lt_Some. }
  split.
  { intros w' a r t i Ha. rewrite (step_throw _ _ _ _ _ _ Ha).
    split; [done|]. eapply settle_rejects, Hlt, Ha. }
  split.
  { intros w' a r t Ha. rewrite (step_branch_throw _ _ _ _ _ Ha).
    split; [done|]. eapply settle_rejects, Hlt, Ha. }
  split.
  { intros w' a r t i kids k Ha Hk Hr.
    rewrite (step_all_fail _ _ _ _ _ _ _ _ Ha Hk Hr).
    split; [done|]. eapply settle_rejects, Hlt, Ha. }
  split.
  { intros w' a r t i cmd Ha Hs. rewrite (step_cmd_fail _ _ _ _ _ _ _ Ha Hs).
    split; [done|]. eapply settle_lines_rejects, Hlt, Ha. }
  split; [intros; by eapply shell_error_fails|].
  split.
  { intros w' a sched' Ha. split.
    - by apply (settled_stays v sched' w' a false).
    - intros e. by apply (settled_quiet v sched' w' a false). }
  split; [intros a; apply (i_settled _ _ I a false)|].
  split.
  { intros a Hf Ht. by eapply (settle_exclusive _ _ a I). }
  split.
  { intros l1 e l2 a E Hs Hact.
    pose proof (i_after_settle _ _ I) as Ho. rewrite ordered_split in Ho.
    by eapply (Ho _ _ _ E a false). }
  split; [intros; by apply (step_settled _ _ _ _ false)|].
  split.
  { intros w' a r t kids k Ha Hk Hr.
    rewrite (step_deps_fail _ _ _ _ _ _ _ Ha Hk Hr).
    split; [done|]. eapply settle_rejects, Hlt, Ha. }
  split; [intros; by eapply failed_dependency|].
  intros l1 a t i l2 E.
  pose proof (j_order _ _ J) as Ho. rewrite ordered_split in Ho. split.
  - intros Hin. apply list_elem_of_split in Hin as (l1a&l1b&->).
    rewrite <- app_assoc in E. simpl in E.
    destruct (Ho _ _ _ E a t i eq_refl t i) as [H _].
    destruct H as [_ ?]; [|lia].
    rewrite elem_of_app, elem_of_cons. tauto.
  - intros Hin. destruct (Ho _ _ _ E a t i eq_refl t i) as [H _].
    destruct (H Hin). lia.
Qed.

(** ** The context of a task *)

Lemma step_call_run v a r w t i task fn :
  acts w !! a = Some (Loop t i) -> objects w !! t = Some task ->
  _jobs task !! i = Some (JRun fn) ->
  step v (mkPick a r) w =
  moved a w (Waiting t i (WFn (snd (fn (_ctx task) (heap w))))) []
    [EvCall a t i] (objects w) (fst (fn (_ctx task) (heap w))).
Proof.
  intros Ha Ho Hj. unfold step, call_job. simpl. rewrite Ha, Ho, Hj.
  simpl. destruct (fn (_ctx task) (heap w)) as [h s].
  unfold moved, set_phase, set_heap, set_acts, emit. simpl.
  by rewrite app_nil_r.
Qed.

Lemma step_return v a r w t i ret :
  acts w !! a = Some (Waiting t i (WFn (Ret ret))) ->
  step v (mkPick a r) w =
  moved a w (Loop t (S i)) [] (assign_events a t ret w)
    (assign_objects t ret w) (heap w).
Proof.
  intros Ha. unfold step. simpl. rewrite Ha, assign_eq.
  unfold moved, set_phase, set_acts. simpl. by rewrite app_nil_r.
Qed.

(** C2.  A [run] function is called with the task's current [_ctx].  When
    it returns an object, [_ctx] is that very object afterwards and no
    object of the store has been touched (nothing is merged or copied);
    when it returns nothing, no task object changes at all: [_ctx] is the
    same reference as before.  The loop then goes on to the next job. *)
Theorem C2_sequential_replaces_or_keeps v w a r t i task :
  objects w !! t = Some task ->
  (forall fn,
      acts w !! a = Some (Loop t i) -> _jobs task !! i = Some (JRun fn) ->
      step v (mkPick a r) w =
      moved a w (Waiting t i (WFn (snd (fn (_ctx task) (heap w))))) []
        [EvCall a t i] (objects w) (fst (fn (_ctx task) (heap w)))) /\
  (forall c,
      acts w !! a = Some (Waiting t i (WFn (Ret (Object c)))) ->
      let w' := step v (mkPick a r) w in
      ctx_of t w' = Some c /\
      objects w' = <[t := with_ctx task c]> (objects w) /\
      heap w' = heap w /\
      acts w' !! a = Some (Loop t (S i))) /\
  (acts w !! a = Some (Waiting t i (WFn (Ret Undefined))) ->
   let w' := step v (mkPick a r) w in
   ctx_of t w' = Some (_ctx task) /\
   objects w' = objects w /\
   heap w' = heap w /\
   acts w' !! a = Some (Loop t (S i))).
Proof.
  intros Ho. split; [intros; by apply step_call_run|]. split.
  - intros c Ha w'. unfold w'. rewrite (step_return _ _ _ _ _ _ _ Ha).
    unfold ctx_of, assign_objects. simpl. rewrite Ho.
    rewrite list_lookup_insert_eq by (by eapply lookup_lt_Some).
    repeat split; try done.
    rewrite app_nil_r. apply list_lookup_insert_eq. by eapply lookup_lt_Some.
  - intros Ha w'. unfold w'. rewrite (step_return _ _ _ _ _ _ _ Ha).
    unfold ctx_of, assign_objects. simpl. rewrite Ho.
    repeat split; try done.
    rewrite app_nil_r. apply list_lookup_insert_eq. by eapply lookup_lt_Some.
Qed.

(** ** Unknown names *)

Lemma run_unknown v w0 name sched :
  acts w0 = [] -> _tasks w0 !! name = None ->
  let w := run_sched v sched (main name w0) in
  (w = main name w0 /\ 0 ∉ who <$> sched) \/
  (w = mkWorld (_tasks w0) (_log_level w0) (objects w0) (heap w0) [Resolved]
         (EvSettle 0 true :: EvRunTask 0 name :: trace w0) /\
   0 ∈ who <$> sched).
Proof.
  intros Ha Hn. simpl.
  induction sched as [|p sched IH] using rev_ind.
  - left. split; [done|]. by intros ?%elem_of_nil.
  - unfold run_sched in *. rewrite foldl_app, fmap_app. simpl.
    destruct IH as [[-> Hno]|[-> Hin]].
    + unfold step, main, spawn, set_acts. simpl. rewrite Ha. simpl.
      destruct (who p) as [|n] eqn:E; simpl.
      * right. unfold _runTask. simpl. rewrite Hn. split; [done|].
        rewrite elem_of_app, list_elem_of_singleton. by right.
      * left. split; [done|].
        rewrite elem_of_app, list_elem_of_singleton. intros [?|?]; done.
    + right. split; [|rewrite elem_of_app; by left].
      unfold step. simpl. by destruct (who p) as [|n].
Qed.

(** C8.  Running a name that is not registered resolves at the first
    reaction of its promise; at no point does it call a job, write a line,
    hand a command to the shell or change the registry, a task object or
    the store. *)
Theorem C8_unknown_name_is_noop v w0 name sched :
  acts w0 = [] -> _tasks w0 !! name = None ->
  let w := run_sched v sched (main name w0) in
  _tasks w = _tasks w0 /\ _log_level w = _log_level w0 /\
  objects w = objects w0 /\ heap w = heap w0 /\
  printed (trace w) = printed (trace w0) /\
  commands (trace w) = commands (trace w0) /\
  (forall a t i, EvCall a t i ∈ trace w -> EvCall a t i ∈ trace w0) /\
  (acts w = [Called name] \/ acts w = [Resolved]) /\
  (0 ∈ who <$> sched -> acts w = [Resolved]).
Proof.
  intros Ha Hn w.
  destruct (run_unknown v w0 name sched Ha Hn) as [[E Hno]|[E Hin]];
    fold w in E; rewrite E; simpl; rewrite ?Ha; simpl.
  - repeat split; try done; by left.
  - repeat split; try done; try (by right).
    intros a t i He.
    apply elem_of_cons in He as [?|He]; [done|].
    by apply elem_of_cons in He as [?|He].
Qed.

(** ** The registry *)

Lemma push_jobs_tasks t js w : _tasks (push_jobs t js w) = _tasks w.
Proof. unfold push_jobs. by destruct (objects w !! t). Qed.

Lemma push_deps_tasks t ds w : _tasks (push_deps t ds w) = _tasks w.
Proof. unfold push_deps. by destruct (objects w !! t). Qed.

Lemma usage_tasks v t m w : _tasks (usage v t m w) = _tasks w.
Proof.
  unfold usage, violet_warn, _warn.
  by destruct v; [destruct (_shouldLog w LvWarn)|].
Qed.

Lemma usage_objects v t m w : objects (usage v t m w) = objects w.
Proof.
  unfold usage, violet_warn, _warn.
  by destruct v; [destruct (_shouldLog w LvWarn)|].
Qed.



Lemma declare1_tasks v w s :
  _tasks (declare1 v w s) =
  match s with
  | SAddTask name => <[name := length (objects w)]> (_tasks w)
  | _ => _tasks w
  end.
Proof.
  destruct s as [name|t [|]|t [|]|t [|]|t [|]|t args|t args|t args|l]; simpl;
    unfold log, warn, error; try destruct v;
    rewrite ?usage_tasks, ?push_jobs_tasks, ?push_deps_tasks; done.
Qed.


Lemma declare1_name v w s t task :
  objects w !! t = Some task ->
  exists task', objects (declare1 v w s) !! t = Some task' /\
    _name task' = _name task.
Proof.
  intros Ho.
  assert (Hj : forall t' js, exists task',
             objects (push_jobs t' js w) !! t = Some task' /\
             _name task' = _name task).
  { intros t' js. unfold push_jobs.
    destruct (objects w !! t') as [tk|] eqn:E; [|by eauto]. simpl.
    destruct (decide (t = t')) as [->|Hne].
    - rewrite list_lookup_insert_eq by (by eapply lookup_lt_Some).
      eexists. split; [done|]. simpl. congruence.
    - rewrite list_lookup_insert_ne by done. eauto. }
  assert (Hd : forall t' ds, exists task',
             objects (push_deps t' ds w) !! t = Some task' /\
             _name task' = _name task).
  { intros t' ds. unfold push_deps.
    destruct (objects w !! t') as [tk|] eqn:E; [|by eauto]. simpl.
    destruct (decide (t = t')) as [->|Hne].
    - rewrite list_lookup_insert_eq by (by eapply lookup_lt_Some).
      eexists. split; [done|]. simpl. congruence.
    - rewrite list_lookup_insert_ne by done. eauto. }
  destruct s as [name|t' [|]|t' [|]|t' [|]|t' [|]|t' args|t' args|t' args|l];
    simpl; unfold log, warn, error; try destruct v;
    rewrite ?usage_objects; eauto.
  all: rewrite lookup_app_l by (by eapply lookup_lt_Some); eauto.
Qed.

Lemma named_declare1 v w s : named w -> named (declare1 v w s).
Proof.
  intros Hn n t. rewrite declare1_tasks. destruct s as [name| | | | | | | |];
    try (intros Ht; destruct (Hn n t Ht) as (task&Ho&<-);
         by apply declare1_name).
  destruct (decide (n = name)) as [->|Hne].
  - rewrite lookup_insert_eq. intros ?; simplify_eq. simpl.
    exists (mkTask name [] [] (length (heap w))). split; [|done].
    rewrite lookup_app_r by done. by rewrite Nat.sub_diag.
  - rewrite lookup_insert_ne by done.
    intros Ht; destruct (Hn n t Ht) as (task&Ho&<-).
    by apply (declare1_name v w (SAddTask name)).
Qed.

Lemma named_declare v prog : named (declare v prog).
Proof.
  unfold declare. induction prog as [|s prog IH] using rev_ind.
  - intros n t. simpl. by rewrite lookup_empty.
  - rewrite foldl_app. simpl. by apply named_declare1.
Qed.





Lemma called_entered w0 w a t i :
  Inv w0 w -> EvCall a t i ∈ trace w -> exists kids, EvEnter a t kids ∈ trace w.
Proof.
  intros I Hc. apply list_elem_of_split in Hc as (l1&l2&E).
  pose proof (i_after_deps _ _ I) as Ho. rewrite ordered_split in Ho.
  destruct (Ho _ _ _ E a t i eq_refl) as [[kids He] _].
  exists kids. rewrite E, elem_of_app, elem_of_cons. tauto.
Qed.

Lemma declare1_object v w s t name ds js c :
  objects w !! t = Some (mkTask name ds js c) ->
  objects (declare1 v w s) !! t =
  Some (mkTask name (ds ++ stmt_deps t s) (js ++ stmt_jobs v name t s) c).
Proof.
  intros Ho.
  assert (Hlt : t < length (objects w)) by (by eapply lookup_lt_Some).
  assert (Hname : name_of t w = name) by (unfold name_of; by rewrite Ho).
  assert (Hj : forall t' js',
             objects (push_jobs t' js' w) !! t =
             Some (mkTask name ds
                     (js ++ if decide (t' = t) then js' else []) c)).
  { intros t' js'. unfold push_jobs. case_decide as E.
    - subst t'. rewrite Ho. simpl. by rewrite list_lookup_insert_eq.
    - destruct (objects w !! t'); simpl;
        rewrite ?list_lookup_insert_ne by done; by rewrite Ho, app_nil_r. }
  assert (Hd : forall t' ds',
             objects (push_deps t' ds' w) !! t =
             Some (mkTask name
                     (ds ++ if decide (t' = t) then ds' else []) js c)).
  { intros t' ds'. unfold push_deps. case_decide as E.
    - subst t'. rewrite Ho. simpl. by rewrite list_lookup_insert_eq.
    - destruct (objects w !! t'); simpl;
        rewrite ?list_lookup_insert_ne by done; by rewrite Ho, app_nil_r. }
  destruct s as [n|t' [|d ds']|t' [|f fns]|t' [|f fns]|t' [|x args]
                 |t' args|t' args|t' args|l]; simpl;
    unfold log, warn, error, tag;
    rewrite ?usage_objects, ?Hj, ?Hd, ?Ho, ?app_nil_r; try done.
  - by rewrite lookup_app_l, Ho.
  - by case_decide; rewrite ?app_nil_r.
  - by case_decide; rewrite ?app_nil_r.
  - by case_decide; rewrite ?app_nil_r.
  - by case_decide; rewrite ?app_nil_r.
  - case_decide; [subst t'; by rewrite Hname|done].
  - case_decide; [subst t'; by rewrite Hname|done].
  - destruct v; rewrite ?Hj, ?Ho;
      case_decide; rewrite ?app_nil_r; try done.
    subst t'. by rewrite Hname.
  - by destruct v.
Qed.

Lemma foldl_object v rest w t name ds js c :
  objects w !! t = Some (mkTask name ds js c) ->
  objects (foldl (declare1 v) w rest) !! t =
  Some (mkTask name (ds ++ concat (stmt_deps t <$> rest))
          (js ++ concat (stmt_jobs v name t <$> rest)) c).
Proof.
  revert w ds js. induction rest as [|s rest IH]; intros w ds js Ho; simpl.
  - by rewrite !app_nil_r.
  - rewrite (IH _ _ _ (declare1_object v w s _ _ _ _ _ Ho)).
    by rewrite <- !app_assoc.
Qed.


(** ** The context across executions *)




(** ** Calls without arguments *)

Lemma usage_trace v t m w :
  trace (usage v t m w) =
  match v with
  | Simpler =>
      if _shouldLog w LvWarn
      then EvConsole None Warn
             ["[" +:+ name_of t w +:+ "] ERROR: " +:+ m
                +:+ "() expects an arra of function"] :: trace w
      else trace w
  | Richer =>
      EvConsole None Warn
        ["[" +:+ name_of t w +:+ "] WARN:";
         m +:+ "() expects an array of function"] :: trace w
  end.
Proof.
  unfold usage, violet_warn, _warn.
  by destruct v; [destruct (_shouldLog w LvWarn)|].
Qed.

(** C4 as stated fails for [log] (no guard: a job is added and nothing is
    written) and, in the simpler version, for [dep] at the initial
    threshold (the warning is not written). *)
Lemma C4_counterexample :
  let w := snd (addTask "a" violet) in
  (_jobs <$> objects w !! 0 = Some [] /\
   _jobs <$> objects (log Richer 0 [] w) !! 0
     = Some [JConsole Out ["[a] LOG:"]] /\
   trace (log Richer 0 [] w) = trace w) /\
  trace (dep Simpler 0 [] w) = trace w.
Proof. vm_compute. done. Qed.

(** C4 (amended).  [dep], [run], [parallel] and [exec] called without
    arguments change no task object and issue one warning: the richer
    version writes it; the simpler version writes it when the threshold
    admits "warn" and drops it otherwise.  [log], [warn] and, in the
    richer version, [error] have no such guard: without arguments they add
    one console job, which prints the tag alone, and write nothing. *)
Theorem C4_zero_arguments v t w :
  (dep v t [] w = usage v t "dep" w /\
   run v t [] w = usage v t "run" w /\
   parallel v t [] w = usage v t "parallel" w /\
   exec v t [] w = usage v t "exec" w) /\
  (forall m,
      objects (usage v t m w) = objects w /\
      _tasks (usage v t m w) = _tasks w /\
      trace (usage v t m w) =
      match v with
      | Simpler =>
          if _shouldLog w LvWarn
          then EvConsole None Warn
                 ["[" +:+ name_of t w +:+ "] ERROR: " +:+ m
                    +:+ "() expects an arra of function"] :: trace w
          else trace w
      | Richer =>
          EvConsole None Warn
            ["[" +:+ name_of t w +:+ "] WARN:";
             m +:+ "() expects an array of function"] :: trace w
      end) /\
  (forall task,
      objects w !! t = Some task ->
      let added s line :=
        <[t := mkTask (_name task) (_deps task)
                 (_jobs task ++ [JConsole s [line]]) (_ctx task)]>
          (objects w) in
      (objects (log v t [] w) = added Out (tag v t "LOG" w) /\
       trace (log v t [] w) = trace w) /\
      (objects (warn v t [] w) = added Warn (tag v t "WARN" w) /\
       trace (warn v t [] w) = trace w) /\
      (objects (error t [] w)
         = added Warn ("[" +:+ name_of t w +:+ "] ERROR:") /\
       trace (error t [] w) = trace w)).
Proof.
  split; [done|]. split.
  - intros m. by rewrite usage_objects, usage_tasks, usage_trace.
  - intros task Ho. unfold log, warn, error, push_jobs. by rewrite Ho.
Qed.

(** ** The log gate *)

Lemma shouldLog_spec w m :
  _shouldLog w m = true <->
  (LogLevelHierarchy m <= _log_level w)%Z /\ (0 < _log_level w)%Z.
Proof.
  unfold _shouldLog. rewrite andb_true_iff, Z.leb_le, Z.ltb_lt. done.
Qed.

Lemma step_call_console v a r w t i task s args :
  acts w !! a = Some (Loop t i) -> objects w !! t = Some task ->
  _jobs task !! i = Some (JConsole s args) ->
  step v (mkPick a r) w =
  moved a w (Waiting t i WTick) []
    [EvConsole (Some a) s args; EvCall a t i] (objects w) (heap w).
Proof.
  intros Ha Ho Hj. unfold step, call_job. simpl. rewrite Ha, Ho, Hj.
  unfold moved, set_phase, set_acts, console, emit. simpl.
  by rewrite app_nil_r.
Qed.

Lemma step_callback v a r w t i cmd :
  acts w !! a = Some (Waiting t i (WCmd cmd)) ->
  exists es,
    trace (step v (mkPick a r) w) =
      es ++ lines_events a (fst (shell_callback v (name_of t w) r))
         ++ trace w /\
    (es = [] \/ es = [EvSettle a false]) /\
    acts (step v (mkPick a r) w) !! a =
      Some (match snd (shell_callback v (name_of t w) r) with
            | Some true => Loop t (S i)
            | Some false => Rejected
            | None => Waiting t i WNever
            end).
Proof.
  intros Ha. unfold step. simpl. rewrite Ha.
  assert (Hlt : a < length (acts w)) by (by eapply lookup_lt_Some).
  destruct (shell_callback v (name_of t w) r) as [ls [[|]|]]; simpl;
    rewrite write_all_eq; unfold settle, set_phase, set_acts, emit; simpl.
  - exists []. rewrite list_lookup_insert_eq by done. auto.
  - exists [EvSettle a false]. rewrite list_lookup_insert_eq by done. auto.
  - exists []. rewrite list_lookup_insert_eq by done. auto.
Qed.

(** C5 as stated fails: the threshold starts at 1, which admits neither
    level, and a [log] action prints although the gate refuses "log". *)
Lemma C5_counterexample :
  _shouldLog violet LvLog = false /\ _shouldLog violet LvWarn = false /\
  let w0 := declare Simpler [SAddTask "a"; SLog 0 ["x"]] in
  let w := run_sched Simpler [pk 0; pk 0] (main "a" w0) in
  _shouldLog w LvLog = false /\
  printed (trace w) = [(Out, ["[a] LOG: "; "x"])].
Proof. vm_compute. done. Qed.

(** C5 (amended).  The simpler version keeps one integer threshold in the
    registry object; it starts at 1, which admits neither "warn" (2) nor
    "log" (3), and [logLevel] sets it to the rank of the level given, so it
    can only be raised.  A message passes when its rank is at most the
    threshold and the threshold is positive.  The gate is applied to the
    runner's own diagnostics (the usage warning and the completion line);
    the lines of [log] and [warn] actions and what [exeCommand] writes are
    printed whatever the threshold.  The richer version has no threshold:
    its diagnostics are always written. *)
Theorem C5_log_gate :
  (_log_level violet = 1%Z /\ forall m, _shouldLog violet m = false) /\
  (forall w m,
      _shouldLog w m = true <->
      (LogLevelHierarchy m <= _log_level w)%Z /\ (0 < _log_level w)%Z) /\
  (forall w l,
      _log_level (logLevel l w) = LogLevelHierarchy l /\
      (1 < _log_level (logLevel l w))%Z /\
      forall m, _shouldLog (logLevel l w) m = true <->
                (LogLevelHierarchy m <= LogLevelHierarchy l)%Z) /\
  (forall a str w,
      trace (violet_warn a str w) =
        (if _shouldLog w LvWarn then EvConsole a Warn [str] :: trace w
         else trace w) /\
      trace (violet_log a str w) =
        (if _shouldLog w LvLog then EvConsole a Out [str] :: trace w
         else trace w)) /\
  (forall t m a w,
      usage Simpler t m w =
        violet_warn None ("[" +:+ name_of t w +:+ "] ERROR: " +:+ m
                            +:+ "() expects an arra of function") w /\
      completed Simpler a t w =
        violet_log (Some a)
          ("[" +:+ name_of t w +:+ "] LOG: Task completed") w) /\
  (forall v w a r t i task s args,
      acts w !! a = Some (Loop t i) -> objects w !! t = Some task ->
      _jobs task !! i = Some (JConsole s args) ->
      trace (step v (mkPick a r) w) =
        EvConsole (Some a) s args :: EvCall a t i :: trace w) /\
  (forall w a r t i cmd,
      acts w !! a = Some (Waiting t i (WCmd cmd)) ->
      exists es,
        trace (step Simpler (mkPick a r) w) =
          es ++ lines_events a (fst (exeCommand r)) ++ trace w /\
        (es = [] \/ es = [EvSettle a false])) /\
  (forall t m a w,
      trace (usage Richer t m w) =
        EvConsole None Warn
          ["[" +:+ name_of t w +:+ "] WARN:";
           m +:+ "() expects an array of function"] :: trace w /\
      trace (completed Richer a t w) =
        EvConsole (Some a) Out
          ["[" +:+ name_of t w +:+ "] LOG:"; "Task completed"] :: trace w).
Proof.
  split; [split; [done|by intros []]|].
  split; [apply shouldLog_spec|].
  split.
  { intros w l. split; [done|]. split; [by destruct l|].
    intros m. rewrite shouldLog_spec. simpl. destruct l, m; simpl; lia. }
  split.
  { intros a str w. unfold violet_warn, violet_log.
    by destruct (_shouldLog w LvWarn), (_shouldLog w LvLog). }
  split; [done|].
  split.
  { intros v w a r t i task s args Ha Ho Hj.
    by rewrite (step_call_console _ _ _ _ _ _ _ _ _ Ha Ho Hj). }
  split.
  { intros w a r t i cmd Ha.
    destruct (step_callback Simpler a r w t i cmd Ha) as (es&E&Hes&_).
    by exists es. }
  done.
Qed.

(** ** Commands *)

Lemma step_call_exec v a r w t i task args :
  acts w !! a = Some (Loop t i) -> objects w !! t = Some task ->
  _jobs task !! i = Some (JExec args) ->
  step v (mkPick a r) w =
  moved a w (Waiting t i (WCmd (join " " args))) []
    [EvShell a (join " " args); EvCall a t i] (objects w) (heap w).
Proof.
  intros Ha Ho Hj. unfold step, call_job. simpl. rewrite Ha, Ho, Hj.
  unfold moved, set_phase, set_acts, emit. simpl. by rewrite app_nil_r.
Qed.

Lemma exe_spec name r :
  fst (exe name r) = exe_lines name r /\
  snd (exe name r) =
    match sh_error r with
    | Some _ => Some false
    | None =>
        if nonempty (sh_stderr r) then Some false
        else if nonempty (sh_stdout r) then Some true
        else None
    end.
Proof.
  unfold exe, exe_lines.
  by destruct (sh_error r), (nonempty (sh_stderr r)), (nonempty (sh_stdout r)).
Qed.

(** A command that succeeds without writing anything leaves the promise
    of the richer version pending: neither [res] nor [rej] is called. *)
Lemma exe_silent_success name :
  exe name (mkShell None "" "") = ([], None).
Proof. done. Qed.

Lemma never_settles v sched w a t i :
  acts w !! a = Some (Waiting t i WNever) ->
  acts (run_sched v sched w) !! a = Some (Waiting t i WNever).
Proof.
  revert w. induction sched as [|p sched IH]; intros w Ha; simpl; [done|].
  apply IH. destruct (decide (who p = a)) as [<-|Hne].
  - unfold step. by rewrite Ha.
  - by apply step_other.
Qed.

(** C6 as stated fails: in the simpler version a command that succeeds
    prints nothing of its standard output. *)
Lemma C6_counterexample :
  exeCommand (mkShell None "hi" "") = ([], Some true) /\
  let w0 := declare Simpler [SAddTask "a"; SExec 0 ["echo"; "hi"];
                             SLogLevel LvLog] in
  let w := run_sched Simpler
             [pk 0; pk 0; mkPick 0 (mkShell None "hi" ""); pk 0]
             (main "a" w0) in
  acts w = [Resolved] /\
  commands (trace w) = ["echo hi"] /\
  printed (trace w) = [(Out, ["[a] LOG: Task completed"])].
Proof. vm_compute. done. Qed.

(** C6 (amended).  An [exec] action hands its arguments, joined with
    single blanks, to the shell.  Simpler version: the callback always
    settles the action; it fails exactly when the shell reports an error,
    writing "Error: " and the message to [console.error]; otherwise it
    succeeds, writing "Stderr: " and the text to [console.error] when
    stderr is not empty; stdout is never written.  Richer version, when
    the shell reports an error or some output: the action settles once; it
    fails when an error is reported or stderr is not empty and succeeds
    otherwise; the error message (error severity), stderr (warn) and
    stdout (log) are written, in this order, each when present. *)
Theorem C6_command_outcomes :
  (forall v t args w task,
      args <> [] -> objects w !! t = Some task ->
      objects (exec v t args w) =
        <[t := mkTask (_name task) (_deps task)
                 (_jobs task ++ [JExec args]) (_ctx task)]> (objects w)) /\
  (forall v w a r t i task args,
      acts w !! a = Some (Loop t i) -> objects w !! t = Some task ->
      _jobs task !! i = Some (JExec args) ->
      step v (mkPick a r) w =
      moved a w (Waiting t i (WCmd (join " " args))) []
        [EvShell a (join " " args); EvCall a t i] (objects w) (heap w)) /\
  join " " ["npm"; "run"; "build"] = "npm run build" /\
  (forall v w a r t i cmd,
      acts w !! a = Some (Waiting t i (WCmd cmd)) ->
      exists es,
        trace (step v (mkPick a r) w) =
          es ++ lines_events a (fst (shell_callback v (name_of t w) r))
             ++ trace w /\
        (es = [] \/ es = [EvSettle a false]) /\
        acts (step v (mkPick a r) w) !! a =
          Some (match snd (shell_callback v (name_of t w) r) with
                | Some true => Loop t (S i)
                | Some false => Rejected
                | None => Waiting t i WNever
                end)) /\
  (forall r,
      (snd (exeCommand r) = Some false <-> sh_error r <> None) /\
      (snd (exeCommand r) = Some true <-> sh_error r = None) /\
      fst (exeCommand r) =
        match sh_error r with
        | Some msg => [(Err, ["Error: " +:+ msg])]
        | None =>
            if nonempty (sh_stderr r)
            then [(Err, ["Stderr: " +:+ sh_stderr r])] else []
        end) /\
  (forall name r,
      sh_error r <> None \/ sh_stderr r <> "" \/ sh_stdout r <> "" ->
      (snd (exe name r) = Some false <->
       sh_error r <> None \/ sh_stderr r <> "") /\
      (snd (exe name r) = Some true <->
       sh_error r = None /\ sh_stderr r = "" /\ sh_stdout r <> "") /\
      fst (exe name r) = exe_lines name r).
Proof.
  split.
  { intros v t [|x args] w task Hne Ho; [done|].
    unfold exec, push_jobs. by rewrite Ho. }
  split; [intros; by eapply step_call_exec|].
  split; [done|].
  split; [intros; by eapply step_callback|].
  split.
  { intros r. unfold exeCommand. destruct (sh_error r); simpl;
      repeat split; try done; naive_solver. }
  intros name r Hsome. destruct (exe_spec name r) as [-> ->].
  destruct r as [[msg|] [|c1 out] [|c2 err]]; simpl in *;
    (split; [|split; [|done]]); intuition (try done; try congruence).
Qed.

(** ** Parallel groups *)

Lemma step_call_parallel v a r w t i task fns :
  acts w !! a = Some (Loop t i) -> objects w !! t = Some task ->
  _jobs task !! i = Some (JParallel fns) ->
  step v (mkPick a r) w =
  moved a w (Waiting t i (WAll (seq (length (acts w)) (length fns))))
    (Branch t <$> snd (call_all fns (_ctx task) (heap w)))
    [EvCall a t i] (objects w) (fst (call_all fns (_ctx task) (heap w))).
Proof.
  intros Ha Ho Hj. unfold step, call_job. simpl. rewrite Ha, Ho, Hj. simpl.
  pose proof (call_all_length fns (_ctx task) (heap w)) as Hl.
  destruct (call_all fns (_ctx task) (heap w)) as [h ss]. simpl in *.
  unfold moved, set_phase, spawn, set_heap, set_acts, emit. simpl.
  rewrite Hl. f_equal. rewrite insert_app_l; [done|]. by eapply lookup_lt_Some.
Qed.

(** Every function of the group is called with the same [ctx]. *)
Lemma call_all_same_ctx fns ctx h j fn :
  fns !! j = Some fn ->
  exists hj, snd (call_all fns ctx h) !! j = Some (snd (fn ctx hj)).
Proof.
  revert h j. induction fns as [|f fns IH]; intros h j Hj; [done|].
  simpl. destruct (f ctx h) as [h1 s] eqn:E1.
  destruct (call_all fns ctx h1) as [h2 ss] eqn:E2.
  destruct j as [|j]; simpl in *.
  - simplify_eq. exists h. by rewrite E1.
  - destruct (IH h1 j Hj) as [hj Hs]. exists hj. by rewrite E2 in Hs.
Qed.

Lemma step_all_wait v p w a t i kids ph' :
  acts w !! a = Some (Waiting t i (WAll kids)) ->
  acts (step v p w) !! a = Some ph' -> ph' <> Waiting t i (WAll kids) ->
  who p = a /\
  (ph' = Rejected \/
   ph' = Loop t (S i) /\ forall k, k ∈ kids -> acts w !! k = Some Resolved).
Proof.
  intros Ha Ha' Hne.
  destruct (decide (who p = a)) as [E|E].
  - split; [done|]. revert Ha'. unfold step. rewrite E, Ha.
    destruct (promise_all (acts w) kids) eqn:Ep.
    + rewrite Ha. intros ?; by simplify_eq.
    + unfold set_phase. simpl. rewrite list_lookup_insert_eq
        by (by eapply lookup_lt_Some).
      intros ?; simplify_eq. right. split; [done|].
      intros k. by apply promise_all_resolved.
    + unfold settle, set_phase. simpl. rewrite list_lookup_insert_eq
        by (by eapply lookup_lt_Some).
      intros ?; simplify_eq. by left.
  - rewrite (step_other _ _ _ _ _ Ha E) in Ha'. by simplify_eq.
Qed.

Lemma step_branch_return v k r w t ret :
  acts w !! k = Some (Branch t (Ret ret)) ->
  step v (mkPick k r) w =
  moved k w Resolved [] (EvSettle k true :: assign_events k t ret w)
    (assign_objects t ret w) (heap w).
Proof.
  intros Ha. unfold step. simpl. rewrite Ha, assign_eq.
  unfold moved, settle, set_phase, set_acts, emit. simpl.
  by rewrite app_nil_r.
Qed.

Lemma last_assigned_in t es c :
  last_assigned t es = Some c -> exists k, EvAssign k t c ∈ es.
Proof.
  induction es as [|e es IH]; simpl; [done|]. intros H.
  assert (Hrec : last_assigned t es = Some c -> exists k, EvAssign k t c ∈ e :: es).
  { intros H'. destruct (IH H') as [k Hk]. exists k. by right. }
  destruct e; auto. case_decide; auto. simplify_eq. eexists. by left.
Qed.

Lemma move_beyond v r a w ph ph' new es os h n :
  Move v r a w ph ph' new es os h -> beyond n ph -> beyond n ph'.
Proof. destruct 1; simpl; try done; lia. Qed.

Section Group.

Variables (v : Variant) (a t i : nat) (kids : list nat) (task : Task)
  (tr0 : list Event).
Hypothesis Hout : a ∉ kids.

Lemma in_group_step p w :
  (who p = a \/ who p ∈ kids) ->
  in_group a t i kids task tr0 w \/
    (exists ph, acts w !! a = Some ph /\ beyond (S i) ph) ->
  in_group a t i kids task tr0 (step v p w) \/
    (exists ph, acts (step v p w) !! a = Some ph /\ beyond (S i) ph).
Proof.
  intros Hp [HG|(ph&Ha&Hb)].
  - destruct (step_cases v p w)
      as [->|(ph&ph'&new&es&os&h&Hph&HM&E)]; [by left|].
    assert (Hlt : who p < length (acts w)) by (by eapply lookup_lt_Some).
    destruct HG as ((es0&Htr&Hes&Ho)&Hact&Hkids).
    destruct p as [q r]. simpl in *.
    destruct Hp as [Hp|Hp].
    + (* the task itself *)
      subst q. destruct Hact as [Ha|[Ha Hres]].
      * rewrite Ha in Hph. simplify_eq. inversion HM; subst.
        -- right. exists Rejected. split; [|done].
           rewrite E. simpl. by apply moved_lookup_eq.
        -- left. rewrite E. unfold in_group. simpl. split; [|split].
           ++ exists es0. by rewrite Ho.
           ++ right. split; [by apply moved_lookup_eq|].
              intros k Hk. apply moved_lookup_ne; [by intros ->|].
              by eapply promise_all_resolved.
           ++ intros k Hk. assert (k <> a) by (by intros ->).
              destruct (Hkids k Hk) as [?|[?|[s ?]]];
                [left|right;left|right;right;exists s];
                by apply moved_lookup_ne.
      * rewrite Ha in Hph. simplify_eq. right. exists ph'.
        split; [rewrite E; simpl; by apply moved_lookup_eq|].
        inversion HM; subst; simpl; lia.
    + (* a closure *)
      assert (Hne : a <> q) by (by intros ->).
      destruct (Hkids _ Hp) as [Hk|[Hk|[s Hk]]];
        rewrite Hk in Hph; simplify_eq; [by inversion HM..|].
      left. rewrite E. unfold in_group. simpl.
      assert (Hact' : (<[q:=ph']> (acts w) ++ new) !! a
                        = Some (Waiting t i (WAll kids)) \/
                      (<[q:=ph']> (acts w) ++ new) !! a
                        = Some (Loop t (S i)) /\
                      (forall k, k ∈ kids ->
                         (<[q:=ph']> (acts w) ++ new) !! k
                           = Some Resolved)).
      { destruct Hact as [Ha|[Ha Hres]].
        - left. by apply moved_lookup_ne.
        - rewrite (Hres _ Hp) in Hk. done. }
      assert (Hkids' : forall ph0,
                 ph0 = Resolved \/ ph0 = Rejected \/ (exists s0, ph0 = Branch t s0) ->
                 ph' = ph0 ->
                 forall k, k ∈ kids ->
                   (<[q:=ph']> (acts w) ++ new) !! k = Some Resolved \/
                   (<[q:=ph']> (acts w) ++ new) !! k = Some Rejected \/
                   exists s0, (<[q:=ph']> (acts w) ++ new) !! k
                                = Some (Branch t s0)).
      { intros ph0 Hph0 -> k Hin. destruct (decide (k = q)) as [->|Hnk].
        - rewrite moved_lookup_eq by done.
          destruct Hph0 as [->|[->|[s0 ->]]]; eauto.
        - destruct (Hkids k Hin) as [?|[?|[s0 ?]]];
            [left|right;left|right;right;exists s0];
            by apply moved_lookup_ne. }
      inversion HM; subst.
      * (* returns *)
        split; [|split; [done|]].
        -- exists ((EvSettle q true
                     :: assign_events q t ret w) ++ es0).
           split; [rewrite Htr; simpl; by rewrite app_assoc|]. split.
           ++ intros e [He|He]%elem_of_app; [|by apply Hes].
              exists q. split; [done|].
              apply elem_of_cons in He as [->|He]; [right; by eexists|].
              apply assign_events_assign in He as (c&?&->&_). left. by eexists.
           ++ unfold assign_objects, assign_events. rewrite Ho.
              destruct ret as [|c]; simpl; [done|].
              rewrite decide_True by done. simpl.
              by rewrite list_lookup_insert_eq by (by eapply lookup_lt_Some).
        -- apply (Hkids' Resolved); [by left|done].
      * (* throws *)
        split; [|split; [done|]].
        -- exists (EvSettle q false :: es0).
           split; [by rewrite Htr|]. split; [|done].
           intros e [->|He]%elem_of_cons; [|by apply Hes].
           exists q. split; [done|]. right. by eexists.
        -- apply (Hkids' Rejected); [right; by left|done].
      * (* goes on waiting *)
        split; [|split; [done|]].
        -- exists es0. by rewrite Htr, Ho.
        -- eapply Hkids'; [right; right; by eexists|done].
  - right. destruct (step_cases v p w)
      as [->|(ph0&ph'&new&es&os&h&Hph&HM&E)]; [by eauto|].
    destruct p as [q r]. simpl in *.
    assert (Hlt : q < length (acts w)) by (by eapply lookup_lt_Some).
    rewrite E. simpl. destruct (decide (q = a)) as [Hp'|Hne].
    + subst q. rewrite Ha in Hph. simplify_eq.
      exists ph'. split; [by apply moved_lookup_eq|].
      by eapply move_beyond.
    + exists ph. split; [|done]. apply moved_lookup_ne; [done|done].
Qed.

Lemma in_group_run sched w :
  (forall p, p ∈ sched -> who p = a \/ who p ∈ kids) ->
  in_group a t i kids task tr0 w \/
    (exists ph, acts w !! a = Some ph /\ beyond (S i) ph) ->
  in_group a t i kids task tr0 (run_sched v sched w) \/
    (exists ph, acts (run_sched v sched w) !! a = Some ph /\ beyond (S i) ph).
Proof.
  revert w. induction sched as [|p sched IH]; intros w Hs HG; simpl; [done|].
  apply IH; [intros q Hq; apply Hs; by right|].
  apply in_group_step; [|done]. apply Hs. by left.
Qed.

End Group.

Lemma step_all_join v a r w t i kids :
  acts w !! a = Some (Waiting t i (WAll kids)) ->
  (forall k, k ∈ kids -> acts w !! k = Some Resolved) ->
  step v (mkPick a r) w = set_phase a (Loop t (S i)) w.
Proof.
  intros Ha Hk. unfold step. simpl. rewrite Ha.
  by rewrite promise_all_all.
Qed.

Lemma group_alone v w a r t i task fns sched :
  acts w !! a = Some (Loop t i) -> objects w !! t = Some task ->
  _jobs task !! i = Some (JParallel fns) ->
  let kids := seq (length (acts w)) (length fns) in
  let w1 := step v (mkPick a r) w in
  (forall p, p ∈ sched -> who p = a \/ who p ∈ kids) ->
  let w2 := run_sched v sched w1 in
  acts w2 !! a = Some (Loop t (S i)) ->
  (forall k, k ∈ kids -> acts w2 !! k = Some Resolved) /\
  exists es,
    trace w2 = es ++ trace w1 /\
    (forall e, e ∈ es -> of_group t kids e) /\
    ctx_of t w2 = Some (default (_ctx task) (last_assigned t es)) /\
    (ctx_of t w2 = Some (_ctx task) \/
     exists k c, k ∈ kids /\ EvAssign k t c ∈ es /\ ctx_of t w2 = Some c).
Proof.
  intros Ha Ho Hj kids w1 Hs w2 Hend.
  assert (Hlt : a < length (acts w)) by (by eapply lookup_lt_Some).
  assert (Hout : a ∉ kids).
  { unfold kids. rewrite elem_of_seq. lia. }
  assert (HG : in_group a t i kids task (trace w1) w1).
  { unfold w1. rewrite (step_call_parallel _ _ _ _ _ _ _ _ Ha Ho Hj).
    fold kids. unfold in_group. simpl. split; [|split].
    - exists []. split; [done|]. split; [by intros e ?%elem_of_nil|].
      simpl. by rewrite Ho, with_ctx_same.
    - left. by apply moved_lookup_eq.
    - intros k Hk. right; right. unfold kids in Hk.
      apply elem_of_seq in Hk as [Hk1 Hk2].
      rewrite lookup_app_r by (rewrite length_insert; lia).
      rewrite length_insert, list_lookup_fmap.
      destruct (snd (call_all fns (_ctx task) (heap w))
                  !! (k - length (acts w))) as [s|] eqn:E.
      + exists s. done.
      + apply lookup_ge_None in E. rewrite call_all_length in E. lia. }
  destruct (in_group_run v a t i kids task (trace w1) Hout sched w1 Hs
              (or_introl HG)) as [HG'|(ph&Hph&Hb)]; fold w2 in HG' || fold w2 in Hph.
  - destruct HG' as ((es&Htr&Hes&Hobj)&Hact&_).
    destruct Hact as [Hw|[_ Hres]]; [rewrite Hw in Hend; done|].
    split; [done|]. exists es. split; [done|]. split; [done|].
    assert (Hc : ctx_of t w2 = Some (default (_ctx task) (last_assigned t es))).
    { unfold ctx_of. by rewrite Hobj. }
    split; [done|]. rewrite Hc.
    destruct (last_assigned t es) as [c|] eqn:El; [|by left].
    right. destruct (last_assigned_in _ _ _ El) as [k Hk].
    exists k, c. split; [|done].
    destruct (Hes _ Hk) as (k'&Hk'&[[c' ?]|[ok ?]]); by simplify_eq.
  - rewrite Hend in Hph. simplify_eq. simpl in Hb. lia.
Qed.

(** Whatever runs, [_ctx] is the object of the most recent assignment. *)
Lemma run_ctx v sched w t task :
  objects w !! t = Some task ->
  exists es,
    trace (run_sched v sched w) = es ++ trace w /\
    objects (run_sched v sched w) !! t =
      Some (with_ctx task (default (_ctx task) (last_assigned t es))).
Proof.
  revert w task. induction sched as [|p sched IH]; intros w task Ho; simpl.
  - exists []. simpl. by rewrite with_ctx_same.
  - destruct (step_cases v p w)
      as [->|(ph&ph'&new&es&os&h&Ha&HM&E)]; [by apply IH|].
    pose proof (move_objects HM _ _ Ho) as Ho'.
    destruct (IH (step v p w) _ ltac:(rewrite E; exact Ho'))
      as (es'&Htr&Hobj).
    exists (es' ++ es). rewrite Htr, Hobj, E. simpl.
    split; [by rewrite app_assoc|].
    rewrite last_assigned_app. by destruct (last_assigned t es').
Qed.

(** C9.  Calling a parallel group calls every member function, in order
    and each with the same [_ctx], and creates one closure per function;
    the loop goes on to the next job only in a reaction that finds every
    closure resolved (and rejects as soon as one has rejected).  A closure
    whose function returned an object assigns it to [_ctx] when it
    resumes, and whatever runs, [_ctx] is the object assigned last (no
    merge).  When only the group runs, [_ctx] at the end of the group is
    the object of the last such assignment, one of those returned in the
    group, or the previous [_ctx] if there was none; which one is last
    depends on the order in which the functions finish: [race] ends with
    n = 2 under one schedule and n = 1 under another. *)
Theorem C9_parallel_group v :
  (forall w a r t i task fns,
      acts w !! a = Some (Loop t i) -> objects w !! t = Some task ->
      _jobs task !! i = Some (JParallel fns) ->
      step v (mkPick a r) w =
      moved a w (Waiting t i (WAll (seq (length (acts w)) (length fns))))
        (Branch t <$> snd (call_all fns (_ctx task) (heap w)))
        [EvCall a t i] (objects w)
        (fst (call_all fns (_ctx task) (heap w)))) /\
  (forall fns ctx h,
      length (snd (call_all fns ctx h)) = length fns /\
      forall j fn, fns !! j = Some fn ->
        exists hj, snd (call_all fns ctx h) !! j = Some (snd (fn ctx hj))) /\
  (forall w p a t i kids ph',
      acts w !! a = Some (Waiting t i (WAll kids)) ->
      acts (step v p w) !! a = Some ph' -> ph' <> Waiting t i (WAll kids) ->
      who p = a /\
      (ph' = Rejected \/
       ph' = Loop t (S i) /\
       forall k, k ∈ kids -> acts w !! k = Some Resolved)) /\
  (forall w a r t i kids,
      acts w !! a = Some (Waiting t i (WAll kids)) ->
      (forall k, k ∈ kids -> acts w !! k = Some Resolved) ->
      step v (mkPick a r) w = set_phase a (Loop t (S i)) w) /\
  (forall w k r t ret,
      acts w !! k = Some (Branch t (Ret ret)) ->
      step v (mkPick k r) w =
      moved k w Resolved [] (EvSettle k true :: assign_events k t ret w)
        (assign_objects t ret w) (heap w)) /\
  (forall sched w t task,
      objects w !! t = Some task ->
      exists es,
        trace (run_sched v sched w) = es ++ trace w /\
        objects (run_sched v sched w) !! t =
          Some (with_ctx task
                  (default (_ctx task) (last_assigned t es)))) /\
  (forall w a r t i task fns sched,
      acts w !! a = Some (Loop t i) -> objects w !! t = Some task ->
      _jobs task !! i = Some (JParallel fns) ->
      let kids := seq (length (acts w)) (length fns) in
      let w1 := step v (mkPick a r) w in
      (forall p, p ∈ sched -> who p = a \/ who p ∈ kids) ->
      let w2 := run_sched v sched w1 in
      acts w2 !! a = Some (Loop t (S i)) ->
      (forall k, k ∈ kids -> acts w2 !! k = Some Resolved) /\
      exists es,
        trace w2 = es ++ trace w1 /\
        (forall e, e ∈ es -> of_group t kids e) /\
        ctx_of t w2 = Some (default (_ctx task) (last_assigned t es)) /\
        (ctx_of t w2 = Some (_ctx task) \/
         exists k c,
           k ∈ kids /\ EvAssign k t c ∈ es /\ ctx_of t w2 = Some c)) /\
  (let wa := run_sched v first_then_second (main "P" (declare v race)) in
   let wb := run_sched v second_then_first (main "P" (declare v race)) in
   acts wa = [Resolved; Resolved; Resolved] /\
   acts wb = [Resolved; Resolved; Resolved] /\
   (ctx_of 0 wa ≫= (fun c : nat => heap wa !! c)) ≫= (.!! "n") = Some 2%Z /\
   (ctx_of 0 wb ≫= (fun c : nat => heap wb !! c)) ≫= (.!! "n") = Some 1%Z).
Proof.
  split; [intros; by apply step_call_parallel|].
  split.
  { intros fns ctx h. split; [apply call_all_length|].
    intros j fn Hj. by apply call_all_same_ctx. }
  split; [intros; by eapply step_all_wait|].
  split; [intros; by eapply step_all_join|].
  split; [intros; by eapply step_branch_return|].
  split; [intros; by eapply run_ctx|].
  split; [intros; by eapply group_alone|].
  destruct v; vm_compute; done.
Qed.

(** ** The scenarios of the specification *)

Example scenario_hello :
  let w := run_sched Richer hello_sched (main "A" (declare Richer hello)) in
  acts w = [Resolved] /\
  commands (trace w) = ["echo hi"] /\
  printed (trace w) =
    [(Out, ["[A] LOG:"; "x"]); (Out, ["[A] LOG:"; "hi"]);
     (Out, ["[A] LOG:"; "Task completed"])].
Proof. vm_compute. done. Qed.

Example scenario_chain v :
  let w := run_sched v chain_sched (main "B" (declare v chain)) in
  acts w = [Resolved; Resolved] /\
  (ctx_of 1 w ≫= (fun c : nat => heap w !! c)) = Some {[ "flag" := 1%Z ]} /\
  exists l1 l2 l3,
    trace w = l1 ++ EvCall 0 1 0 :: l2 ++ EvSettle 1 true :: l3.
Proof.
  destruct v.
  - split; [by vm_compute|]. split; [by vm_compute|].
    eexists [_; _], [], _. vm_compute. reflexivity.
  - split; [by vm_compute|]. split; [by vm_compute|].
    eexists [_; _; _], [], _. vm_compute. reflexivity.
Qed.

Example scenario_false v :
  let w := run_sched v failing_sched (main "F" (declare v failing)) in
  acts w = [Rejected] /\
  commands (trace w) = ["false"] /\
  forall l, l ∈ printed (trace w) -> fst l = Err.
Proof.
  destruct v; (split; [by vm_compute|]); (split; [by vm_compute|]);
    intros l; vm_compute; intros Hl;
    apply list_elem_of_singleton in Hl; by subst l.
Qed.

(** In the richer version a command that succeeds silently keeps its task
    waiting whatever runs afterwards. *)
Example scenario_silent sched :
  let w := run_sched Richer ([pk 0; pk 0; pk 0] ++ sched)
             (main "S" (declare Richer silent)) in
  acts w !! 0 = Some (Waiting 0 0 WNever) /\
  forall a ok, EvSettle a ok ∉ trace
    (run_sched Richer [pk 0; pk 0; pk 0] (main "S" (declare Richer silent))).
Proof.
  split.
  - unfold run_sched. rewrite foldl_app. apply never_settles.
    by vm_compute.
  - intros a ok. vm_compute. intros H.
    repeat (apply elem_of_cons in H as [H|H]; [discriminate|]).
    by apply elem_of_nil in H.
Qed.

(** * Further properties *)

(** ** Jobs are called in order *)

(** X1.  Within one run the jobs of the task are called in the order of
    [_jobs], each once: when job [j] is called, the jobs this run has
    called before are exactly jobs [0 .. j-1] of the same task object, the
    ones it calls later have a larger index, and [j] is an index of the
    job list as declared. *)
Theorem X1_jobs_in_declared_order v prog name sched l1 a t j l2 :
  let w0 := declare v prog in
  let w := run_sched v sched (main name w0) in
  trace w = l1 ++ EvCall a t j :: l2 ->
  (forall t' j', EvCall a t' j' ∈ l2 <-> t' = t /\ j' < j) /\
  (forall t' j', EvCall a t' j' ∈ l1 -> t' = t /\ j < j') /\
  exists task0, objects w0 !! t = Some task0 /\ j < length (_jobs task0).
Proof.
  intros w0 w E. pose proof (inv2_reach v prog name sched) as J.
  fold w0 in J. fold w in J.
  pose proof (j_order _ _ J) as Ho. rewrite ordered_split in Ho.
  split; [by apply (Ho _ _ _ E a t j)|]. split.
  - intros t' j' Hin. apply list_elem_of_split in Hin as (l1a&l1b&->).
    rewrite <- app_assoc in E. simpl in E.
    destruct (Ho _ _ _ E a t' j' eq_refl t j) as [H _].
    destruct H as [-> ?]; [|done].
    rewrite elem_of_app, elem_of_cons. tauto.
  - apply (j_bound _ _ J a). rewrite E, elem_of_app, elem_of_cons. tauto.
Qed.

(** X2.  A run of a registered name that has resolved has entered the task
    object registered under that name, has seen every dependency it
    started resolve, and has called every job of the task. *)
Theorem X2_resolved_run_is_complete v prog name sched a d t task0 :
  let w0 := declare v prog in
  let w := run_sched v sched (main name w0) in
  EvRunTask a d ∈ trace w -> EvSettle a true ∈ trace w ->
  _tasks w0 !! d = Some t -> objects w0 !! t = Some task0 ->
  exists kids,
    EvEnter a t kids ∈ trace w /\
    length kids = length (_deps task0) /\
    (forall k, k ∈ kids -> EvSettle k true ∈ trace w) /\
    (forall j, j < length (_jobs task0) -> EvCall a t j ∈ trace w).
Proof.
  intros w0 w Hr Hs Ht Ho.
  pose proof (inv_reach v prog name sched) as I.
  pose proof (inv2_reach v prog name sched) as J.
  fold w0 in I, J. fold w in I, J.
  pose proof (j_run _ _ J _ _ Hr) as Hrun. rewrite Ht in Hrun.
  destruct Hrun as [kids He]. exists kids. split; [done|].
  apply (i_settled _ _ I) in Hs. simpl in Hs.
  destruct (i_kids _ _ I _ _ _ He) as (d'&task0'&_&_&Ho'&Hlen&_).
  rewrite Ho in Ho'. simplify_eq. split; [done|]. split.
  - destruct (i_enter _ _ I _ _ _ He) as [Hb|[Hb|Hb]];
      [rewrite Hs in Hb; done..|done].
  - intros j Hj. by eapply (j_done _ _ J).
Qed.

(** X3.  Nothing remembers that a task has run: every [_runTask] of a
    registered name enters [_complete] of the registered object and
    starts one promise per declared dependency again; every [_runTask] of
    an unregistered name resolves without entering anything. *)
Theorem X3_every_invocation_runs_again v prog name sched a d :
  let w0 := declare v prog in
  let w := run_sched v sched (main name w0) in
  EvRunTask a d ∈ trace w ->
  match _tasks w0 !! d with
  | Some t =>
      exists kids task0,
        EvEnter a t kids ∈ trace w /\ objects w0 !! t = Some task0 /\
        length kids = length (_deps task0)
  | None =>
      EvSettle a true ∈ trace w /\
      (forall t kids, EvEnter a t kids ∉ trace w) /\
      (forall t j, EvCall a t j ∉ trace w)
  end.
Proof.
  intros w0 w Hr.
  pose proof (inv_reach v prog name sched) as I.
  pose proof (inv2_reach v prog name sched) as J.
  fold w0 in I, J. fold w in I, J.
  pose proof (j_run _ _ J _ _ Hr) as Hrun.
  destruct (_tasks w0 !! d) as [t|] eqn:Ht.
  - destruct Hrun as [kids He].
    destruct (i_kids _ _ I _ _ _ He) as (d'&task0&_&_&Ho&Hlen&_).
    by exists kids, task0.
  - destruct Hrun as [Hs Hno]. split; [done|]. split; [done|].
    intros t j Hc. destruct (called_entered _ _ _ _ _ I Hc) as [kids He].
    by eapply Hno.
Qed.

(** X4.  A promise settles once: after it has resolved or rejected it
    neither resolves nor rejects again. *)
Theorem X4_settles_at_most_once v prog name sched l1 a ok l2 :
  let w := run_sched v sched (main name (declare v prog)) in
  trace w = l1 ++ EvSettle a ok :: l2 ->
  forall ok', (EvSettle a ok' ∉ l1) /\ (EvSettle a ok' ∉ l2).
Proof.
  intros w E ok'. pose proof (inv_reach v prog name sched) as I. fold w in I.
  pose proof (i_after_settle _ _ I) as Ho. rewrite ordered_split in Ho.
  split.
  - intros Hin. apply list_elem_of_split in Hin as (l1a&l1b&->).
    rewrite <- app_assoc in E. simpl in E.
    apply (Ho _ _ _ E a ok eq_refl).
    rewrite elem_of_app, elem_of_cons. tauto.
  - by apply (Ho _ _ _ E a ok').
Qed.

(** X5.  Running changes nothing that was declared: the registry, the
    threshold, the number of task objects and the name, dependency list
    and job list of each are, after any run, what the declaration left. *)
Theorem X5_run_keeps_declarations v prog name sched :
  let w0 := declare v prog in
  let w := run_sched v sched (main name w0) in
  _tasks w = _tasks w0 /\ _log_level w = _log_level w0 /\
  length (objects w) = length (objects w0) /\
  forall t task0,
    objects w0 !! t = Some task0 ->
    exists task,
      objects w !! t = Some task /\ _name task = _name task0 /\
      _deps task = _deps task0 /\ _jobs task = _jobs task0.
Proof.
  intros w0 w. pose proof (inv_reach v prog name sched) as I.
  fold w0 in I. fold w in I.
  split; [apply I|]. split; [apply I|]. split; [apply I|].
  intros t task0 Ho. eexists. split; [by apply (i_objects _ _ I)|done].
Qed.

(** X6.  There is no cancellation: a reaction of one promise, be it a
    rejection, leaves every other promise in the phase it was in, and the
    promises it creates are added after the existing ones. *)
Theorem X6_no_cancellation v p w b ph :
  acts w !! b = Some ph -> who p <> b ->
  acts (step v p w) !! b = Some ph /\
  exists ph' new,
    acts (step v p w) = <[who p := ph']> (acts w) ++ new /\
    forall q, q ∈ new ->
      (exists d, q = Called d) \/ (exists t s, q = Branch t s).
Proof.
  intros Hb Hne. split; [by apply step_other|].
  destruct (step_cases v p w)
    as [E|(ph0&ph'&new&es&os&h&Ha&HM&E)]; rewrite E.
  - destruct (acts w !! who p) as [ph0|] eqn:Ha.
    + exists ph0, []. rewrite app_nil_r, list_insert_id by done.
      split; [done|]. by intros q ?%elem_of_nil.
    + exists ph, []. rewrite app_nil_r.
      rewrite list_insert_ge by (by apply lookup_ge_None).
      split; [done|]. by intros q ?%elem_of_nil.
  - exists ph', new. split; [done|]. intros q. by apply (move_new HM).
Qed.


(** ** Declarations *)

(** X7.  What the calls on one builder build: the dependency list of a
    task is the concatenation, in call order, of the arguments of its
    [dep] calls (duplicates kept), and its job list the concatenation of
    what its other calls add ([run]: one job per function; [parallel],
    [exec]: one job, none without arguments; [log], [warn], [error]: one
    job); calls on other builders, later [addTask]s (also of the same
    name) and [logLevel] add nothing to it, and its name and [_ctx] stay
    as created. *)
Theorem X7_builder_calls_compose v prog name rest :
  let w1 := declare v prog in
  let t := length (objects w1) in
  objects (declare v (prog ++ SAddTask name :: rest)) !! t =
  Some (mkTask name (concat (stmt_deps t <$> rest))
          (concat (stmt_jobs v name t <$> rest)) (length (heap w1))).
Proof.
  intros w1 t. unfold declare. rewrite foldl_app. simpl.
  fold (declare v prog). fold w1.
  apply (foldl_object v rest _ t name [] []).
  simpl. rewrite lookup_app_r by done. by rewrite Nat.sub_diag.
Qed.

Lemma declared_violet : declared violet.
Proof.
  split; [done|]. split; [by intros e ?%elem_of_nil|].
  split; [done|]. split; by intros [|?] ?.
Qed.

Lemma declared_usage v t m w : declared w -> declared (usage v t m w).
Proof.
  intros (Ha&Htr&Hlen&Hh&Hc). unfold usage, violet_warn, _warn.
  destruct v; [destruct (_shouldLog w LvWarn)|]; simpl;
    repeat split; try done;
    intros e [->|He]%elem_of_cons; eauto.
Qed.

Lemma declared_push_jobs t js w : declared w -> declared (push_jobs t js w).
Proof.
  intros (Ha&Htr&Hlen&Hh&Hc). unfold push_jobs.
  destruct (objects w !! t) as [task|] eqn:E; [|done].
  unfold declared, set_objects. cbn [acts trace heap objects].
  split; [done|]. split; [done|].
  split; [by rewrite length_insert|]. split; [done|].
  intros t' task' Ho. destruct (decide (t' = t)) as [->|Hne].
  - rewrite list_lookup_insert_eq in Ho by (by eapply lookup_lt_Some).
    simplify_eq. simpl. by apply Hc.
  - rewrite list_lookup_insert_ne in Ho by done. by apply Hc.
Qed.

Lemma declared_push_deps t ds w : declared w -> declared (push_deps t ds w).
Proof.
  intros (Ha&Htr&Hlen&Hh&Hc). unfold push_deps.
  destruct (objects w !! t) as [task|] eqn:E; [|done].
  unfold declared, set_objects. cbn [acts trace heap objects].
  split; [done|]. split; [done|].
  split; [by rewrite length_insert|]. split; [done|].
  intros t' task' Ho. destruct (decide (t' = t)) as [->|Hne].
  - rewrite list_lookup_insert_eq in Ho by (by eapply lookup_lt_Some).
    simplify_eq. simpl. by apply Hc.
  - rewrite list_lookup_insert_ne in Ho by done. by apply Hc.
Qed.

Lemma declared_addTask name w : declared w -> declared (snd (addTask name w)).
Proof.
  intros (Ha&Htr&Hlen&Hh&Hc). unfold declared. simpl.
  split; [done|]. split; [done|].
  split; [rewrite !length_app; simpl; lia|]. split.
  - intros c o [?|[_ Ho]]%lookup_app_Some; [by eapply Hh|].
    destruct (c - length (heap w)) as [|?]; simpl in Ho; by simplify_eq.
  - intros t task [?|[? Ho]]%lookup_app_Some; [by apply Hc|].
    destruct (t - length (objects w)) as [|?] eqn:E; simpl in Ho;
      [|done]. injection Ho as <-. simpl. lia.
Qed.

Lemma declared_declare1 v w s : declared w -> declared (declare1 v w s).
Proof.
  intros Hd.
  destruct s as [name|t [|]|t [|]|t [|]|t [|]|t args|t args|t args|l];
    [by apply declared_addTask|..];
    simpl; unfold log, warn, error; try destruct v;
    auto using declared_usage, declared_push_jobs, declared_push_deps.
Qed.

Lemma declared_declare v prog : declared (declare v prog).
Proof.
  unfold declare. induction prog as [|s prog IH] using rev_ind.
  - apply declared_violet.
  - rewrite foldl_app. simpl. by apply declared_declare1.
Qed.

(** X8.  Declaring executes nothing: after any sequence of calls on the
    registry and the builders no promise exists, no command has been
    handed to the shell, no user function has touched the store (it holds
    one empty object per task and nothing else), and the only lines
    written are the builder's usage warnings on [console.warn]. *)
Theorem X8_declaring_runs_nothing v prog :
  let w := declare v prog in
  acts w = [] /\ commands (trace w) = [] /\
  (forall l, l ∈ printed (trace w) -> fst l = Warn) /\
  heap w = replicate (length (objects w)) ∅.
Proof.
  intros w. destruct (declared_declare v prog) as (Ha&Htr&Hlen&Hh&Hc).
  fold w in Ha, Htr, Hlen, Hh, Hc.
  split; [done|]. split; [|split].
  - unfold commands.
    assert (E : omap (fun e => match e with
                               | EvShell _ c => Some c | _ => None end)
                  (trace w) = []); [|by rewrite E].
    induction (trace w) as [|e tr IH]; [done|]. simpl.
    destruct (Htr e) as [args ->]; [by left|]. simpl.
    apply IH. intros e' He'. apply Htr. by right.
  - intros l. unfold printed. rewrite elem_of_reverse, list_elem_of_omap.
    intros (e&He&Hl). destruct (Htr e He) as [args ->]. by simplify_eq.
  - rewrite <- Hlen. apply list_eq. intros c.
    destruct (heap w !! c) as [o|] eqn:E.
    + rewrite (Hh _ _ E). symmetry. apply lookup_replicate_2.
      by eapply lookup_lt_Some.
    + symmetry. apply lookup_replicate_None. by apply lookup_ge_None.
Qed.

(** X9.  Each task gets a context of its own: after a declaration two
    different task objects never hold the same [_ctx], and every [_ctx] is
    an existing, empty object of the store. *)
Theorem X9_contexts_are_separate v prog t t' task task' :
  let w := declare v prog in
  objects w !! t = Some task -> objects w !! t' = Some task' ->
  heap w !! _ctx task = Some ∅ /\ (_ctx task = _ctx task' -> t = t').
Proof.
  intros w Ho Ho'. destruct (declared_declare v prog) as (Ha&Htr&Hlen&Hh&Hc).
  fold w in Ha, Htr, Hlen, Hh, Hc.
  rewrite (Hc _ _ Ho), (Hc _ _ Ho'). split; [|done].
  assert (is_Some (heap w !! t)) as [o E].
  { apply lookup_lt_is_Some. rewrite Hlen. by eapply lookup_lt_Some. }
  by rewrite E, (Hh _ _ E).
Qed.

Lemma declare_registered v prog n :
  is_Some (_tasks (declare v prog) !! n) <-> SAddTask n ∈ prog.
Proof.
  unfold declare. induction prog as [|s prog IH] using rev_ind.
  - simpl. rewrite lookup_empty, elem_of_nil. split; [by intros [? ?]|done].
  - rewrite foldl_app, elem_of_app, list_elem_of_singleton. simpl.
    rewrite declare1_tasks. destruct s as [name| | | | | | | |];
      try (rewrite IH; split; [tauto|intros [?|?]; [done|discriminate]]).
    destruct (decide (n = name)) as [->|Hne].
    + rewrite lookup_insert_eq. split; [by right|by eexists].
    + rewrite lookup_insert_ne by done. rewrite IH.
      split; [tauto|intros [?|?]; [done|by simplify_eq]].
Qed.

(** X10.  The registry holds exactly the declared names: a name is
    registered if and only if some [addTask] was called with it, and the
    object it leads to exists and carries that name. *)
Theorem X10_registry_is_the_declared_names v prog n :
  let w := declare v prog in
  (is_Some (_tasks w !! n) <-> SAddTask n ∈ prog) /\
  forall t, _tasks w !! n = Some t ->
    exists task, objects w !! t = Some task /\ _name task = n.
Proof.
  intros w. split; [apply declare_registered|].
  intros t. apply named_declare.
Qed.

(** ** Tasks that run straight through *)

Lemma printed_app es tr : printed (es ++ tr) = printed tr ++ printed es.
Proof. unfold printed. by rewrite omap_app, reverse_app. Qed.

Lemma commands_app es tr : commands (es ++ tr) = commands tr ++ commands es.
Proof. unfold commands. by rewrite omap_app, reverse_app. Qed.

Lemma settled_idle v a ok n w :
  acts w !! a = Some (terminal ok) ->
  run_sched v (replicate n (pk a)) w = w.
Proof.
  intros Ha. induction n as [|n IH]; simpl; [done|].
  assert (step v (pk a) w = w) as ->; [|done].
  unfold step. simpl. rewrite Ha. by destruct ok.
Qed.

Lemma commands_completed v a t w : commands (completed_events v a t w) = [].
Proof.
  unfold completed_events. by destruct v; [destruct (_shouldLog w LvLog)|].
Qed.

Lemma step_done v a r w t i task :
  acts w !! a = Some (Loop t i) -> objects w !! t = Some task ->
  _jobs task !! i = None ->
  step v (mkPick a r) w =
  moved a w Resolved [] (EvSettle a true :: completed_events v a t w)
    (objects w) (heap w).
Proof.
  intros Ha Ho Hj. unfold step, call_job. simpl.
  rewrite Ha, Ho, Hj, completed_eq.
  unfold moved, settle, set_phase, set_acts, emit. simpl.
  by rewrite app_nil_r.
Qed.

Lemma step_tick v a r w t i :
  acts w !! a = Some (Waiting t i WTick) ->
  step v (mkPick a r) w = set_phase a (Loop t (S i)) w.
Proof. intros Ha. unfold step. simpl. by rewrite Ha. Qed.

Lemma two_console v a w t i task s args :
  acts w !! a = Some (Loop t i) -> objects w !! t = Some task ->
  _jobs task !! i = Some (JConsole s args) ->
  step v (pk a) (step v (pk a) w) =
  mkWorld (_tasks w) (_log_level w) (objects w) (heap w)
    (<[a := Loop t (S i)]> (acts w))
    (EvConsole (Some a) s args :: EvCall a t i :: trace w).
Proof.
  intros Ha Ho Hj.
  assert (Hlt : a < length (acts w)) by (by eapply lookup_lt_Some).
  unfold pk. rewrite (step_call_console _ _ _ _ _ _ _ _ _ Ha Ho Hj).
  rewrite (step_tick _ _ _ _ t i)
    by (simpl; rewrite app_nil_r; by apply list_lookup_insert_eq).
  unfold set_phase, set_acts, moved. simpl.
  by rewrite app_nil_r, list_insert_insert_eq.
Qed.

Lemma two_run_ret v a w t i task fn ret :
  acts w !! a = Some (Loop t i) -> objects w !! t = Some task ->
  _jobs task !! i = Some (JRun fn) ->
  snd (fn (_ctx task) (heap w)) = Ret ret ->
  step v (pk a) (step v (pk a) w) =
  mkWorld (_tasks w) (_log_level w) (assign_objects t ret w)
    (fst (fn (_ctx task) (heap w)))
    (<[a := Loop t (S i)]> (acts w))
    (assign_events a t ret w ++ EvCall a t i :: trace w).
Proof.
  intros Ha Ho Hj Hr.
  assert (Hlt : a < length (acts w)) by (by eapply lookup_lt_Some).
  unfold pk. rewrite (step_call_run _ _ _ _ _ _ _ _ Ha Ho Hj), Hr.
  rewrite (step_return _ _ _ _ t i ret)
    by (simpl; rewrite app_nil_r; by apply list_lookup_insert_eq).
  unfold moved, assign_objects, assign_events. simpl.
  by rewrite !app_nil_r, list_insert_insert_eq.
Qed.

Lemma two_run_throw v a w t i task fn :
  acts w !! a = Some (Loop t i) -> objects w !! t = Some task ->
  _jobs task !! i = Some (JRun fn) ->
  snd (fn (_ctx task) (heap w)) = Throw ->
  step v (pk a) (step v (pk a) w) =
  mkWorld (_tasks w) (_log_level w) (objects w)
    (fst (fn (_ctx task) (heap w)))
    (<[a := Rejected]> (acts w))
    (EvSettle a false :: EvCall a t i :: trace w).
Proof.
  intros Ha Ho Hj Hr.
  assert (Hlt : a < length (acts w)) by (by eapply lookup_lt_Some).
  unfold pk. rewrite (step_call_run _ _ _ _ _ _ _ _ Ha Ho Hj), Hr.
  rewrite (step_throw _ _ _ _ t i)
    by (simpl; rewrite app_nil_r; by apply list_lookup_insert_eq).
  unfold settle, set_phase, set_acts, emit, moved. simpl.
  by rewrite !app_nil_r, list_insert_insert_eq.
Qed.

Lemma completed_events_same v a t w w2 :
  _log_level w2 = _log_level w -> name_of t w2 = name_of t w ->
  completed_events v a t w2 = completed_events v a t w.
Proof.
  intros Hl Hn. unfold completed_events, _shouldLog. by rewrite Hl, Hn.
Qed.

Lemma straight_run v a t js :
  forall i w task ok c' h' out n,
    acts w !! a = Some (Loop t i) -> objects w !! t = Some task ->
    drop i (_jobs task) = js ->
    straight js (_ctx task) (heap w) = Some (ok, c', h', out) ->
    2 * length js + 1 <= n ->
    let w' := run_sched v (replicate n (pk a)) w in
    acts w' = <[a := terminal ok]> (acts w) /\
    objects w' = <[t := with_ctx task c']> (objects w) /\
    heap w' = h' /\
    _tasks w' = _tasks w /\ _log_level w' = _log_level w /\
    printed (trace w') =
      printed (trace w) ++ out ++
      (if ok then printed (completed_events v a t w) else []) /\
    commands (trace w') = commands (trace w).
Proof.
  induction js as [|job js IH]; intros i w task ok c' h' out n Ha Ho Hd Hs Hn.
  - simpl in Hs. simplify_eq. destruct n as [|n]; [simpl in Hn; lia|].
    assert (Hlt : a < length (acts w)) by (by eapply lookup_lt_Some).
    assert (Hj : _jobs task !! i = None).
    { apply lookup_ge_None. by apply drop_nil_inv. }
    simpl.
    assert (E : step v (pk a) w = _)
      by (by apply (step_done v a _ w t i task)).
    rewrite E. clear E.
    rewrite (settled_idle v a true)
      by (simpl; rewrite app_nil_r; by apply list_lookup_insert_eq).
    unfold moved. cbn [acts objects heap trace _tasks _log_level].
    rewrite app_nil_r, with_ctx_same, (list_insert_id (objects w)) by done.
    repeat (split; [done|]). split.
    + by rewrite (printed_app (EvSettle a true :: completed_events v a t w)).
    + rewrite (commands_app (EvSettle a true :: completed_events v a t w)).
      change (commands (EvSettle a true :: completed_events v a t w))
        with (commands (completed_events v a t w)).
      by rewrite commands_completed, app_nil_r.
  - assert (Hlt : a < length (acts w)) by (by eapply lookup_lt_Some).
    assert (Hj : _jobs task !! i = Some job).
    { rewrite <- (Nat.add_0_r i), <- lookup_drop, Hd. done. }
    assert (Hd' : drop (S i) (_jobs task) = js).
    { replace (S i) with (i + 1) by lia. by rewrite <- drop_drop, Hd. }
    destruct n as [|[|n]]; [simpl in Hn; lia..|].
    assert (Hn' : 2 * length js + 1 <= n) by (simpl in Hn; lia).
    change (run_sched v (replicate (S (S n)) (pk a)) w)
      with (run_sched v (replicate n (pk a))
              (step v (pk a) (step v (pk a) w))).
    cbv zeta.
    destruct job as [fn|fns|args|s args]; simpl in Hs; try done.
    + (* run *)
      destruct (snd (fn (_ctx task) (heap w))) as [ret| |upd k] eqn:Hr;
        [|simplify_eq|done].
      * rewrite (two_run_ret _ _ _ _ _ _ _ _ Ha Ho Hj Hr).
        set (c1 := match ret with Object c => c | Undefined => _ctx task end).
        assert (Hs' : straight js c1 (fst (fn (_ctx task) (heap w)))
                      = Some (ok, c', h', out)).
        { unfold c1. by destruct ret. }
        assert (Hobj : assign_objects t ret w
                       = <[t := with_ctx task c1]> (objects w)).
        { unfold assign_objects, c1. rewrite Ho. destruct ret; [|done].
          by rewrite with_ctx_same, list_insert_id. }
        match goal with |- context [run_sched v _ ?x] => set (w2 := x) end.
        assert (Ha2 : acts w2 !! a = Some (Loop t (S i))).
        { by apply list_lookup_insert_eq. }
        assert (Ho2 : objects w2 !! t = Some (with_ctx task c1)).
        { unfold w2. cbn [objects]. rewrite Hobj.
          apply list_lookup_insert_eq. by eapply lookup_lt_Some. }
        assert (Hce : completed_events v a t w2 = completed_events v a t w).
        { apply completed_events_same; [done|].
          unfold name_of. rewrite Ho2, Ho. done. }
        destruct (IH (S i) w2 (with_ctx task c1) ok c' h' out n Ha2 Ho2 Hd' Hs' Hn')
          as (Eacts&Eobj&Eheap&Etasks&Elvl&Eprint&Ecmd).
        rewrite Eacts, Eobj, Eheap, Etasks, Elvl, Eprint, Ecmd, Hce.
        unfold w2. cbn [acts objects heap trace _tasks _log_level].
        rewrite Hobj, !list_insert_insert_eq.
        repeat (split; [done|]).
        assert (Hq : printed (assign_events a t ret w ++ EvCall a t i :: trace w)
                     = printed (trace w)).
        { rewrite printed_app. unfold assign_events.
          destruct ret; rewrite ?Ho; by rewrite ?app_nil_r. }
        assert (Hc : commands (assign_events a t ret w ++ EvCall a t i :: trace w)
                     = commands (trace w)).
        { rewrite commands_app. unfold assign_events.
          destruct ret; rewrite ?Ho; by rewrite ?app_nil_r. }
        by rewrite Hq, Hc.
      * rewrite (two_run_throw _ _ _ _ _ _ _ Ha Ho Hj Hr).
        rewrite (settled_idle v a false)
          by (by apply list_lookup_insert_eq).
        cbn [acts objects heap trace _tasks _log_level].
        rewrite with_ctx_same, (list_insert_id (objects w)) by done.
        repeat (split; [done|]). split; [|done].
        by rewrite !app_nil_r.
    + (* console *)
      destruct (straight js (_ctx task) (heap w)) as [[[[ok0 c0] h0] out0]|]
        eqn:Hs0; [|done]. injection Hs as -> -> -> <-.
      rewrite (two_console _ _ _ _ _ _ _ _ Ha Ho Hj).
      match goal with |- context [run_sched v _ ?x] => set (w2 := x) end.
      assert (Ha2 : acts w2 !! a = Some (Loop t (S i))).
      { by apply list_lookup_insert_eq. }
      assert (Hce : completed_events v a t w2 = completed_events v a t w)
        by (by apply completed_events_same).
      destruct (IH (S i) w2 task ok c' h' out0 n Ha2 Ho Hd' Hs0 Hn')
        as (Eacts&Eobj&Eheap&Etasks&Elvl&Eprint&Ecmd).
      rewrite Eacts, Eobj, Eheap, Etasks, Elvl, Eprint, Ecmd, Hce.
      unfold w2. cbn [acts objects heap trace _tasks _log_level].
      rewrite !list_insert_insert_eq.
      repeat (split; [done|]).
      assert (Hq : printed (EvConsole (Some a) s args :: EvCall a t i :: trace w)
                   = printed (trace w) ++ [(s, args)])
        by exact (printed_app [EvConsole (Some a) s args; EvCall a t i] (trace w)).
      assert (Hc : commands (EvConsole (Some a) s args :: EvCall a t i :: trace w)
                   = commands (trace w)).
      { exact (eq_trans (commands_app [EvConsole (Some a) s args; EvCall a t i] (trace w))
                        (app_nil_r _)). }
      rewrite Hq, Hc. by rewrite <- app_assoc.
Qed.

Lemma step_enter v a r w d t task :
  acts w !! a = Some (Called d) -> _tasks w !! d = Some t ->
  objects w !! t = Some task -> _deps task = [] ->
  step v (mkPick a r) w =
  mkWorld (_tasks w) (_log_level w) (objects w) (heap w)
    (<[a := Loop t 0]> (acts w))
    (EvEnter a t [] :: EvRunTask a d :: trace w).
Proof.
  intros Ha Ht Ho Hd. unfold step, _runTask. simpl.
  by rewrite Ha, Ht, Ho, Hd.
Qed.

(** X11.  A task without dependencies whose jobs are console lines and
    [run] functions that return or throw without suspending runs to its
    end when its promise is given two reactions per job and two more:
    the promise resolves, or rejects at the first function that throws;
    the context, the store and the lines written are those obtained by
    going through the jobs one after the other, each function getting the
    context left by the one before; the completion line follows when the
    run resolves, and no command is handed to the shell. *)
Theorem X11_straight_task_runs_to_its_end v a d w t task ok c' h' out n :
  acts w !! a = Some (Called d) -> _tasks w !! d = Some t ->
  objects w !! t = Some task -> _deps task = [] ->
  straight (_jobs task) (_ctx task) (heap w) = Some (ok, c', h', out) ->
  2 * length (_jobs task) + 2 <= n ->
  let w' := run_sched v (replicate n (pk a)) w in
  acts w' = <[a := terminal ok]> (acts w) /\
  objects w' = <[t := with_ctx task c']> (objects w) /\
  heap w' = h' /\
  printed (trace w') =
    printed (trace w) ++ out ++
    (if ok then printed (completed_events v a t w) else []) /\
  commands (trace w') = commands (trace w).
Proof.
  intros Ha Ht Ho Hd Hs Hn.
  destruct n as [|n]; [lia|].
  assert (Hn' : 2 * length (_jobs task) + 1 <= n) by lia.
  assert (Hlt : a < length (acts w)) by (by eapply lookup_lt_Some).
  cbv zeta.
  change (run_sched v (replicate (S n) (pk a)) w)
    with (run_sched v (replicate n (pk a)) (step v (pk a) w)).
  assert (E : step v (pk a) w = _)
    by (by apply (step_enter v a _ w d t task)).
  rewrite E. clear E.
  match goal with |- context [run_sched v _ ?x] => set (w1 := x) end.
  assert (Ha1 : acts w1 !! a = Some (Loop t 0))
    by (by apply list_lookup_insert_eq).
  destruct (straight_run v a t (_jobs task) 0 w1 task ok c' h' out n
              Ha1 Ho eq_refl Hs Hn')
    as (Eacts&Eobj&Eheap&_&_&Eprint&Ecmd).
  rewrite Eacts, Eobj, Eheap, Eprint, Ecmd.
  unfold w1. cbn [acts objects heap trace _tasks _log_level].
  rewrite list_insert_insert_eq.
  by repeat (split; [done|]).
Qed.

(** ** The completion line *)

Lemma completed_events_origin v w0 w a t :
  Inv w0 w -> is_Some (objects w !! t) ->
  completed_events v a t w = completed_events v a t w0.
Proof.
  intros I [task Ho]. apply completed_events_same; [apply I|].
  destruct (inv_origin _ _ _ _ I Ho) as (task0&E0&_&_&En).
  unfold name_of. by rewrite Ho, E0.
Qed.

Lemma completes_moved v r w0 w a ph ph' new es os h :
  Inv w0 w -> Inv2 w0 w -> acts w !! a = Some ph ->
  Move v r a w ph ph' new es os h ->
  ordered (completes v w0) (trace w) ->
  ordered (completes v w0) (es ++ trace w).
Proof.
  intros I J Ha HM Ho. apply ordered_app_intro; [done|].
  intros l1 e l2 E b t kids -> Hin.
  destruct (move_settle_last HM) as (es0&Hes&Hno).
  assert (E' : l1 = [] /\ b = a /\ es = EvSettle a true :: l2).
  { destruct Hes as [<-|[ok Hes]].
    - destruct (Hno b true). rewrite E, elem_of_app, elem_of_cons. tauto.
    - rewrite Hes in E. destruct l1 as [|x l1]; simpl in E.
      + injection E as -> -> <-. by rewrite Hes.
      + injection E as _ E. destruct (Hno b true).
        rewrite E, elem_of_app, elem_of_cons. tauto. }
  destruct E' as (->&->&Hes'). clear E Hes Hno.
  assert (Hph : ph' = Resolved).
  { apply (move_settle HM true). rewrite Hes'. by left. }
  subst ph'.
  assert (Hold : EvEnter a t kids ∈ l2 -> False).
  { intros He. assert (He' : EvEnter a t kids ∈ es) by (rewrite Hes'; by right).
    apply (move_enter HM) in He' as (_&_&d&task&->&_).
    inversion HM; subst; simplify_eq. by split_events. }
  apply elem_of_app in Hin as [Hin|Hin]; [by destruct Hold|].
  inversion HM; subst; simplify_eq.
  - by destruct (i_fresh _ _ I _ _ _ Ha Hin).
  - destruct (i_entered _ _ I _ _ t0 Ha eq_refl) as [kids' He0].
    destruct (enter_unique _ _ _ _ _ _ _ I Hin He0) as [-> _].
    exists (trace w). f_equal.
    apply completed_events_origin; [done|by eexists].
  - by destruct (j_silent _ _ J _ _ _ _ Ha Hin).
Qed.

Lemma completes_run v w0 w sched :
  Inv w0 w -> Inv2 w0 w -> ordered (completes v w0) (trace w) ->
  ordered (completes v w0) (trace (run_sched v sched w)).
Proof.
  revert w. induction sched as [|p sched IH]; intros w I J Ho; simpl; [done|].
  assert (J' : Inv2 w0 (step v p w)) by (by apply (inv2_run v w0 w [p])).
  apply IH; [by apply inv_step|done|].
  destruct (step_cases v p w)
    as [->|(ph&ph'&new&es&os&h&Ha&HM&->)]; [done|].
  by eapply completes_moved.
Qed.

(** X12.  The completion line is the last thing a resolved run does: when
    the promise of a run that entered task object [t] resolves, what
    happened just before is the writing of the completion line of [t], in
    the form and under the threshold of the version at hand, and the
    promise does nothing afterwards. *)
Theorem X12_completion_line_then_resolve v prog name sched l1 a l2 t kids :
  let w0 := declare v prog in
  let w := run_sched v sched (main name w0) in
  trace w = l1 ++ EvSettle a true :: l2 -> EvEnter a t kids ∈ l2 ->
  (exists l3, l2 = completed_events v a t w0 ++ l3) /\
  (forall e, e ∈ l1 -> actor e <> Some a).
Proof.
  intros w0 w E Hin.
  pose proof (inv_reach v prog name sched) as I.
  fold w0 in I. fold w in I.
  assert (Ho : ordered (completes v w0) (trace w)).
  { apply completes_run.
    - apply inv_main, quiet_declare.
    - apply inv2_main, quiet_declare.
    - apply quiet_ordered; [|apply quiet_declare].
      intros e past (s&args&->) b t' k ?. done. }
  split.
  - rewrite ordered_split in Ho. by apply (Ho _ _ _ E a t kids).
  - intros e He Hact. apply list_elem_of_split in He as (l1a&l1b&->).
    pose proof (i_after_settle _ _ I) as Hs. rewrite ordered_split in Hs.
    rewrite <- app_assoc in E. simpl in E.
    apply (Hs _ _ _ E a true Hact).
    rewrite elem_of_app, elem_of_cons. tauto.
Qed.

(** ** A command that says nothing *)

Lemma exe_pending name r :
  snd (exe name r) = None <->
  sh_error r = None /\ sh_stderr r = "" /\ sh_stdout r = "".
Proof.
  rewrite (proj2 (exe_spec name r)).
  destruct r as [[msg|] [|c1 out] [|c2 err]]; simpl;
    intuition (try done; try congruence).
Qed.

Lemma hung_quiet v sched w a t i e :
  acts w !! a = Some (Waiting t i WNever) ->
  e ∈ trace (run_sched v sched w) -> actor e = Some a -> e ∈ trace w.
Proof.
  revert w. induction sched as [|p sched IH]; intros w Ha He Hact;
    simpl in He; [done|].
  apply IH in He; [|by apply (never_settles v [p])|done].
  destruct (decide (who p = a)) as [E|Hne].
  - revert He. unfold step. by rewrite E, Ha.
  - destruct (step_cases v p w)
      as [Es|(ph&ph'&new&es&os&h&Hp&HM&Es)]; rewrite Es in He; [done|].
    simpl in He. apply elem_of_app in He as [He|He]; [|done].
    rewrite (move_actor HM _ He) in Hact. by simplify_eq.
Qed.

Lemma hung_blocks v sched w a t i b t' kids :
  acts w !! a = Some (Waiting t i WNever) ->
  acts w !! b = Some (Deps t' kids) -> a ∈ kids ->
  acts (run_sched v sched w) !! b = Some (Deps t' kids) \/
  acts (run_sched v sched w) !! b = Some Rejected.
Proof.
  revert w. induction sched as [|p sched IH]; intros w Ha Hb Hk; simpl;
    [by left|].
  assert (Ha' : acts (step v p w) !! a = Some (Waiting t i WNever))
    by (by apply (never_settles v [p])).
  destruct (decide (who p = b)) as [E|Hne].
  - assert (Hs : step v p w = w \/ step v p w = settle b false w).
    { unfold step. rewrite E, Hb.
      destruct (promise_all (acts w) kids) eqn:Ep; [by left| |by right].
      pose proof (promise_all_resolved _ _ _ Ep Hk) as Hr. congruence. }
    destruct Hs as [Es|Es].
    + rewrite Es. by apply IH.
    + right. apply (settled_stays v sched _ b false). rewrite Es. simpl.
      apply list_lookup_insert_eq. by eapply lookup_lt_Some.
  - apply IH; [done| |done]. by apply step_other.
Qed.

(** X13.  In the richer version a command that ends without error and
    writes nothing, neither to its output nor to its error output, leaves
    the promise of its task pending for ever: the callback writes
    nothing; whatever is scheduled afterwards the promise stays where it
    is and does nothing more (no later job, no completion line), and a
    task that waits for it as a dependency never starts its own jobs.
    These are the only results on which the callback does not settle.
    The simpler version goes on to the next job on the same result. *)
Theorem X13_silent_command_never_settles a r w t i cmd sched :
  acts w !! a = Some (Waiting t i (WCmd cmd)) ->
  sh_error r = None -> sh_stderr r = "" -> sh_stdout r = "" ->
  let w1 := step Richer (mkPick a r) w in
  let w' := run_sched Richer sched w1 in
  trace w1 = trace w /\
  acts w' !! a = Some (Waiting t i WNever) /\
  (forall e, e ∈ trace w' -> actor e = Some a -> e ∈ trace w) /\
  (forall b t' kids,
      acts w !! b = Some (Deps t' kids) -> a ∈ kids ->
      acts w' !! b = Some (Deps t' kids) \/ acts w' !! b = Some Rejected) /\
  (forall name r', snd (exe name r') = None <->
      sh_error r' = None /\ sh_stderr r' = "" /\ sh_stdout r' = "") /\
  acts (step Simpler (mkPick a r) w) !! a = Some (Loop t (S i)).
Proof.
  intros Ha He Herr Hout w1 w'.
  assert (Hlt : a < length (acts w)) by (by eapply lookup_lt_Some).
  assert (E1 : w1 = set_phase a (Waiting t i WNever) w).
  { unfold w1, step. simpl. rewrite Ha.
    unfold shell_callback, exe. by rewrite He, Herr, Hout. }
  assert (Ha1 : acts w1 !! a = Some (Waiting t i WNever)).
  { rewrite E1. simpl. by apply list_lookup_insert_eq. }
  split; [by rewrite E1|]. split; [by apply never_settles|]. split.
  { intros e Hin Hact.
    pose proof (hung_quiet Richer sched w1 a t i e Ha1 Hin Hact) as H.
    by rewrite E1 in H. }
  split.
  { intros b t' kids Hb Hk. apply (hung_blocks Richer sched w1 a t i); [done| |done].
    rewrite E1. simpl. rewrite list_lookup_insert_ne; [done|].
    intros ->. congruence. }
  split; [apply exe_pending|].
  unfold step. simpl. rewrite Ha.
  unfold shell_callback, exeCommand. rewrite He, Herr. simpl.
  by apply list_lookup_insert_eq.
Qed.

(** ** The threshold *)

Lemma usage_level v t m w : _log_level (usage v t m w) = _log_level w.
Proof.
  unfold usage, violet_warn, _warn.
  by destruct v; [destruct (_shouldLog w LvWarn)|].
Qed.

Lemma push_jobs_level t js w : _log_level (push_jobs t js w) = _log_level w.
Proof. unfold push_jobs. by destruct (objects w !! t). Qed.

Lemma push_deps_level t ds w : _log_level (push_deps t ds w) = _log_level w.
Proof. unfold push_deps. by destruct (objects w !! t). Qed.

Lemma declare1_level v w s :
  _log_level (declare1 v w s) =
  match v, s with
  | Simpler, SLogLevel l => LogLevelHierarchy l
  | _, _ => _log_level w
  end.
Proof.
  destruct s as [name|t [|]|t [|]|t [|]|t [|]|t args|t args|t args|l];
    simpl; unfold dep, run, parallel, exec, log, warn, error;
    rewrite ?usage_level, ?push_jobs_level, ?push_deps_level;
    destruct v; simpl; rewrite ?push_jobs_level; try done.
Qed.

Lemma declare_level v prog :
  _log_level (declare v prog) =
  match v with
  | Simpler => from_option LogLevelHierarchy 1%Z (last (levels prog))
  | Richer => 1%Z
  end.
Proof.
  unfold declare, levels.
  induction prog as [|s prog IH] using rev_ind; [by destruct v|].
  rewrite foldl_app, omap_app. simpl. rewrite declare1_level, IH.
  destruct v; [|done].
  destruct s; simpl; rewrite ?app_nil_r; try done.
  by rewrite last_snoc.
Qed.

(** X14.  In the simpler version the threshold a declaration leaves is
    the rank of its last [logLevel] call, and 1 when there is none:
    warnings of the runner are written from the first [logLevel] call on,
    whatever its argument, its [log] lines (the completion line) only
    while the last call was [logLevel("log")], and nothing brings back
    the initial silence.  The richer version never changes the field. *)
Theorem X14_threshold_is_the_last_logLevel prog :
  let w := declare Simpler prog in
  _log_level w = from_option LogLevelHierarchy 1%Z (last (levels prog)) /\
  (_shouldLog w LvWarn = true <-> levels prog <> []) /\
  (_shouldLog w LvLog = true <-> last (levels prog) = Some LvLog) /\
  (forall a t, completed_events Simpler a t w <> [] <->
               last (levels prog) = Some LvLog) /\
  _log_level (declare Richer prog) = 1%Z.
Proof.
  intros w. pose proof (declare_level Simpler prog) as E. fold w in E.
  simpl in E. split; [done|].
  assert (H : (_shouldLog w LvWarn = true <-> levels prog <> []) /\
              (_shouldLog w LvLog = true <-> last (levels prog) = Some LvLog)).
  { unfold _shouldLog. rewrite E.
    destruct (levels prog) as [|l ls] using rev_ind; [done|].
    rewrite last_snoc. simpl.
    split; (split; [|by destruct l; try done; intros ?; simplify_eq]).
    - intros _ Hnil. by apply app_eq_nil in Hnil as [_ ?].
    - by destruct l. }
  destruct H as [Hw Hl]. split; [done|]. split; [done|]. split.
  - intros a t. rewrite <- Hl. unfold completed_events.
    by destruct (_shouldLog w LvLog).
  - apply (declare_level Richer).
Qed.

(** ** Commands and their arguments *)

Lemma append_assoc (a b c : string) : (a +:+ b) +:+ c = a +:+ (b +:+ c).
Proof.
  induction a as [|x a IH]; [done|].
  change (String x ((a +:+ b) +:+ c) = String x (a +:+ (b +:+ c))).
  by f_equal.
Qed.

Lemma join_cons sep x xs :
  xs <> [] -> join sep (x :: xs) = x +:+ sep +:+ join sep xs.
Proof. by destruct xs. Qed.

Lemma join_merge sep xs x y ys :
  join sep (xs ++ [x; y] ++ ys) = join sep (xs ++ [x +:+ sep +:+ y] ++ ys).
Proof.
  induction xs as [|z xs IH].
  - simpl. destruct ys as [|y0 ys]; [done|].
    by rewrite !append_assoc.
  - change ((z :: xs) ++ ?l) with (z :: (xs ++ l)).
    rewrite !join_cons, IH; [done|..]; by destruct xs.
Qed.

(** X15.  An [exec] job hands the shell one string, its arguments joined
    by single blanks: where one argument ends and the next begins is
    lost, so that two neighbouring arguments and the one argument made of
    both with a blank in between give the same command. *)
Theorem X15_command_is_the_joined_arguments v a r w t i task args :
  acts w !! a = Some (Loop t i) -> objects w !! t = Some task ->
  _jobs task !! i = Some (JExec args) ->
  commands (trace (step v (mkPick a r) w)) =
    commands (trace w) ++ [join " " args] /\
  forall xs x y ys,
    args = xs ++ [x; y] ++ ys ->
    join " " args = join " " (xs ++ [x +:+ " " +:+ y] ++ ys).
Proof.
  intros Ha Ho Hj. split.
  - rewrite (step_call_exec _ _ _ _ _ _ _ _ Ha Ho Hj). simpl.
    exact (commands_app [EvShell a (join " " args); EvCall a t i] (trace w)).
  - intros xs x y ys ->. apply join_merge.
Qed.

(** ** The entry point *)

Lemma lower_Canonicalize c : lower (Canonicalize c) = lower c.
Proof. by destruct c as [[] [] [] [] [] [] [] []]. Qed.

Lemma Canonicalize_lower c : Canonicalize (lower c) = Canonicalize c.
Proof. by destruct c as [[] [] [] [] [] [] [] []]. Qed.

Lemma test_lowercase pattern f :
  test pattern f = true <-> lowercase f = lowercase pattern.
Proof.
  revert f. induction pattern as [|p pattern IH]; intros [|c f]; simpl;
    try done.
  rewrite andb_true_iff, IH, Ascii.eqb_eq. split.
  - intros [E ->]. f_equal.
    by rewrite <- (lower_Canonicalize c), <- E, lower_Canonicalize.
  - intros E. injection E as E ->. split; [|done].
    by rewrite <- (Canonicalize_lower p), <- E, Canonicalize_lower.
Qed.

Lemma find_first {A} (f : A -> bool) l x :
  find f l = Some x <->
  exists l1 l2, l = l1 ++ x :: l2 /\ f x = true /\
                forall y, y ∈ l1 -> f y = false.
Proof.
  induction l as [|z l IH]; simpl.
  - split; [done|]. intros (l1&l2&E&_). by destruct l1.
  - destruct (f z) eqn:Ez.
    + split.
      * intros [= ->]. exists [], l. split; [done|]. split; [done|].
        by intros y ?%elem_of_nil.
      * intros (l1&l2&E&Hx&Hno). destruct l1 as [|z' l1]; simpl in E.
        -- by injection E as ->.
        -- injection E as -> _. rewrite Hno in Ez; [done|by left].
    + rewrite IH. split.
      * intros (l1&l2&->&Hx&Hno). exists (z :: l1), l2.
        split; [done|]. split; [done|].
        intros y [->|Hy]%elem_of_cons; [done|by apply Hno].
      * intros (l1&l2&E&Hx&Hno). destruct l1 as [|z' l1]; simpl in E.
        -- injection E as -> _. congruence.
        -- injection E as -> ->. exists l1, l2. split; [done|].
           split; [done|]. intros y Hy. apply Hno. by right.
Qed.

Lemma find_nothing {A} (f : A -> bool) l :
  find f l = None <-> forall y, y ∈ l -> f y = false.
Proof.
  induction l as [|z l IH]; simpl.
  - split; [|done]. by intros _ y ?%elem_of_nil.
  - destruct (f z) eqn:Ez.
    + split; [done|]. intros H. rewrite H in Ez; [done|by left].
    + rewrite IH. split.
      * intros H y [->|Hy]%elem_of_cons; [done|by apply H].
      * intros H y Hy. apply H. by right.
Qed.

(** X16.  [findVioletFile] takes the first entry of the directory, in
    the order [readdir] lists them, whose name is [violet.ts] up to the
    case of its ASCII letters: any mix of cases is accepted, not only
    the two spellings of the message, and a name that only contains
    [violet.ts] is not.  It fails, with that message, exactly when the
    directory has no such entry. *)
Theorem X16_first_file_named_violet_ts files :
  (forall f, findVioletFile files = inl f <->
     exists l1 l2, files = l1 ++ f :: l2 /\ lowercase f = "violet.ts" /\
                   forall g, g ∈ l1 -> lowercase g <> "violet.ts") /\
  (forall msg, findVioletFile files = inr msg <->
     msg = "No violet.ts or Violet.ts file found" /\
     forall g, g ∈ files -> lowercase g <> "violet.ts").
Proof.
  assert (Hf : forall g, test "violet.ts" g = false <->
                         lowercase g <> "violet.ts").
  { intros g. rewrite <- not_true_iff_false.
    by rewrite (test_lowercase "violet.ts" g). }
  unfold findVioletFile. split.
  - intros f. destruct (find _ files) as [x|] eqn:E.
    + split.
      * intros [= ->]. apply find_first in E as (l1&l2&->&Hx&Hno).
        exists l1, l2. split; [done|].
        split; [by apply (test_lowercase "violet.ts")|].
        intros g Hg. by apply Hf, Hno.
      * intros (l1&l2&->&Hx&Hno). f_equal.
        assert (E' : find (test "violet.ts") (l1 ++ f :: l2) = Some f).
        { apply find_first. exists l1, l2. split; [done|].
          split; [by apply (test_lowercase "violet.ts")|].
          intros g Hg. by apply Hf, Hno. }
        congruence.
    + split; [done|]. intros (l1&l2&->&Hx&_).
      rewrite find_nothing in E.
      specialize (E f). rewrite Hf in E. destruct E; [|done].
      rewrite elem_of_app, elem_of_cons. tauto.
  - intros msg. destruct (find _ files) as [x|] eqn:E.
    + split; [done|]. intros [_ Hno].
      apply find_first in E as (l1&l2&->&Hx&_).
      apply (test_lowercase "violet.ts") in Hx. destruct (Hno x); [|done].
      rewrite elem_of_app, elem_of_cons. tauto.
    + rewrite find_nothing in E. split.
      * intros [= <-]. split; [done|]. intros g Hg. by apply Hf, E.
      * by intros [-> _].
Qed.

Lemma nonempty_spec s : nonempty s = true <-> s <> "".
Proof. by destruct s. Qed.

(** X17.  What the program does with its arguments.  Without a task
    name, or with an empty one, it does nothing at all: it reads no
    directory and imports nothing, so nothing can fail.  With a task
    name it goes through reading the directory, finding the file,
    importing it and calling its default export, in this order, and the
    first of these that fails is an uncaught rejection: the message of
    [findVioletFile] is the failure exactly when the directory could be
    read and has no entry that matches.  Whatever the failure, no task
    has been run: there is no promise and no command, and what was
    written are usage warnings of the builder.  When nothing fails the
    name is run on what the default export declared; a file whose
    default export is missing declares nothing and, whatever the name
    and the schedule, the run writes nothing and hands nothing to the
    shell. *)
Theorem X17_entry_point v argv readdir import :
  (entry v argv readdir import = Idle <->
     argv !! 2 = None \/ argv !! 2 = Some "") /\
  (forall e w, entry v argv readdir import = Uncaught e w <->
     (exists task, argv !! 2 = Some task /\ task <> "") /\
     match readdir with
     | None => e = ReaddirFailed /\ w = violet
     | Some files =>
         match findVioletFile files with
         | inr msg => e = NotFound msg /\ w = violet
         | inl file =>
             match import file with
             | ImportRejects => e = ImportFailed /\ w = violet
             | NotCallable => e = CallFailed /\ w = violet
             | Default prog false => e = ExportFailed /\ w = declare v prog
             | NoDefault | Default _ true => False
             end
         end
     end) /\
  (forall e w, entry v argv readdir import = Uncaught e w ->
     acts w = [] /\ commands (trace w) = [] /\
     forall l, l ∈ printed (trace w) -> fst l = Warn) /\
  (forall w, entry v argv readdir import = Running w <->
     exists task files file,
       argv !! 2 = Some task /\ task <> "" /\ readdir = Some files /\
       findVioletFile files = inl file /\
       (import file = NoDefault /\ w = main task violet \/
        exists prog, import file = Default prog true /\
                     w = main task (declare v prog))) /\
  (forall w files file sched,
     entry v argv readdir import = Running w ->
     readdir = Some files -> findVioletFile files = inl file ->
     import file = NoDefault ->
     let w' := run_sched v sched w in
     printed (trace w') = [] /\ commands (trace w') = [] /\
     objects w' = [] /\
     (acts w' = [Called (default "" (argv !! 2))] \/ acts w' = [Resolved])).
Proof.
  assert (Hq : forall prog,
            acts (declare v prog) = [] /\
            commands (trace (declare v prog)) = [] /\
            forall l, l ∈ printed (trace (declare v prog)) -> fst l = Warn).
  { intros prog.
    destruct (declared_declare v prog) as (Ha&Htr&_).
    split; [done|]. split.
    - unfold commands.
      assert (E : omap (fun e => match e with
                                 | EvShell _ c => Some c | _ => None end)
                    (trace (declare v prog)) = []); [|by rewrite E].
      induction (trace (declare v prog)) as [|e tr IH]; [done|]. simpl.
      destruct (Htr e) as [args ->]; [by left|]. simpl.
      apply IH. intros e' He'. apply Htr. by right.
    - intros l. unfold printed. rewrite elem_of_reverse, list_elem_of_omap.
      intros (e&He&Hl). destruct (Htr e He) as [args ->]. by simplify_eq. }
  unfold entry.
  destruct (argv !! 2) as [task|] eqn:Ea.
  2: { split; [by split; auto|]. split.
       { intros e w. split; [done|]. by intros [(task&?&_) _]. }
       split; [done|]. split; [|done].
       intros w. split; [done|]. by intros (task&files&file&?&_). }
  destruct (nonempty task) eqn:En.
  2: { assert (task = "") as -> by (by destruct task).
       split; [by split; auto|]. split.
       { intros e w. split; [done|]. intros [(task&?&?) _]. congruence. }
       split; [done|]. split; [|done].
       intros w. split; [done|].
       intros (task&files&file&?&?&_). congruence. }
  apply nonempty_spec in En.
  assert (Ht : exists task', Some task = Some task' /\ task' <> "")
    by (by exists task).
  split.
  { split; [|intros [?|?]; [done|congruence]].
    destruct readdir as [files|]; [|done].
    destruct (findVioletFile files) as [file|msg]; [|done].
    by destruct (import file) as [| | |prog []]. }
  split.
  { intros e w.
    destruct readdir as [files|].
    2: { split; [by intros [= <- <-]|by intros [_ [-> ->]]]. }
    destruct (findVioletFile files) as [file|msg].
    2: { split; [by intros [= <- <-]|by intros [_ [-> ->]]]. }
    destruct (import file) as [| | |prog []];
      (split; [by intros [= <- <-] || done
              |intros [_ H]; by (destruct H as [-> ->] || destruct H)]). }
  split.
  { intros e w.
    destruct readdir as [files|]; [|intros [= <- <-]; apply (Hq [])].
    destruct (findVioletFile files) as [file|msg];
      [|intros [= <- <-]; apply (Hq [])].
    destruct (import file) as [| | |prog []]; try done;
      intros [= <- <-]; (apply (Hq []) || apply Hq). }
  split.
  { intros w. split.
    - destruct readdir as [files|]; [|done].
      destruct (findVioletFile files) as [file|msg] eqn:Ef; [|done].
      destruct (import file) as [| | |prog []] eqn:Ei; try done;
        intros [= <-]; exists task, files, file;
        (repeat (split; [done|])); [by left|right; by exists prog].
    - intros (task'&files&file&[= <-]&_&->&->&H).
      destruct H as [[-> ->]|(prog&->&->)]; done. }
  intros w files file sched Hr -> Hf Hi. rewrite Hf, Hi in Hr.
  injection Hr as <-. simpl.
  destruct (run_unknown v violet task sched eq_refl (lookup_empty _))
    as [[E _]|[E _]]; simpl in E; rewrite E; simpl; auto.
Qed.

(** * Instances *)

(** In [chain], B calls its job after A, its only dependency, has
    resolved. *)
Lemma C1_witness :
  let w := run_sched Richer chain_sched (main "B" (declare Richer chain)) in
  exists l1 l2,
    trace w = l1 ++ EvCall 0 1 0 :: l2 /\
    EvEnter 0 1 [1] ∈ l2 /\ EvSettle 1 true ∈ l2.
Proof.
  intros w.
  exists [EvSettle 0 true;
          EvConsole (Some 0) Out ["[B] LOG:"; "Task completed"];
          EvAssign 0 1 2].
  exists [EvSettle 1 true;
          EvConsole (Some 1) Out ["[A] LOG:"; "Task completed"];
          EvConsole (Some 1) Out ["[A] LOG:"; "x"];
          EvCall 1 0 0; EvEnter 1 0 []; EvRunTask 1 "A";
          EvEnter 0 1 [1]; EvRunTask 0 "B"].
  assert (E : trace w =
              [EvSettle 0 true;
               EvConsole (Some 0) Out ["[B] LOG:"; "Task completed"];
               EvAssign 0 1 2] ++ EvCall 0 1 0 ::
              [EvSettle 1 true;
               EvConsole (Some 1) Out ["[A] LOG:"; "Task completed"];
               EvConsole (Some 1) Out ["[A] LOG:"; "x"];
               EvCall 1 0 0; EvEnter 1 0 []; EvRunTask 1 "A";
               EvEnter 0 1 [1]; EvRunTask 0 "B"]).
  { vm_compute. reflexivity. }
  assert (He : EvEnter 0 1 [1] ∈
               [EvSettle 1 true;
                EvConsole (Some 1) Out ["[A] LOG:"; "Task completed"];
                EvConsole (Some 1) Out ["[A] LOG:"; "x"];
                EvCall 1 0 0; EvEnter 1 0 []; EvRunTask 1 "A";
                EvEnter 0 1 [1]; EvRunTask 0 "B"]).
  { repeat constructor. }
  split; [exact E|]. split; [exact He|].
  destruct (C1_dependencies_complete_first Richer chain "B" chain_sched)
    as (_&_&_&H&_).
  destruct (H _ _ _ _ _ E) as [_ Hs].
  apply (Hs 1 [1] 1 He). constructor.
Defined.

(** In [chain], the function of B has returned object 2: after the next
    reaction the context of B is object 2. *)
Lemma C2_witness :
  let w := run_sched Richer (take 7 chain_sched)
             (main "B" (declare Richer chain)) in
  objects w !! 1 = Some (mkTask "B" ["A"] [JRun flag] 1) /\
  acts w !! 0 = Some (Waiting 1 0 (WFn (Ret (Object 2)))) /\
  ctx_of 1 (step Richer (pk 0) w) = Some 2.
Proof.
  intros w.
  assert (Ho : objects w !! 1 = Some (mkTask "B" ["A"] [JRun flag] 1)).
  { vm_compute. reflexivity. }
  assert (Ha : acts w !! 0 = Some (Waiting 1 0 (WFn (Ret (Object 2))))).
  { vm_compute. reflexivity. }
  split; [exact Ho|]. split; [exact Ha|].
  destruct (C2_sequential_replaces_or_keeps Richer w 0
              (mkShell None "" "") 1 0 _ Ho) as (_&H&_).
  exact (proj1 (H 2 Ha)).
Defined.

(** In [failing], the command exits with an error: the run rejects. *)
Lemma C3_witness :
  let w := run_sched Richer (take 2 failing_sched)
             (main "F" (declare Richer failing)) in
  acts w !! 0 = Some (Waiting 0 0 (WCmd "false")) /\
  sh_error exit1 = Some exit1_message /\
  acts (step Richer (mkPick 0 exit1) w) !! 0 = Some Rejected /\
  trace (step Richer (mkPick 0 exit1) w) =
    EvSettle 0 false :: EvConsole (Some 0) Err ["[F] ERROR:"; exit1_message]
      :: trace w.
Proof.
  intros w.
  assert (Ha : acts w !! 0 = Some (Waiting 0 0 (WCmd "false"))).
  { vm_compute. reflexivity. }
  assert (He : sh_error exit1 = Some exit1_message) by reflexivity.
  split; [exact Ha|]. split; [exact He|].
  destruct (C3_failure_propagates Richer failing "F" failing_sched)
    as (_&_&_&H&Hf&_).
  destruct (H w 0 exit1 0 0 "false" Ha (Hf _ exit1 _ He))
    as (_&Hr&Ht&_).
  split; [exact Hr|exact Ht].
Defined.

(** Running a name that [chain] does not declare. *)
Lemma C8_witness :
  let w0 := declare Richer chain in
  let w := run_sched Richer [pk 0; pk 1] (main "nope" w0) in
  acts w0 = [] /\ _tasks w0 !! "nope" = None /\
  objects w = objects w0 /\ printed (trace w) = printed (trace w0) /\
  acts w = [Resolved].
Proof.
  intros w0 w.
  assert (Ha : acts w0 = []) by (vm_compute; reflexivity).
  assert (Hn : _tasks w0 !! "nope" = None) by (vm_compute; reflexivity).
  split; [exact Ha|]. split; [exact Hn|].
  destruct (C8_unknown_name_is_noop Richer w0 "nope" [pk 0; pk 1] Ha Hn)
    as (_&_&Ho&_&Hp&_&_&_&Hr).
  split; [exact Ho|]. split; [exact Hp|].
  apply Hr. constructor.
Defined.


(** In [race], with the group left alone, both closures have resolved
    when the loop goes on. *)
Lemma C9_witness :
  let w := run_sched Richer [pk 0] (main "P" (declare Richer race)) in
  let sched := [pk 1; pk 1; pk 2; pk 2; pk 0] in
  let w2 := run_sched Richer sched (step Richer (pk 0) w) in
  acts w !! 0 = Some (Loop 0 0) /\
  acts w2 !! 0 = Some (Loop 0 1) /\
  forall k, k ∈ [1; 2] -> acts w2 !! k = Some Resolved.
Proof.
  intros w sched w2.
  assert (Ha : acts w !! 0 = Some (Loop 0 0)) by (vm_compute; reflexivity).
  assert (Ho : objects w !! 0 =
               Some (mkTask "P" [] [JParallel [answer 1; answer 2]] 0)).
  { vm_compute. reflexivity. }
  assert (Hj : _jobs (mkTask "P" [] [JParallel [answer 1; answer 2]] 0) !! 0
               = Some (JParallel [answer 1; answer 2])) by reflexivity.
  assert (Hend : acts w2 !! 0 = Some (Loop 0 1)) by (vm_compute; reflexivity).
  assert (Hs : forall p, p ∈ sched ->
                 who p = 0 \/ who p ∈ seq (length (acts w)) 2).
  { intros p Hp. unfold sched in Hp.
    repeat (apply elem_of_cons in Hp as [->|Hp]);
      try (by left); try (right; vm_compute; repeat constructor).
    by apply elem_of_nil in Hp. }
  split; [exact Ha|]. split; [exact Hend|].
  destruct (C9_parallel_group Richer) as (_&_&_&_&_&_&H&_).
  exact (proj1 (H w 0 (mkShell None "" "") 0 0 _ _ sched Ha Ho Hj Hs Hend)).
Defined.


(** [log()] on a new task adds a job and writes nothing. *)
Lemma C4_witness :
  let w := snd (addTask "a" violet) in
  objects w !! 0 = Some (mkTask "a" [] [] 0) /\
  trace (log Simpler 0 [] w) = trace w.
Proof.
  intros w.
  assert (Ho : objects w !! 0 = Some (mkTask "a" [] [] 0)) by reflexivity.
  split; [exact Ho|].
  destruct (C4_zero_arguments Simpler 0 w) as (_&_&H).
  exact (proj2 (proj1 (H _ Ho))).
Defined.

(** A [log] action prints at the initial threshold. *)
Lemma C5_witness :
  let w := run_sched Simpler [pk 0]
             (main "a" (declare Simpler [SAddTask "a"; SLog 0 ["x"]])) in
  acts w !! 0 = Some (Loop 0 0) /\
  trace (step Simpler (pk 0) w) =
    EvConsole (Some 0) Out ["[a] LOG: "; "x"] :: EvCall 0 0 0 :: trace w.
Proof.
  intros w.
  assert (Ha : acts w !! 0 = Some (Loop 0 0)) by (vm_compute; reflexivity).
  assert (Ho : objects w !! 0 =
               Some (mkTask "a" [] [JConsole Out ["[a] LOG: "; "x"]] 0)).
  { vm_compute. reflexivity. }
  split; [exact Ha|].
  destruct C5_log_gate as (_&_&_&_&_&H&_).
  exact (H Simpler w 0 (mkShell None "" "") 0 0 _ Out ["[a] LOG: "; "x"]
           Ha Ho eq_refl).
Defined.

(** A command that only writes to stderr fails in the richer version. *)
Lemma C6_witness :
  snd (exe "a" (mkShell None "" "deprecated")) = Some false.
Proof.
  destruct C6_command_outcomes as (_&_&_&_&_&H).
  destruct (H "a" (mkShell None "" "deprecated")) as (Hf&_).
  - right; left. discriminate.
  - apply Hf. right. discriminate.
Defined.

(** In [chain], B calls its only job after nothing else of its own. *)
Lemma X1_witness :
  let w := run_sched Richer chain_sched (main "B" (declare Richer chain)) in
  exists l1 l2,
    trace w = l1 ++ EvCall 0 1 0 :: l2 /\
    forall t' j', EvCall 0 t' j' ∈ l2 <-> t' = 1 /\ j' < 0.
Proof.
  intros w.
  exists [EvSettle 0 true;
          EvConsole (Some 0) Out ["[B] LOG:"; "Task completed"];
          EvAssign 0 1 2].
  exists [EvSettle 1 true;
          EvConsole (Some 1) Out ["[A] LOG:"; "Task completed"];
          EvConsole (Some 1) Out ["[A] LOG:"; "x"];
          EvCall 1 0 0; EvEnter 1 0 []; EvRunTask 1 "A";
          EvEnter 0 1 [1]; EvRunTask 0 "B"].
  assert (E : trace w =
              [EvSettle 0 true;
               EvConsole (Some 0) Out ["[B] LOG:"; "Task completed"];
               EvAssign 0 1 2] ++ EvCall 0 1 0 ::
              [EvSettle 1 true;
               EvConsole (Some 1) Out ["[A] LOG:"; "Task completed"];
               EvConsole (Some 1) Out ["[A] LOG:"; "x"];
               EvCall 1 0 0; EvEnter 1 0 []; EvRunTask 1 "A";
               EvEnter 0 1 [1]; EvRunTask 0 "B"]).
  { vm_compute. reflexivity. }
  split; [exact E|].
  exact (proj1 (X1_jobs_in_declared_order Richer chain "B" chain_sched
                  _ _ _ _ _ E)).
Defined.

(** In [chain], the run of B has resolved: it has called its job. *)
Lemma X2_witness :
  let w0 := declare Richer chain in
  let w := run_sched Richer chain_sched (main "B" w0) in
  EvRunTask 0 "B" ∈ trace w /\ EvSettle 0 true ∈ trace w /\
  _tasks w0 !! "B" = Some 1 /\
  objects w0 !! 1 = Some (mkTask "B" ["A"] [JRun flag] 1) /\
  exists kids, EvEnter 0 1 kids ∈ trace w /\ length kids = 1 /\
    (forall k, k ∈ kids -> EvSettle k true ∈ trace w) /\
    (forall j, j < 1 -> EvCall 0 1 j ∈ trace w).
Proof.
  intros w0 w.
  assert (E : trace w =
              [EvSettle 0 true;
               EvConsole (Some 0) Out ["[B] LOG:"; "Task completed"];
               EvAssign 0 1 2; EvCall 0 1 0; EvSettle 1 true;
               EvConsole (Some 1) Out ["[A] LOG:"; "Task completed"];
               EvConsole (Some 1) Out ["[A] LOG:"; "x"];
               EvCall 1 0 0; EvEnter 1 0 []; EvRunTask 1 "A";
               EvEnter 0 1 [1]; EvRunTask 0 "B"]).
  { vm_compute. reflexivity. }
  assert (Hr : EvRunTask 0 "B" ∈ trace w) by (rewrite E; repeat constructor).
  assert (Hs : EvSettle 0 true ∈ trace w) by (rewrite E; repeat constructor).
  assert (Ht : _tasks w0 !! "B" = Some 1) by (vm_compute; reflexivity).
  assert (Ho : objects w0 !! 1 = Some (mkTask "B" ["A"] [JRun flag] 1)).
  { vm_compute. reflexivity. }
  split; [exact Hr|]. split; [exact Hs|]. split; [exact Ht|].
  split; [exact Ho|].
  exact (X2_resolved_run_is_complete Richer chain "B" chain_sched 0 "B" 1 _
           Hr Hs Ht Ho).
Defined.

(** In [twice], the second run of X enters X again. *)
Lemma X3_witness :
  let w0 := declare Richer twice in
  let w := run_sched Richer twice_sched (main "T" w0) in
  EvRunTask 2 "X" ∈ trace w /\
  exists kids task0,
    EvEnter 2 0 kids ∈ trace w /\ objects w0 !! 0 = Some task0 /\
    length kids = length (_deps task0).
Proof.
  intros w0 w.
  assert (E : trace w =
              [EvSettle 0 true;
               EvConsole (Some 0) Out ["[T] LOG:"; "Task completed"];
               EvSettle 2 true;
               EvConsole (Some 2) Out ["[X] LOG:"; "Task completed"];
               EvAssign 2 0 3; EvSettle 1 true;
               EvConsole (Some 1) Out ["[X] LOG:"; "Task completed"];
               EvAssign 1 0 2; EvCall 2 0 0; EvEnter 2 0 [];
               EvRunTask 2 "X"; EvCall 1 0 0; EvEnter 1 0 [];
               EvRunTask 1 "X"; EvEnter 0 1 [1; 2]; EvRunTask 0 "T"]).
  { vm_compute. reflexivity. }
  assert (Hr : EvRunTask 2 "X" ∈ trace w) by (rewrite E; repeat constructor).
  split; [exact Hr|].
  exact (X3_every_invocation_runs_again Richer twice "T" twice_sched 2 "X" Hr).
Defined.

(** In [chain], the promise of A settles once. *)
Lemma X4_witness :
  let w := run_sched Richer chain_sched (main "B" (declare Richer chain)) in
  exists l1 l2,
    trace w = l1 ++ EvSettle 1 true :: l2 /\
    forall ok', (EvSettle 1 ok' ∉ l1) /\ (EvSettle 1 ok' ∉ l2).
Proof.
  intros w.
  exists [EvSettle 0 true;
          EvConsole (Some 0) Out ["[B] LOG:"; "Task completed"];
          EvAssign 0 1 2; EvCall 0 1 0].
  exists [EvConsole (Some 1) Out ["[A] LOG:"; "Task completed"];
          EvConsole (Some 1) Out ["[A] LOG:"; "x"];
          EvCall 1 0 0; EvEnter 1 0 []; EvRunTask 1 "A";
          EvEnter 0 1 [1]; EvRunTask 0 "B"].
  assert (E : trace w =
              [EvSettle 0 true;
               EvConsole (Some 0) Out ["[B] LOG:"; "Task completed"];
               EvAssign 0 1 2; EvCall 0 1 0] ++ EvSettle 1 true ::
              [EvConsole (Some 1) Out ["[A] LOG:"; "Task completed"];
               EvConsole (Some 1) Out ["[A] LOG:"; "x"];
               EvCall 1 0 0; EvEnter 1 0 []; EvRunTask 1 "A";
               EvEnter 0 1 [1]; EvRunTask 0 "B"]).
  { vm_compute. reflexivity. }
  split; [exact E|].
  exact (X4_settles_at_most_once Richer chain "B" chain_sched _ _ _ _ E).
Defined.

(** In [twice], a reaction of T leaves the pending run of X alone. *)
Lemma X6_witness :
  let w := run_sched Richer [pk 0] (main "T" (declare Richer twice)) in
  acts w !! 1 = Some (Called "X") /\
  acts (step Richer (pk 0) w) !! 1 = Some (Called "X").
Proof.
  intros w.
  assert (Ha : acts w !! 1 = Some (Called "X")) by (vm_compute; reflexivity).
  assert (Hne : who (pk 0) <> 1) by discriminate.
  split; [exact Ha|].
  exact (proj1 (X6_no_cancellation Richer (pk 0) w 1 _ Ha Hne)).
Defined.

(** In [chain], A and B have contexts of their own. *)
Lemma X9_witness :
  let w := declare Richer chain in
  objects w !! 0 = Some (mkTask "A" [] [JConsole Out ["[A] LOG:"; "x"]] 0) /\
  objects w !! 1 = Some (mkTask "B" ["A"] [JRun flag] 1) /\
  heap w !! 0 = Some ∅.
Proof.
  intros w.
  assert (Ho : objects w !! 0 =
               Some (mkTask "A" [] [JConsole Out ["[A] LOG:"; "x"]] 0)).
  { vm_compute. reflexivity. }
  assert (Ho' : objects w !! 1 = Some (mkTask "B" ["A"] [JRun flag] 1)).
  { vm_compute. reflexivity. }
  split; [exact Ho|]. split; [exact Ho'|].
  exact (proj1 (X9_contexts_are_separate Richer chain 0 1 _ _ Ho Ho')).
Defined.

(** [counted] runs to its end in six reactions. *)
Lemma X11_witness :
  let w := main "a" (declare Richer counted) in
  let w' := run_sched Richer (replicate 6 (pk 0)) w in
  acts w !! 0 = Some (Called "a") /\
  acts w' = [Resolved] /\ ctx_of 0 w' = Some 1 /\
  printed (trace w') =
    [(Out, ["[a] LOG:"; "x"]); (Out, ["[a] LOG:"; "Task completed"])].
Proof.
  intros w w'.
  assert (Ha : acts w !! 0 = Some (Called "a")) by reflexivity.
  assert (Ht : _tasks w !! "a" = Some 0) by (vm_compute; reflexivity).
  assert (Ho : objects w !! 0 =
               Some (mkTask "a" [] [JConsole Out ["[a] LOG:"; "x"]; JRun bump] 0)).
  { vm_compute. reflexivity. }
  assert (Hs : straight [JConsole Out ["[a] LOG:"; "x"]; JRun bump] 0 (heap w)
               = Some (true, 1, fst (bump 0 (heap w)),
                       [(Out, ["[a] LOG:"; "x"])])) by reflexivity.
  assert (Hn : 2 * 2 + 2 <= 6) by lia.
  destruct (X11_straight_task_runs_to_its_end Richer 0 "a" w 0 _ true 1 _ _ 6
              Ha Ht Ho eq_refl Hs Hn) as (Eacts&Eobj&_&Eprint&_).
  split; [exact Ha|]. split; [exact Eacts|]. split.
  - unfold ctx_of, w'. rewrite Eobj. reflexivity.
  - unfold w'. rewrite Eprint. reflexivity.
Defined.

(** In [chain], A resolves right after its completion line. *)
Lemma X12_witness :
  let w0 := declare Richer chain in
  let w := run_sched Richer chain_sched (main "B" w0) in
  exists l1 l2,
    trace w = l1 ++ EvSettle 1 true :: l2 /\ EvEnter 1 0 [] ∈ l2 /\
    exists l3, l2 = completed_events Richer 1 0 w0 ++ l3.
Proof.
  intros w0 w.
  exists [EvSettle 0 true;
          EvConsole (Some 0) Out ["[B] LOG:"; "Task completed"];
          EvAssign 0 1 2; EvCall 0 1 0].
  exists [EvConsole (Some 1) Out ["[A] LOG:"; "Task completed"];
          EvConsole (Some 1) Out ["[A] LOG:"; "x"];
          EvCall 1 0 0; EvEnter 1 0 []; EvRunTask 1 "A";
          EvEnter 0 1 [1]; EvRunTask 0 "B"].
  assert (E : trace w =
              [EvSettle 0 true;
               EvConsole (Some 0) Out ["[B] LOG:"; "Task completed"];
               EvAssign 0 1 2; EvCall 0 1 0] ++ EvSettle 1 true ::
              [EvConsole (Some 1) Out ["[A] LOG:"; "Task completed"];
               EvConsole (Some 1) Out ["[A] LOG:"; "x"];
               EvCall 1 0 0; EvEnter 1 0 []; EvRunTask 1 "A";
               EvEnter 0 1 [1]; EvRunTask 0 "B"]).
  { vm_compute. reflexivity. }
  assert (He : EvEnter 1 0 [] ∈
               [EvConsole (Some 1) Out ["[A] LOG:"; "Task completed"];
                EvConsole (Some 1) Out ["[A] LOG:"; "x"];
                EvCall 1 0 0; EvEnter 1 0 []; EvRunTask 1 "A";
                EvEnter 0 1 [1]; EvRunTask 0 "B"]).
  { repeat constructor. }
  split; [exact E|]. split; [exact He|].
  exact (proj1 (X12_completion_line_then_resolve Richer chain "B" chain_sched
                  _ _ _ _ _ E He)).
Defined.

(** In [silent], the command says nothing: the task stays where it is. *)
Lemma X13_witness :
  let w := run_sched Richer [pk 0; pk 0] (main "S" (declare Richer silent)) in
  acts w !! 0 = Some (Waiting 0 0 (WCmd "true")) /\
  acts (run_sched Richer [pk 0; pk 0] (step Richer (pk 0) w)) !! 0
    = Some (Waiting 0 0 WNever).
Proof.
  intros w.
  assert (Ha : acts w !! 0 = Some (Waiting 0 0 (WCmd "true"))).
  { vm_compute. reflexivity. }
  split; [exact Ha|].
  destruct (X13_silent_command_never_settles 0 (mkShell None "" "") w 0 0
              "true" [pk 0; pk 0] Ha eq_refl eq_refl eq_refl) as (_&H&_).
  exact H.
Defined.

(** In [hello], the shell gets the two arguments as one string. *)
Lemma X15_witness :
  let w := run_sched Richer [pk 0; pk 0; pk 0]
             (main "A" (declare Richer hello)) in
  acts w !! 0 = Some (Loop 0 1) /\
  commands (trace (step Richer (pk 0) w)) = commands (trace w) ++ ["echo hi"].
Proof.
  intros w.
  assert (Ha : acts w !! 0 = Some (Loop 0 1)) by (vm_compute; reflexivity).
  assert (Ho : objects w !! 0 =
               Some (mkTask "A" [] [JConsole Out ["[A] LOG:"; "x"];
                                    JExec ["echo"; "hi"]] 0)).
  { vm_compute. reflexivity. }
  split; [exact Ha|].
  exact (proj1 (X15_command_is_the_joined_arguments Richer 0
                  (mkShell None "" "") w 0 1 _ ["echo"; "hi"]
                  Ha Ho eq_refl)).
Defined.
